(** * superthanks.js: amount parsing, detection, de-duplication and totals

    A shallow embedding of the core of [superthanks.js]: the page payload
    [extractFindingsInPage] (detection predicate, recognition regular
    expression, [normalizeCurrency], [normNumber]) and the live collection
    layer ([hashFinding], [collectAndReport], [round2], [mapToSortedObject]).
    Around it: the command line ([parseArgs]), the address of the video
    ([extractVideoId], [canonicalWatchUrl]), the name of the report
    ([ensureExt], [timeStamp]), the line of live totals ([printLiveTotals])
    and the scrolling loop ([autoScrollComments]), the latter over the clock
    readings and the counts of comment blocks that the page answers.

    JavaScript strings are sequences of UTF-16 code units, numbers are IEEE 754
    binary64 values (the kernel's [spec_float] at precision 53), regular
    expressions are run by a backtracking matcher that follows the order of
    ECMAScript's matcher (leftmost start, alternatives in order, greedy
    quantifiers). *)

From Stdlib Require Import String Ascii.
From Stdlib Require Import List NArith ZArith Bool Lia.
From Stdlib Require Import Sorting.Sorted Sorting.Permutation.
From Stdlib Require Import Floats.SpecFloat.
Import ListNotations.

Set Implicit Arguments.

(* ================================================================== *)
(** ** Strings *)

(** A UTF-16 code unit. *)
Definition char16 := N.
Definition jsstring := list char16.

Definition bytes_of_string (s : string) : list N :=
  List.map N_of_ascii (list_ascii_of_string s).

(** Source literals are written in UTF-8, JavaScript sees UTF-16. *)
Fixpoint utf16_of_utf8 (bs : list N) : jsstring :=
  match bs with
  | [] => []
  | b0 :: r =>
    if (b0 <? 128)%N then b0 :: utf16_of_utf8 r
    else if (b0 <? 224)%N then
      match r with
      | b1 :: r1 => ((b0 mod 32) * 64 + b1 mod 64)%N :: utf16_of_utf8 r1
      | [] => []
      end
    else if (b0 <? 240)%N then
      match r with
      | b1 :: b2 :: r2 =>
        ((b0 mod 16) * 4096 + (b1 mod 64) * 64 + b2 mod 64)%N :: utf16_of_utf8 r2
      | _ => []
      end
    else
      match r with
      | b1 :: b2 :: b3 :: r3 =>
        let cp := ((b0 mod 8) * 262144 + (b1 mod 64) * 4096
                   + (b2 mod 64) * 64 + b3 mod 64 - 65536)%N in
        (55296 + cp / 1024)%N :: (56320 + cp mod 1024)%N :: utf16_of_utf8 r3
      | _ => []
      end
  end.

Definition js (s : string) : jsstring := utf16_of_utf8 (bytes_of_string s).

Definition jsstring_eqb (a b : jsstring) : bool :=
  if list_eq_dec N.eq_dec a b then true else false.

(** Code units used below. *)
Definition cSpace : char16 := 32%N.
Definition cDot : char16 := 46%N.
Definition cComma : char16 := 44%N.
Definition cMinus : char16 := 45%N.
Definition cPlus : char16 := 43%N.
Definition cPipe : char16 := 124%N.
Definition cNBSP : char16 := 160%N.      (* U+00A0 *)
Definition cNNBSP : char16 := 8239%N.    (* U+202F *)

Definition inRange (lo hi c : N) : bool := ((lo <=? c) && (c <=? hi))%N.

Definition isDigit (c : char16) : bool := inRange 48 57 c.
Definition isUpperAscii (c : char16) : bool := inRange 65 90 c.
Definition isLowerAscii (c : char16) : bool := inRange 97 122 c.

(** [\w] without the [u] flag. *)
Definition isWordChar (c : char16) : bool :=
  isDigit c || isUpperAscii c || isLowerAscii c || (c =? 95)%N.

(** ECMAScript WhiteSpace and LineTerminator: what [\s] matches and what
    [trim] removes. *)
Definition isWhiteSpace (c : char16) : bool :=
  inRange 9 13 c || (c =? 32)%N || (c =? 160)%N || (c =? 5760)%N
  || inRange 8192 8202 c || (c =? 8232)%N || (c =? 8233)%N
  || (c =? 8239)%N || (c =? 8287)%N || (c =? 12288)%N || (c =? 65279)%N.

(** Case mapping of one code unit (Unicode default case conversion).  The
    table is exact on U+0000..U+017F, which holds every letter of the keyword
    lists and currency tokens, and knows the three code points above that range
    whose lower case falls into it (KELVIN SIGN, ANGSTROM SIGN, CAPITAL SHARP
    S); every other code unit is left as it is. *)
Definition lowerChar (c : char16) : jsstring :=
  if isUpperAscii c then [c + 32]%N
  else if (c <? 192)%N then [c]
  else if inRange 192 222 c then (if (c =? 215)%N then [c] else [c + 32]%N)
  else if (c <? 256)%N then [c]
  else if (c =? 304)%N then [105; 775]%N
  else if inRange 256 311 c then (if N.even c then [c + 1]%N else [c])
  else if (c =? 312)%N then [c]
  else if inRange 313 328 c then (if N.odd c then [c + 1]%N else [c])
  else if (c =? 329)%N then [c]
  else if inRange 330 375 c then (if N.even c then [c + 1]%N else [c])
  else if (c =? 376)%N then [255]%N
  else if inRange 377 382 c then (if N.odd c then [c + 1]%N else [c])
  else if (c =? 8490)%N then [107]%N
  else if (c =? 8491)%N then [229]%N
  else if (c =? 7838)%N then [223]%N
  else [c].

Definition upperChar (c : char16) : jsstring :=
  if isLowerAscii c then [c - 32]%N
  else if (c <? 181)%N then [c]
  else if (c =? 181)%N then [924]%N
  else if (c <? 223)%N then [c]
  else if (c =? 223)%N then [83; 83]%N
  else if inRange 224 254 c then (if (c =? 247)%N then [c] else [c - 32]%N)
  else if (c =? 255)%N then [376]%N
  else if (c =? 305)%N then [73]%N
  else if inRange 256 311 c then (if N.odd c then [c - 1]%N else [c])
  else if (c =? 312)%N then [c]
  else if inRange 313 328 c then (if N.even c then [c - 1]%N else [c])
  else if (c =? 329)%N then [700; 78]%N
  else if inRange 330 375 c then (if N.odd c then [c - 1]%N else [c])
  else if (c =? 376)%N then [c]
  else if inRange 377 382 c then (if N.even c then [c - 1]%N else [c])
  else if (c =? 383)%N then [83]%N
  else [c].

Definition toLowerCase (s : jsstring) : jsstring := flat_map lowerChar s.
Definition toUpperCase (s : jsstring) : jsstring := flat_map upperChar s.

Fixpoint trimStart (s : jsstring) : jsstring :=
  match s with
  | c :: r => if isWhiteSpace c then trimStart r else s
  | [] => []
  end.

Definition trimEnd (s : jsstring) : jsstring := rev (trimStart (rev s)).

Definition trim (s : jsstring) : jsstring := trimEnd (trimStart s).

(** [s.slice(a, b)] for [0 <= a <= b]. *)
Definition slice (a b : nat) (s : jsstring) : jsstring :=
  firstn (b - a) (skipn a s).

Fixpoint startsWith (p s : jsstring) : bool :=
  match p, s with
  | [], _ => true
  | c :: p', d :: s' => (c =? d)%N && startsWith p' s'
  | _ :: _, [] => false
  end.

(** [s.includes(k)] *)
Fixpoint includes (k s : jsstring) : bool :=
  startsWith k s ||
  match s with
  | [] => false
  | _ :: r => includes k r
  end.

(** [s.lastIndexOf(c)] for a one-character search string: [None] is -1. *)
Fixpoint lastIndexOf_from (c : char16) (s : jsstring) (i : nat) (acc : option nat)
  : option nat :=
  match s with
  | [] => acc
  | d :: r => lastIndexOf_from c r (S i) (if (d =? c)%N then Some i else acc)
  end.

Definition lastIndexOf (c : char16) (s : jsstring) : option nat :=
  lastIndexOf_from c s 0 None.

(* ================================================================== *)
(** ** Regular expressions *)

(** The constructs the program's patterns use.  [x+] is [Seq x (Star x)],
    [x?] is [Alt x Eps], [x{3}] and [x{1,2}] are written out.  No pattern of
    the program has a group inside a quantifier, so captures are never
    reset. *)
Inductive regex : Type :=
| Eps
| Chr (p : char16 -> bool)
| Seq (a b : regex)
| Alt (a b : regex)
| Star (a : regex)
| Grp (n : nat) (a : regex)
| Bol
| Eol
| WordB.

Definition Plus (a : regex) : regex := Seq a (Star a).
Definition Opt (a : regex) : regex := Alt a Eps.

(** Captures: group number, start and end index; the latest first. *)
Definition caps := list (nat * (nat * nat)).

Fixpoint capture (n : nat) (c : caps) : option (nat * nat) :=
  match c with
  | [] => None
  | (g, se) :: r => if Nat.eqb g n then Some se else capture n r
  end.

Section Matcher.
Variable s : jsstring.

Definition charAt (i : nat) : option char16 := nth_error s i.

Definition isWordAt (i : nat) : bool :=
  match charAt i with Some c => isWordChar c | None => false end.

Definition wordBoundary (i : nat) : bool :=
  xorb (match i with 0 => false | S j => isWordAt j end) (isWordAt i).

(** The greedy loop of [Star]: [body] matches one iteration.  An iteration
    that consumes nothing is rejected, as by RepeatMatcher; each accepted
    iteration consumes a code unit, so [length s - i] iterations are all
    there can be. *)
Fixpoint starLoop
         (body : nat -> caps -> (nat -> caps -> option (nat * caps))
                 -> option (nat * caps))
         (k : nat -> caps -> option (nat * caps))
         (fuel i : nat) (c : caps) {struct fuel} : option (nat * caps) :=
  match fuel with
  | 0 => k i c
  | S f =>
    match body i c (fun j c' => if j <=? i then None
                                else starLoop body k f j c') with
    | Some res => Some res
    | None => k i c
    end
  end.

(** Backtracking matcher in continuation-passing style: [rmatch r i c k]
    matches [r] at index [i] and hands the end index and the captures to
    [k]; the first success along ECMAScript's order of choices wins. *)
Fixpoint rmatch (r : regex) (i : nat) (c : caps)
         (k : nat -> caps -> option (nat * caps)) {struct r}
  : option (nat * caps) :=
  match r with
  | Eps => k i c
  | Chr p =>
    match charAt i with
    | Some ch => if p ch then k (S i) c else None
    | None => None
    end
  | Seq a b => rmatch a i c (fun j c' => rmatch b j c' k)
  | Alt a b =>
    match rmatch a i c k with
    | Some res => Some res
    | None => rmatch b i c k
    end
  | Star a => starLoop (rmatch a) k (List.length s - i) i c
  | Grp n a => rmatch a i c (fun j c' => k j ((n, (i, j)) :: c'))
  | Bol => if i =? 0 then k i c else None
  | Eol => if i =? List.length s then k i c else None
  | WordB => if wordBoundary i then k i c else None
  end.

Definition matchAt (r : regex) (i : nat) : option (nat * caps) :=
  rmatch r i [] (fun j c => Some (j, c)).

(** Start positions are tried from left to right. *)
Fixpoint search (r : regex) (fuel i : nat) : option (nat * nat * caps) :=
  match matchAt r i with
  | Some (j, c) => Some (i, j, c)
  | None =>
    match fuel with
    | 0 => None
    | S f => search r f (S i)
    end
  end.

(** RegExpBuiltinExec from [lastIndex]: start index, end index, captures. *)
Definition exec (r : regex) (lastIndex : nat) : option (nat * nat * caps) :=
  if lastIndex <=? length s then search r (length s - lastIndex) lastIndex
  else None.

Definition group (n : nat) (c : caps) : jsstring :=
  match capture n c with
  | Some (a, b) => slice a b s
  | None => []
  end.
End Matcher.

(** [re.test(s)] and the truth value of [s.match(re)] for a regular
    expression without the [g] flag. *)
Definition test (r : regex) (s : jsstring) : bool :=
  match exec s r 0 with Some _ => true | None => false end.

(** [s.replace(re, repl)] without the [g] flag: the first match only. *)
Definition replace (r : regex) (repl s : jsstring) : jsstring :=
  match exec s r 0 with
  | Some (st, en, _) => firstn st s ++ repl ++ skipn en s
  | None => s
  end.

(** [s.replace(re, repl)] with the [g] flag: every match from left to right;
    after an empty match the next search starts one code unit further. *)
Fixpoint replaceAll_from (r : regex) (repl s : jsstring) (fuel i : nat)
  : jsstring :=
  match fuel with
  | 0 => skipn i s
  | S f =>
    match exec s r i with
    | None => skipn i s
    | Some (st, en, _) =>
      slice i st s ++ repl ++
      (if en =? st then slice st (S st) s ++ replaceAll_from r repl s f (S st)
       else replaceAll_from r repl s f en)
    end
  end.

Definition replaceAll (r : regex) (repl s : jsstring) : jsstring :=
  replaceAll_from r repl s (S (length s)) 0.

(** Canonicalize of the [i] flag (without [u]): the upper case of the code
    unit when that is one code unit, except that a non-ASCII code unit is
    never folded onto an ASCII one. *)
Definition canonicalize (c : char16) : char16 :=
  match upperChar c with
  | [u] => if ((128 <=? c) && (u <? 128))%N then c else u
  | _ => c
  end.

Definition chr (c : char16) : regex := Chr (N.eqb c).
Definition chrI (c : char16) : regex :=
  Chr (fun x => (canonicalize x =? canonicalize c)%N).

Fixpoint lit (w : jsstring) : regex :=
  match w with
  | [] => Eps
  | [c] => chr c
  | c :: r => Seq (chr c) (lit r)
  end.

Fixpoint litI (w : jsstring) : regex :=
  match w with
  | [] => Eps
  | [c] => chrI c
  | c :: r => Seq (chrI c) (litI r)
  end.

Fixpoint alts (rs : list regex) : regex :=
  match rs with
  | [] => Chr (fun _ => false)
  | [r] => r
  | r :: rest => Alt r (alts rest)
  end.

Definition digit : regex := Chr isDigit.
Definition space : regex := Chr isWhiteSpace.

(* ================================================================== *)
(** ** Numbers *)

(** A Number is a binary64 value; every value below is kept in canonical
    form, so equal numbers are equal terms (NaN has no payload). *)
Definition number := spec_float.
Definition prec : Z := 53.
Definition emax : Z := 1024.

Definition NaN : number := S754_nan.
Definition Zero : number := S754_zero false.

Definition add : number -> number -> number := SFadd prec emax.
Definition mul : number -> number -> number := SFmul prec emax.
Definition div : number -> number -> number := SFdiv prec emax.

Definition ofZ (z : Z) : number := binary_normalize prec emax z 0 false.

(** The Number value of [m * 10^e]: round to nearest, ties to even. *)
Definition ofDecimal (neg : bool) (m : N) (e : Z) : number :=
  match m with
  | N0 => S754_zero neg
  | Npos p =>
    if (0 <=? e)%Z then
      binary_normalize prec emax (cond_Zopp neg (Zpos p * 10 ^ e)) 0 neg
    else
      let '(q, e', l) :=
        SFdiv_core_binary prec emax (Zpos p) 0 (10 ^ (- e)) 0 in
      binary_round_aux prec emax neg q e' l
  end.

Definition isFinite (x : number) : bool :=
  match x with
  | S754_zero _ | S754_finite _ _ _ => true
  | S754_infinity _ | S754_nan => false
  end.

(** ToBoolean on a Number: [0], [-0] and [NaN] are falsy. *)
Definition truthy (x : number) : bool :=
  match x with
  | S754_zero _ | S754_nan => false
  | S754_infinity _ | S754_finite _ _ _ => true
  end.

Definition number_eqb (x y : number) : bool :=
  match x, y with
  | S754_zero a, S754_zero b => Bool.eqb a b
  | S754_infinity a, S754_infinity b => Bool.eqb a b
  | S754_nan, S754_nan => true
  | S754_finite a m e, S754_finite b n f =>
    Bool.eqb a b && Pos.eqb m n && Z.eqb e f
  | _, _ => false
  end.

(** [Math.round]: the nearest integer, a tie going towards +Infinity. *)
Definition Math_round (x : number) : number :=
  match x with
  | S754_finite sx m e =>
    if (0 <=? e)%Z then x
    else
      let r := Z.shiftr (2 * cond_Zopp sx (Zpos m) + 2 ^ (- e)) (1 - e) in
      if (r =? 0)%Z then S754_zero sx else ofZ r
  | _ => x
  end.

Fixpoint span (p : char16 -> bool) (s : jsstring) : jsstring * jsstring :=
  match s with
  | c :: r => if p c then let '(a, b) := span p r in (c :: a, b) else ([], s)
  | [] => ([], [])
  end.

Definition digitsValue (ds : jsstring) : N :=
  fold_left (fun acc d => (10 * acc + (d - 48))%N) ds 0%N.

(** ExponentPart of a StrDecimalLiteral, when one is there. *)
Definition exponentPart (s : jsstring) : Z :=
  match s with
  | c :: r =>
    if ((c =? 101) || (c =? 69))%N then
      let '(neg, r1) :=
        match r with
        | d :: r' =>
          if (d =? cMinus)%N then (true, r')
          else if (d =? cPlus)%N then (false, r') else (false, r)
        | [] => (false, r)
        end in
      match fst (span isDigit r1) with
      | [] => 0%Z
      | ds => cond_Zopp neg (Z.of_N (digitsValue ds))
      end
    else 0%Z
  | [] => 0%Z
  end.

(** [parseFloat]: leading white space is skipped, the longest prefix that is
    a StrDecimalLiteral is read, and [NaN] is the answer when there is none. *)
Definition parseFloat (s : jsstring) : number :=
  let t := trimStart s in
  let '(neg, t1) :=
    match t with
    | c :: r =>
      if (c =? cMinus)%N then (true, r)
      else if (c =? cPlus)%N then (false, r) else (false, t)
    | [] => (false, t)
    end in
  if startsWith (js "Infinity") t1 then S754_infinity neg
  else
    let '(ip, t2) := span isDigit t1 in
    let '(fp, t3) :=
      match t2 with
      | c :: r => if (c =? cDot)%N then span isDigit r else ([], t2)
      | [] => ([], t2)
      end in
    match ip ++ fp with
    | [] => NaN
    | ds =>
      ofDecimal neg (digitsValue ds)
                (exponentPart t3 - Z.of_nat (List.length fp))
    end.

(** Decimal digits of a natural number. *)
Fixpoint decimalDigits (fuel : nat) (n : N) (acc : jsstring) : jsstring :=
  match fuel with
  | 0 => acc
  | S f =>
    let acc' := (48 + n mod 10)%N :: acc in
    if (n / 10 =? 0)%N then acc' else decimalDigits f (n / 10)%N acc'
  end.

Definition showN (n : N) : jsstring :=
  decimalDigits (S (N.to_nat (N.log2 n))) n [].

(** Number::toString, radix 10.  For a positive finite [v = num / den] the
    digits are the shortest [s] (of [k] digits) with [s * 10^(n-k)] reading
    back as [v], the closest to [v] when several do. *)
Fixpoint magnitudeBelowOne (fuel : nat) (num den : Z) (t : Z) : Z :=
  match fuel with
  | 0 => t
  | S f => if (den <=? num * 10 ^ t)%Z then t
           else magnitudeBelowOne f num den (t + 1)
  end.

Definition magnitude (num den : Z) : Z :=
  if (den <=? num)%Z then Z.of_nat (List.length (showN (Z.to_N (num / den))))
  else (1 - magnitudeBelowOne 400 num den 1)%Z.

Definition candidate (x : number) (num den n0 k : Z) : option (Z * Z) :=
  let p := (n0 - k)%Z in
  let A := (num * 10 ^ Z.max 0 (- p))%Z in
  let B := (den * 10 ^ Z.max 0 p)%Z in
  let lo := (A / B)%Z in
  let r := (A mod B)%Z in
  let okLo := (0 <? lo)%Z && number_eqb (ofDecimal false (Z.to_N lo) p) x in
  let okHi := number_eqb (ofDecimal false (Z.to_N (lo + 1)) p) x in
  match okLo, okHi with
  | true, true =>
    if (2 * r <? B)%Z then Some (lo, p)
    else if (B <? 2 * r)%Z then Some (lo + 1, p)%Z
    else Some (if Z.even lo then lo else lo + 1, p)%Z
  | true, false => Some (lo, p)
  | false, true => Some (lo + 1, p)%Z
  | false, false => None
  end.

Fixpoint shortest (fuel : nat) (x : number) (num den n0 k : Z)
  : Z * Z :=
  match fuel with
  | 0 => (0, 0)%Z
  | S f =>
    match candidate x num den n0 k with
    | Some sp => sp
    | None => shortest f x num den n0 (k + 1)
    end
  end.

Fixpoint stripZeros (fuel : nat) (s p : Z) : Z * Z :=
  match fuel with
  | 0 => (s, p)
  | S f => if (s mod 10 =? 0)%Z then stripZeros f (s / 10)%Z (p + 1)%Z
           else (s, p)
  end.

Definition zeros (n : Z) : jsstring := repeat 48%N (Z.to_nat n).

Definition formatDigits (ds : jsstring) (n : Z) : jsstring :=
  let k := Z.of_nat (List.length ds) in
  if ((k <=? n) && (n <=? 21))%Z then ds ++ zeros (n - k)
  else if ((0 <? n) && (n <=? 21))%Z then
    firstn (Z.to_nat n) ds ++ [cDot] ++ skipn (Z.to_nat n) ds
  else if ((-6 <? n) && (n <=? 0))%Z then
    [48%N; cDot] ++ zeros (- n) ++ ds
  else
    let ex := (if (0 <? n - 1)%Z then [cPlus] else [cMinus])
              ++ showN (Z.to_N (Z.abs (n - 1))) in
    match ds with
    | [d] => [d; 101%N] ++ ex
    | d :: rest => [d; cDot] ++ rest ++ [101%N] ++ ex
    | [] => []
    end.

Definition numberToString (x : number) : jsstring :=
  match x with
  | S754_nan => js "NaN"
  | S754_zero _ => js "0"
  | S754_infinity sx => (if sx then [cMinus] else []) ++ js "Infinity"
  | S754_finite sx m e =>
    let '(num, den) :=
      if (0 <=? e)%Z then (Zpos m * 2 ^ e, 1)%Z else (Zpos m, 2 ^ (- e))%Z in
    let n0 := magnitude num den in
    let '(s0, p0) := shortest 17 (S754_finite false m e) num den n0 1 in
    let '(s1, p1) := stripZeros 400 s0 p0 in
    let ds := showN (Z.to_N s1) in
    (if sx then [cMinus] else [])
      ++ formatDigits ds (p1 + Z.of_nat (List.length ds))
  end.

(* ================================================================== *)
(** ** The page payload: [extractFindingsInPage] *)

Open Scope string_scope.
Open Scope list_scope.
Open Scope nat_scope.

Record Finding := {
  currency : jsstring;
  amount : number;
  author : jsstring;
  snippet : jsstring
}.

(** What the payload reads of a comment block: its rendered text, whether
    the badge selector finds something in it, and the text of the author and
    content elements when the selectors find them. *)
Record Element := {
  innerText : jsstring;
  textContent : jsstring;
  badge : bool;
  authorEl : option jsstring;
  contentEl : option jsstring
}.

(** [a || b] on strings: the empty string (and [undefined]) is falsy. *)
Definition jsOr (a b : jsstring) : jsstring :=
  match a with [] => b | _ => a end.

Definition nonEmpty (a : jsstring) : bool :=
  match a with [] => false | _ => true end.

Definition THANKS_KEYWORDS : list jsstring :=
  List.map js ["super thanks"; "super-thanks"; "superthanks";
               "süper teşekkür"; "süper teşekkürler"; "süper-teşekkür"].

Definition CURRENCY_SYMBOLS : list jsstring :=
  List.map js ["₺"; "TL"; "TRY"; "$"; "USD"; "€"; "EUR"; "£"; "GBP"; "¥"; "JPY";
               "₹"; "INR"; "₩"; "KRW"; "₫"; "VND"; "₦"; "NGN"; "₱"; "PHP";
               "R$"; "BRL"; "A$"; "AUD"; "C$"; "CAD"; "HK$"; "NT$"].

Definition isSeparator (c : char16) : bool :=
  (c =? cDot)%N || (c =? cComma)%N || (c =? cNBSP)%N || (c =? cNNBSP)%N
  || isWhiteSpace c.

Definition isDotOrComma (c : char16) : bool :=
  (c =? cDot)%N || (c =? cComma)%N.

(** [(?:\d+(?:[.,\u00A0\u202F\s]?\d{3})*(?:[.,]\d{1,2})?|\d+\s*bin)], flag [i] *)
Definition NUM_PATTERN : regex :=
  Alt (Seq (Plus digit)
           (Seq (Star (Seq (Opt (Chr isSeparator))
                           (Seq digit (Seq digit digit))))
                (Opt (Seq (Chr isDotOrComma) (Seq digit (Opt digit))))))
      (Seq (Plus digit) (Seq (Star space) (litI (js "bin")))).

Definition currencyAlternation : regex := alts (List.map litI CURRENCY_SYMBOLS).

(** [(?:(CUR))\s*(NUM)|(NUM)\s*((CUR))], flags [gi] *)
Definition CURRENCY_RE : regex :=
  Alt (Seq (Grp 1 currencyAlternation) (Seq (Star space) (Grp 2 NUM_PATTERN)))
      (Seq (Grp 3 NUM_PATTERN)
           (Seq (Star space) (Grp 4 (Grp 5 currencyAlternation)))).

(** [/[€$£¥₺]|TL|TRY|USD|EUR|GBP|JPY/i] *)
Definition currencyHint : regex :=
  alts (Chr (fun x => existsb (fun c => (canonicalize x =? canonicalize c)%N)
                              (js "€$£¥₺"))
        :: List.map (fun w => litI (js w))
                    ["TL"; "TRY"; "USD"; "EUR"; "GBP"; "JPY"]).

(** [/\bthanks|teşekkür/i] *)
Definition thanksWord : regex :=
  Alt (Seq WordB (litI (js "thanks"))) (litI (js "teşekkür")).

Definition keywordTrigger (fullText : jsstring) : bool :=
  existsb (fun k => includes k (toLowerCase fullText)) THANKS_KEYWORDS.

Definition cooccurrenceTrigger (fullText : jsstring) : bool :=
  test currencyHint fullText && test thanksWord (toLowerCase fullText).

Definition isSuperThanksBlock (el : Element) (fullText : jsstring) : bool :=
  if keywordTrigger fullText then true
  else if badge el then true
  else if cooccurrenceTrigger fullText then true
  else false.

(** [/\s+/g] *)
Definition spaces : regex := Plus space.

Definition getAuthorAndSnippet (el : Element) : jsstring * jsstring :=
  let author := match authorEl el with
                | Some t => trim t
                | None => []
                end in
  let content := match contentEl el with
                 | Some t => t
                 | None => textContent el
                 end in
  let snippet := slice 0 200 (replaceAll spaces [cSpace] (trim content)) in
  (author, snippet).

Definition normalizeCurrency (c : jsstring) : jsstring :=
  let tok := fun w => jsstring_eqb c (js w) in
  if tok "₺" || tok "TL" || tok "TRY" then js "TRY"
  else if tok "$" || tok "USD" then js "USD"
  else if tok "€" || tok "EUR" then js "EUR"
  else if tok "£" || tok "GBP" then js "GBP"
  else if tok "¥" || tok "JPY" then js "JPY"
  else if tok "₹" || tok "INR" then js "INR"
  else if tok "₩" || tok "KRW" then js "KRW"
  else if tok "₫" || tok "VND" then js "VND"
  else if tok "₦" || tok "NGN" then js "NGN"
  else if tok "₱" || tok "PHP" then js "PHP"
  else if tok "R$" || tok "BRL" then js "BRL"
  else if tok "A$" || tok "AUD" then js "AUD"
  else if tok "C$" || tok "CAD" then js "CAD"
  else if tok "HK$" then js "HKD"
  else if tok "NT$" then js "TWD"
  else c.

(** [/^(\d+)\s*bin\b/] and [/\s*bin\b/] *)
Definition binHead : regex :=
  Seq Bol (Seq (Grp 1 (Plus digit))
               (Seq (Star space) (Seq (lit (js "bin")) WordB))).
Definition binSuffix : regex :=
  Seq (Star space) (Seq (lit (js "bin")) WordB).

(** [/\.\d{1,2}$/] and [/,\d{1,2}$/] *)
Definition decimalTail (sep : char16) : regex :=
  Seq (chr sep) (Seq digit (Seq (Opt digit) Eol)).

(** The "bin" multiplier of [normNumber]: the string without the suffix, and
    whether the multiplier is 1000. *)
Definition stripBin (s : jsstring) : jsstring * bool :=
  if test binHead s then (trim (replace binSuffix [] s), true)
  else (s, false).

(** The [decimalSep] of [normNumber]; [None] is [null]. *)
Definition inferDecimalSep (s : jsstring) : option char16 :=
  match lastIndexOf cDot s, lastIndexOf cComma s with
  | Some lastDot, Some lastComma =>
    Some (if lastComma <? lastDot then cDot else cComma)
  | Some _, None => if test (decimalTail cDot) s then Some cDot else None
  | None, Some _ => if test (decimalTail cComma) s then Some cComma else None
  | None, None => None
  end.

(** The string [normNumber] hands to [parseFloat]. *)
Definition resolveSeparators (decimalSep : option char16) (s : jsstring)
  : jsstring :=
  match decimalSep with
  | Some sep =>
    let other := if (sep =? cDot)%N then cComma else cDot in
    let s := replaceAll (chr other) [] s in
    let s := if (sep =? cComma)%N then replaceAll (chr cComma) [cDot] s
             else s in
    replaceAll space [] s
  | None =>
    replaceAll (Chr (fun c => isDotOrComma c || isWhiteSpace c)) [] s
  end.

Definition cleaned (str : jsstring) : jsstring * bool :=
  let s := trim (toLowerCase str) in
  let s := replaceAll (Alt (chr cNBSP) (chr cNNBSP)) [cSpace] s in
  let '(s, bin) := stripBin s in
  (resolveSeparators (inferDecimalSep s) s, bin).

Definition normNumber (str : jsstring) : number :=
  match str with
  | [] => NaN
  | _ =>
    let '(s, bin) := cleaned str in
    let multiplier := if bin then ofZ 1000 else ofZ 1 in
    let val := parseFloat s in
    if isFinite val then mul val multiplier else NaN
  end.

(** The body of the [while ((m = CURRENCY_RE.exec(text)) !== null)] loop for
    one match: the finding pushed to [results], if any. *)
Definition findingOfMatch (el : Element) (text : jsstring) (m : caps)
  : option Finding :=
  let currency := replaceAll spaces []
                    (toUpperCase (jsOr (group text 1 m) (group text 4 m))) in
  let numStr := trim (jsOr (group text 2 m) (group text 3 m)) in
  let currency := normalizeCurrency currency in
  let val := normNumber numStr in
  if nonEmpty currency && isFinite val then
    let '(a, sn) := getAuthorAndSnippet el in
    Some {| currency := currency; amount := val; author := a; snippet := sn |}
  else None.

(** The [exec] loop over one block, [lastIndex] carried from match to match;
    [None] when the fuel runs out before [exec] answers [null]. *)
Fixpoint scanBlock (el : Element) (text : jsstring) (fuel lastIndex : nat)
         (results : list Finding) : option (list Finding) :=
  match fuel with
  | 0 => None
  | S f =>
    match exec text CURRENCY_RE lastIndex with
    | None => Some results
    | Some (_, e, m) =>
      scanBlock el text f e
                (match findingOfMatch el text m with
                 | Some x => results ++ [x]
                 | None => results
                 end)
    end
  end.

Definition blockText (el : Element) : jsstring :=
  trim (jsOr (innerText el) (textContent el)).

(** The [for (const el of getCommentBlocks())] loop; [page] is what
    [getCommentBlocks()] returns. *)
Fixpoint extractLoop (page : list Element) (results : list Finding)
  : option (list Finding) :=
  match page with
  | [] => Some results
  | el :: rest =>
    let text := blockText el in
    if negb (nonEmpty text) then extractLoop rest results
    else if negb (isSuperThanksBlock el text) then extractLoop rest results
    else
      match scanBlock el text (S (List.length text)) 0 results with
      | Some results' => extractLoop rest results'
      | None => None
      end
  end.

Definition extractFindingsInPage (page : list Element)
  : option (list Finding) :=
  extractLoop page [].

(* ================================================================== *)
(** ** The live collection layer *)

(** [`${f.currency}|${f.amount}|${(f.author||'').trim()}|${(f.snippet||'').trim()}`] *)
Definition hashFinding (f : Finding) : jsstring :=
  currency f ++ [cPipe] ++ numberToString (amount f) ++ [cPipe]
    ++ trim (author f) ++ [cPipe] ++ trim (snippet f).

(** A [Map<string, number>]: the entries in insertion order, keys distinct. *)
Definition TotalsMap := list (jsstring * number).

Fixpoint mapGet (k : jsstring) (m : TotalsMap) : option number :=
  match m with
  | [] => None
  | (k', v) :: r => if jsstring_eqb k' k then Some v else mapGet k r
  end.

Fixpoint mapSet (k : jsstring) (v : number) (m : TotalsMap) : TotalsMap :=
  match m with
  | [] => [(k, v)]
  | (k', v') :: r =>
    if jsstring_eqb k' k then (k', v) :: r else (k', v') :: mapSet k v r
  end.

(** A [Set<string>] in insertion order. *)
Definition setHas (h : jsstring) (seen : list jsstring) : bool :=
  existsb (jsstring_eqb h) seen.

(** The module state: [findings], [seen], [liveTotals]. *)
Record RunState := {
  findings : list Finding;
  seen : list jsstring;
  liveTotals : TotalsMap
}.

Definition emptyState : RunState :=
  {| findings := []; seen := []; liveTotals := [] |}.

(** [x || 0] on numbers. *)
Definition orZero (x : number) : number := if truthy x then x else Zero.

(** One turn of the loop of [collectAndReport]: the state after it, and the
    finding when it is new (the line streamed to the console). *)
Definition collectOne (st : RunState) (f : Finding)
  : RunState * option Finding :=
  let h := hashFinding f in
  if setHas h (seen st) then (st, None)
  else
    let prev := match mapGet (currency f) (liveTotals st) with
                | Some v => orZero v
                | None => Zero
                end in
    ({| findings := findings st ++ [f];
        seen := seen st ++ [h];
        liveTotals := mapSet (currency f) (add prev (orZero (amount f)))
                             (liveTotals st) |},
     Some f).

Fixpoint collectLoop (pageFindings : list Finding) (st : RunState)
         (streamed : list Finding) : RunState * list Finding :=
  match pageFindings with
  | [] => (st, streamed)
  | f :: rest =>
    match collectOne st f with
    | (st', Some x) => collectLoop rest st' (streamed ++ [x])
    | (st', None) => collectLoop rest st' streamed
    end
  end.

(** [collectAndReport(page)]: the state after the call and the new findings
    it streamed, in order ([newCount] is their number). *)
Definition collectAndReport (st : RunState) (page : list Element)
  : option (RunState * list Finding) :=
  match extractFindingsInPage page with
  | Some pageFindings => Some (collectLoop pageFindings st [])
  | None => None
  end.

(** A run: one [collectAndReport] per tick, the first on the empty state. *)
Fixpoint collectAll (st : RunState) (pages : list (list Element))
  : option RunState :=
  match pages with
  | [] => Some st
  | page :: rest =>
    match collectAndReport st page with
    | Some (st', _) => collectAll st' rest
    | None => None
    end
  end.

Definition round2 (n : number) : number :=
  div (Math_round (mul n (ofZ 100))) (ofZ 100).

(** [a.localeCompare(b)] on currency codes.  Collation is the host's; on
    strings of upper-case ASCII letters, which the canonical codes are, it is
    the order of the code units, and that is what is modelled. *)
Fixpoint localeCompare (a b : jsstring) : comparison :=
  match a, b with
  | [], [] => Eq
  | [], _ :: _ => Lt
  | _ :: _, [] => Gt
  | x :: a', y :: b' =>
    match (x ?= y)%N with
    | Eq => localeCompare a' b'
    | c => c
    end
  end.

(** [Array.prototype.sort((a,b) => a[0].localeCompare(b[0]))]: a stable sort
    of the entries. *)
Fixpoint insertEntry (e : jsstring * number) (l : list (jsstring * number))
  : list (jsstring * number) :=
  match l with
  | [] => [e]
  | x :: r =>
    match localeCompare (fst e) (fst x) with
    | Lt => e :: l
    | _ => x :: insertEntry e r
    end
  end.

Definition sortEntries (l : list (jsstring * number))
  : list (jsstring * number) :=
  fold_left (fun acc e => insertEntry e acc) l [].

(** The plain object built by [obj[cur] = round2(amt)]: its properties in
    creation order (the keys are not array indices). *)
Definition mapToSortedObject (map : TotalsMap) : list (jsstring * number) :=
  fold_left (fun obj e => mapSet (fst e) (round2 (snd e)) obj)
            (sortEntries map) [].

(** What the run writes at the end: [totals], [count], [findings]. *)
Record Report := {
  totals : list (jsstring * number);
  count : nat;
  reported : list Finding
}.

Definition report (st : RunState) : Report :=
  {| totals := mapToSortedObject (liveTotals st);
     count := List.length (findings st);
     reported := findings st |}.

(* ================================================================== *)
(** ** Vocabulary of the statements *)

(** What the matcher can find: [Sem s r i c j c'] says that [r] matches
    [s] from index [i] to index [j], taking the captures from [c] to [c'].
    It has no order of choices; the matcher picks one derivation. *)
Inductive Sem (s : jsstring) : regex -> nat -> caps -> nat -> caps -> Prop :=
| SemEps i c : Sem s Eps i c i c
| SemChr p i c ch :
    nth_error s i = Some ch -> p ch = true -> Sem s (Chr p) i c (S i) c
| SemSeq a b i c j c' k c'' :
    Sem s a i c j c' -> Sem s b j c' k c'' -> Sem s (Seq a b) i c k c''
| SemAltL a b i c j c' : Sem s a i c j c' -> Sem s (Alt a b) i c j c'
| SemAltR a b i c j c' : Sem s b i c j c' -> Sem s (Alt a b) i c j c'
| SemStarStop a i c : Sem s (Star a) i c i c
| SemStarStep a i c j c' k c'' :
    Sem s a i c j c' -> i < j -> Sem s (Star a) j c' k c'' ->
    Sem s (Star a) i c k c''
| SemGrp n a i c j c' :
    Sem s a i c j c' -> Sem s (Grp n a) i c j ((n, (i, j)) :: c')
| SemBol c : Sem s Bol 0 c 0 c
| SemEol c : Sem s Eol (List.length s) c (List.length s) c
| SemWordB i c : wordBoundary s i = true -> Sem s WordB i c i c.

(** Whether [r] can match the empty string (an over-approximation). *)
Fixpoint nullable (r : regex) : bool :=
  match r with
  | Chr _ => false
  | Seq a b => nullable a && nullable b
  | Alt a b => nullable a || nullable b
  | Grp _ a => nullable a
  | Eps | Star _ | Bol | Eol | WordB => true
  end.

(** Whether some character class of [r] accepts [ch]. *)
Fixpoint accepts (r : regex) (ch : char16) : bool :=
  match r with
  | Chr p => p ch
  | Seq a b | Alt a b => accepts a ch || accepts b ch
  | Star a | Grp _ a => accepts a ch
  | Eps | Bol | Eol | WordB => false
  end.

Fixpoint starFree (r : regex) : bool :=
  match r with
  | Star _ => false
  | Seq a b | Alt a b => starFree a && starFree b
  | Grp _ a => starFree a
  | Eps | Chr _ | Bol | Eol | WordB => true
  end.

(** A number that is neither NaN nor negative ([-0] counts as negative). *)
Definition nonNegative (x : number) : bool :=
  match x with
  | S754_zero false | S754_infinity false | S754_finite false _ _ => true
  | _ => false
  end.

(** The sum, in the order of the log, of the amounts in currency [c]. *)
Definition sumAmounts (c : jsstring) (log : list Finding) : number :=
  fold_left (fun acc f => if jsstring_eqb (currency f) c
                          then add acc (amount f) else acc) log Zero.

Definition hasCurrency (c : jsstring) (log : list Finding) : bool :=
  existsb (fun f => jsstring_eqb (currency f) c) log.

(** The Number that the decimal literal [m * 10^e] denotes. *)
Definition decimal (m : N) (e : Z) : number := ofDecimal false m e.

(** [x] is a zero, a finite number or an infinity of sign [sx]. *)
Definition hasSign (sx : bool) (x : number) : Prop :=
  match x with
  | S754_zero b | S754_infinity b | S754_finite b _ _ => b = sx
  | S754_nan => False
  end.

Definition noMinus (c : char16) : Prop := c <> cMinus.

(** The canonical currency codes. *)
Definition canonicalCodes : list jsstring :=
  List.map js ["TRY"; "USD"; "EUR"; "GBP"; "JPY"; "INR"; "KRW"; "VND"; "NGN";
               "PHP"; "BRL"; "AUD"; "CAD"; "HKD"; "TWD"].

Fixpoint groupFree (r : regex) : bool :=
  match r with
  | Grp _ _ => false
  | Seq a b | Alt a b => groupFree a && groupFree b
  | Star a => groupFree a
  | Eps | Chr _ | Bol | Eol | WordB => true
  end.

(** [x] and [t] are the same character under the [i] flag. *)
Definition sameFolded (x t : char16) : Prop := canonicalize x = canonicalize t.

(** A finding the payload can return: the guard of the loop body, and what
    the shape of the pattern gives (no sign, a currency of the table). *)
Definition wellFormed (f : Finding) : Prop :=
  nonEmpty (currency f) = true /\ isFinite (amount f) = true
  /\ nonNegative (amount f) = true /\ In (currency f) canonicalCodes.

(** The invariant of the run. *)
Definition totalsConsistent (st : RunState) : Prop :=
  forall c, mapGet c (liveTotals st) =
            if hasCurrency c (findings st)
            then Some (sumAmounts c (findings st)) else None.

Definition invariant (st : RunState) : Prop :=
  totalsConsistent st /\ Forall wellFormed (findings st)
  /\ NoDup (List.map fst (liveTotals st)).

(** What replacing every code unit of the class [p] by [repl] does to one
    code unit. *)
Definition replaceClass (p : char16 -> bool) (repl : jsstring) (c : char16)
  : jsstring :=
  if p c then repl else [c].

(** The string ends with [sep] and one or two digits. *)
Definition endsWithDecimals (sep : char16) (s : jsstring) : Prop :=
  exists pre d, s = pre ++ sep :: d
                /\ Forall (fun c => isDigit c = true) d
                /\ (List.length d = 1 \/ List.length d = 2).

(** What [resolveSeparators] does to one code unit. *)
Definition resolveChar (decimalSep : option char16) (c : char16) : jsstring :=
  match decimalSep with
  | Some sep =>
    if (c =? (if (sep =? cDot)%N then cComma else cDot))%N then []
    else if (c =? sep)%N then [cDot]
    else if isWhiteSpace c then [] else [c]
  | None => if isDotOrComma c || isWhiteSpace c then [] else [c]
  end.

(** [sep] and [other] are the dot and the comma, in one order or the other. *)
Definition separators (sep other : char16) : Prop :=
  (sep = cDot /\ other = cComma) \/ (sep = cComma /\ other = cDot).

Definition numeralChar (c : char16) : bool := isDigit c || isDotOrComma c.

Definition digits (a : jsstring) : Prop := Forall (fun c => isDigit c = true) a.
Definition numeral (a : jsstring) : Prop :=
  Forall (fun c => numeralChar c = true) a.

(** The table of the specification: token, canonical code. *)
Definition currencyTable : list (string * string) :=
  [("₺", "TRY"); ("TL", "TRY"); ("TRY", "TRY"); ("$", "USD"); ("USD", "USD");
   ("€", "EUR"); ("EUR", "EUR"); ("£", "GBP"); ("GBP", "GBP");
   ("¥", "JPY"); ("JPY", "JPY"); ("₹", "INR"); ("INR", "INR");
   ("₩", "KRW"); ("KRW", "KRW"); ("₫", "VND"); ("VND", "VND");
   ("₦", "NGN"); ("NGN", "NGN"); ("₱", "PHP"); ("PHP", "PHP");
   ("R$", "BRL"); ("BRL", "BRL"); ("A$", "AUD"); ("AUD", "AUD");
   ("C$", "CAD"); ("CAD", "CAD"); ("HK$", "HKD"); ("NT$", "TWD")].

Definition knownTokens : list jsstring :=
  List.map (fun p => js (fst p)) currencyTable.

(** A comment block that is its text and nothing else. *)
Definition textBlock (t : string) : Element :=
  {| innerText := js t; textContent := js t; badge := false;
     authorEl := None; contentEl := None |}.

(** All the matches of the recognition pattern in a block, as the [exec]
    loop meets them. *)
Fixpoint allMatches (text : jsstring) (fuel lastIndex : nat)
  : list (nat * nat * caps) :=
  match fuel with
  | 0 => []
  | S f =>
    match exec text CURRENCY_RE lastIndex with
    | None => []
    | Some (st, en, m) => (st, en, m) :: allMatches text f en
    end
  end.

Definition pushed (el : Element) (text : jsstring) (x : nat * nat * caps)
  : list Finding :=
  match findingOfMatch el text (snd x) with
  | Some f => [f]
  | None => []
  end.

(** Matches from left to right, none overlapping the one before. *)
Fixpoint leftToRight (from : nat) (l : list (nat * nat * caps)) : Prop :=
  match l with
  | [] => True
  | (st, en, _) :: r => from <= st /\ st < en /\ leftToRight en r
  end.

(** Whether the whole of [s] is a StrDecimalLiteral (a valid decimal). *)
Definition isStrDecimalLiteral (s : jsstring) : bool :=
  let t1 := match s with
            | c :: r => if ((c =? cMinus) || (c =? cPlus))%N then r else s
            | [] => s
            end in
  if jsstring_eqb t1 (js "Infinity") then true
  else
    let '(ip, t2) := span isDigit t1 in
    let '(fp, t3) :=
      match t2 with
      | c :: r => if (c =? cDot)%N then span isDigit r else ([], t2)
      | [] => ([], t2)
      end in
    nonEmpty (ip ++ fp) &&
    match t3 with
    | [] => true
    | c :: r =>
      ((c =? 101) || (c =? 69))%N &&
      (let r1 := match r with
                 | d :: r' => if ((d =? cMinus) || (d =? cPlus))%N then r' else r
                 | [] => r
                 end in
       nonEmpty r1 && forallb isDigit r1)
    end.



(** The state after one tick on [page], from the empty state. *)
Definition afterOneTick (page : list Element) : RunState :=
  match collectAndReport emptyState page with
  | Some (st, _) => st
  | None => emptyState
  end.

(** A currency code: upper-case ASCII letters. *)
Definition currencyCode (k : jsstring) : Prop := forallb isUpperAscii k = true.

Definition keyLt (a b : jsstring) : Prop := localeCompare a b = Lt.
Definition entryLe (x y : jsstring * number) : Prop :=
  localeCompare (fst x) (fst y) <> Gt.
Definition entryLt (x y : jsstring * number) : Prop :=
  keyLt (fst x) (fst y).

(** No group and no assertion: such a pattern matches a substring wherever
    it stands. *)
Fixpoint plain (r : regex) : bool :=
  match r with
  | Eps | Chr _ => true
  | Seq a b | Alt a b => plain a && plain b
  | Star a => plain a
  | Grp _ _ | Bol | Eol | WordB => false
  end.

(** The spellings of an upper-case ASCII word in every mix of cases. *)
Fixpoint caseVariants (w : jsstring) : list jsstring :=
  match w with
  | [] => [[]]
  | c :: r => flat_map (fun v => [c :: v; (c + 32)%N :: v]) (caseVariants r)
  end.

(** The markers the co-occurrence trigger looks for. *)
Definition hintMarkers : list jsstring :=
  List.map (fun c => [c]) (js "€$£¥₺")
  ++ flat_map caseVariants (List.map js ["TL"; "TRY"; "USD"; "EUR"; "GBP"; "JPY"]).

(** Whether [pre] ends with a word character. *)
Definition endsWithWordChar (pre : jsstring) : bool :=
  match rev pre with
  | c :: _ => isWordChar c
  | [] => false
  end.

(** The lower-cased text holds "teşekkür", or "thanks" at the start of a
    word. *)
Definition hasThanksWord (t : jsstring) : Prop :=
  (exists pre post, t = pre ++ js "teşekkür" ++ post)
  \/ (exists pre post, t = pre ++ js "thanks" ++ post
                       /\ endsWithWordChar pre = false).

(** The markers of the table of currencies that the co-occurrence trigger
    does not look for. *)
Definition otherMarkers : list jsstring :=
  List.map js ["₹"; "₩"; "₫"; "₦"; "₱"; "INR"; "KRW"; "VND"; "NGN"; "PHP";
               "BRL"; "AUD"; "CAD"].

(** [text] holds one of the markers of [hintMarkers]. *)
Definition holdsHintMarker (text : jsstring) : Prop :=
  exists pre w post, text = pre ++ w ++ post /\ In w hintMarkers.

(** *** The literal that [parseFloat] reads *)












(* ================================================================== *)
(** ** The command line *)

(** The value of a hexadecimal, octal or binary digit. *)
Definition digitOfBase (base : N) (c : char16) : option N :=
  let v := if isDigit c then Some (c - 48)%N
           else if inRange 97 102 c then Some (c - 87)%N
           else if inRange 65 70 c then Some (c - 55)%N
           else None in
  match v with
  | Some d => if (d <? base)%N then Some d else None
  | None => None
  end.

Fixpoint valueInBase (base : N) (ds : jsstring) (acc : N) : option N :=
  match ds with
  | [] => Some acc
  | c :: r =>
    match digitOfBase base c with
    | Some d => valueInBase base r (base * acc + d)%N
    | None => None
    end
  end.

(** NonDecimalIntegerLiteral: [0x], [0o] or [0b] and digits, no sign. *)
Definition nonDecimalLiteral (t : jsstring) : number :=
  match t with
  | z0 :: x :: d :: ds =>
    let base := if ((x =? 120) || (x =? 88))%N then Some 16%N
                else if ((x =? 111) || (x =? 79))%N then Some 8%N
                else if ((x =? 98) || (x =? 66))%N then Some 2%N
                else None in
    match (z0 =? 48)%N, base with
    | true, Some b =>
      match valueInBase b (d :: ds) 0 with
      | Some v => ofZ (Z.of_N v)
      | None => NaN
      end
    | _, _ => NaN
    end
  | _ => NaN
  end.

(** [Number(s)] on a string (StringToNumber): white space around the
    literal is skipped, the empty string is [0], and anything that is not a
    numeric literal as a whole is [NaN]. *)
Definition toNumber (s : jsstring) : number :=
  match trim s with
  | [] => Zero
  | t => if isStrDecimalLiteral t then parseFloat t else nonDecimalLiteral t
  end.

(** The object [parseArgs] returns; [url] is [None] for [null]. *)
Record Args := {
  url : option jsstring;
  seconds : number;
  min : number;
  out : jsstring;
  headful : bool
}.

Definition defaultArgs : Args :=
  {| url := None; seconds := ofZ 25; min := Zero;
     out := js "super-thanks"; headful := false |}.

Definition isNull (A : Type) (x : option A) : bool :=
  match x with None => true | Some _ => false end.

Definition withUrl (a : jsstring) (o : Args) : Args :=
  {| url := Some a; seconds := seconds o; min := min o; out := out o;
     headful := headful o |}.
Definition withSeconds (v : number) (o : Args) : Args :=
  {| url := url o; seconds := v; min := min o; out := out o;
     headful := headful o |}.
Definition withMin (v : number) (o : Args) : Args :=
  {| url := url o; seconds := seconds o; min := v; out := out o;
     headful := headful o |}.
Definition withOut (v : jsstring) (o : Args) : Args :=
  {| url := url o; seconds := seconds o; min := min o; out := v;
     headful := headful o |}.
Definition withHeadful (o : Args) : Args :=
  {| url := url o; seconds := seconds o; min := min o; out := out o;
     headful := true |}.

(** The loop of [parseArgs] from the argument at hand on.  [argv[++i]] is
    the argument after the flag, which the loop then skips; when there is
    none, [?? out.seconds] keeps the value ([Number] and [String] leave a
    number and a string as they are) and the loop ends. *)
Fixpoint parseLoop (argv : list jsstring) (o : Args) : Args :=
  match argv with
  | [] => o
  | a :: rest =>
    if negb (startsWith (js "--") a) && isNull (url o) then
      parseLoop rest (withUrl a o)
    else if jsstring_eqb a (js "--seconds") then
      match rest with
      | v :: rest' => parseLoop rest' (withSeconds (toNumber v) o)
      | [] => o
      end
    else if jsstring_eqb a (js "--min") then
      match rest with
      | v :: rest' => parseLoop rest' (withMin (toNumber v) o)
      | [] => o
      end
    else if jsstring_eqb a (js "--out") then
      match rest with
      | v :: rest' => parseLoop rest' (withOut v o)
      | [] => o
      end
    else if jsstring_eqb a (js "--headful") then parseLoop rest (withHeadful o)
    else parseLoop rest o
  end.

Definition parseArgs (argv : list jsstring) : Args :=
  parseLoop argv defaultArgs.

(** [if (!ARGS.url)]: the usage message and exit code 1. *)
Definition usageError (a : Args) : bool :=
  match url a with
  | None | Some [] => true
  | Some (_ :: _) => false
  end.

(* ================================================================== *)
(** ** The output file *)

(** [s.endsWith(suffix)] *)
Definition endsWith (suffix s : jsstring) : bool :=
  startsWith (rev suffix) (rev s).

Definition ensureExt (p ext : jsstring) : jsstring :=
  if endsWith ext (toLowerCase p) then p else p ++ ext.

(** What the six getters of a [Date] return. *)
Record LocalTime := {
  getFullYear : number;
  getMonth : number;
  getDate : number;
  getHours : number;
  getMinutes : number;
  getSeconds : number
}.

(** [s.padStart(n, fill)] *)
Definition padStart (n : nat) (fill s : jsstring) : jsstring :=
  let k := n - List.length s in
  match fill with
  | [] => s
  | _ => firstn k (concat (repeat fill k)) ++ s
  end.

(** [z] is [n => String(n).padStart(2,'0')]. *)
Definition timeStamp (d : LocalTime) : jsstring :=
  let z := fun n => padStart 2 (js "0") (numberToString n) in
  numberToString (getFullYear d) ++ z (add (getMonth d) (ofZ 1))
    ++ z (getDate d) ++ js "-" ++ z (getHours d) ++ z (getMinutes d)
    ++ z (getSeconds d).

(** The [jsonPath] of the main function: [ARGS.out || 'super-thanks'], the
    video id and the time stamp. *)
Definition jsonPath (a : Args) (videoId : jsstring) (d : LocalTime) : jsstring :=
  let outPrefix := jsOr (out a) (js "super-thanks") in
  ensureExt (outPrefix ++ js "-" ++ videoId ++ js "-" ++ timeStamp d
               ++ js ".json")
            (js ".json").

(* ================================================================== *)
(** ** The console *)

(** [parts.join(sep)] *)
Fixpoint join (sep : jsstring) (parts : list jsstring) : jsstring :=
  match parts with
  | [] => []
  | [x] => x
  | x :: r => x ++ sep ++ join sep r
  end.

(** The line that [printLiveTotals(prefix)] writes. *)
Definition printLiveTotals (prefix : jsstring) (liveTotals : TotalsMap)
  : jsstring :=
  let parts := List.map (fun e => fst e ++ js ": "
                                      ++ numberToString (round2 (snd e)))
                        (sortEntries liveTotals) in
  prefix ++ js ": " ++ jsOr (join (js " | ") parts) (js "—").

(* ================================================================== *)
(** ** The video URL *)

(** What [extractVideoId] reads of [new URL(raw)]: the host name, the path
    and the query parameters in their order. *)
Record URL := {
  hostname : jsstring;
  pathname : jsstring;
  searchParams : list (jsstring * jsstring)
}.

(** [s.split(sep)] for a separator of one code unit. *)
Fixpoint split (sep : char16) (s : jsstring) : list jsstring :=
  match s with
  | [] => [[]]
  | c :: r =>
    if (c =? sep)%N then [] :: split sep r
    else match split sep r with
         | h :: t => (c :: h) :: t
         | [] => [[c]]
         end
  end.

(** [searchParams.get(name)]: the first value, [None] for [null]. *)
Fixpoint searchParamsGet (name : jsstring) (ps : list (jsstring * jsstring))
  : option jsstring :=
  match ps with
  | [] => None
  | (k, v) :: r => if jsstring_eqb k name then Some v
                   else searchParamsGet name r
  end.

(** [/youtu\.be$/i] and [/youtube\.com$/i] *)
Definition youtuBeHost : regex :=
  Seq (litI (js "youtu")) (Seq (chr cDot) (Seq (litI (js "be")) Eol)).
Definition youtubeHost : regex :=
  Seq (litI (js "youtube")) (Seq (chr cDot) (Seq (litI (js "com")) Eol)).

(** [[^/?#]] *)
Definition notDelimiter (c : char16) : bool :=
  negb ((c =? 47) || (c =? 63) || (c =? 35))%N.

(** [/^\/live\/([^/?#]+)/] and [/^\/shorts\/([^/?#]+)/] *)
Definition livePath : regex :=
  Seq Bol (Seq (lit (js "/live/")) (Grp 1 (Plus (Chr notDelimiter)))).
Definition shortsPath : regex :=
  Seq Bol (Seq (lit (js "/shorts/")) (Grp 1 (Plus (Chr notDelimiter)))).

(** [extractVideoId(raw)], given [new URL(raw)]: [None] as the argument
    when the constructor throws (the [catch] is empty), [None] as the result
    for [null]. *)
Definition extractVideoId (parsed : option URL) : option jsstring :=
  match parsed with
  | None => None
  | Some u =>
    if test youtuBeHost (hostname u) then
      match filter nonEmpty (split 47%N (pathname u)) with
      | id :: _ => Some id
      | [] => None
      end
    else if test youtubeHost (hostname u) then
      if jsstring_eqb (pathname u) (js "/watch") then
        searchParamsGet (js "v") (searchParams u)
      else
        match exec (pathname u) livePath 0, exec (pathname u) shortsPath 0 with
        | Some (_, _, mLive), _ => Some (group (pathname u) 1 mLive)
        | None, Some (_, _, mShort) => Some (group (pathname u) 1 mShort)
        | None, None => None
        end
    else None
  end.

(** The characters that [encodeURIComponent] leaves as they are. *)
Definition unreserved (c : char16) : bool :=
  isDigit c || isUpperAscii c || isLowerAscii c
  || existsb (N.eqb c) (js "-_.!~*'()").

Definition hexDigit (v : N) : char16 :=
  if (v <? 10)%N then (48 + v)%N else (55 + v)%N.

(** [%XX] for one octet. *)
Definition percent (b : N) : jsstring :=
  [37%N; hexDigit (b / 16); hexDigit (b mod 16)].

(** The octets of the UTF-8 encoding of a code point. *)
Definition utf8 (cp : N) : list N :=
  if (cp <? 128)%N then [cp]
  else if (cp <? 2048)%N then [192 + cp / 64; 128 + cp mod 64]%N
  else if (cp <? 65536)%N then
    [224 + cp / 4096; 128 + (cp / 64) mod 64; 128 + cp mod 64]%N
  else [240 + cp / 262144; 128 + (cp / 4096) mod 64;
        128 + (cp / 64) mod 64; 128 + cp mod 64]%N.

Definition isHighSurrogate (c : char16) : bool := inRange 55296 56319 c.
Definition isLowSurrogate (c : char16) : bool := inRange 56320 57343 c.

(** The code point of a surrogate pair. *)
Definition codePointOfPair (hi lo : char16) : N :=
  (65536 + (hi - 55296) * 1024 + (lo - 56320))%N.

(** [encodeURIComponent(s)]; [None] is the URIError that a lone surrogate
    raises. *)
Fixpoint encodeURIComponent (s : jsstring) : option jsstring :=
  match s with
  | [] => Some []
  | c :: r =>
    if unreserved c then option_map (cons c) (encodeURIComponent r)
    else if isHighSurrogate c then
      match r with
      | d :: r' =>
        if isLowSurrogate d then
          option_map (app (flat_map percent (utf8 (codePointOfPair c d))))
                     (encodeURIComponent r')
        else None
      | [] => None
      end
    else if isLowSurrogate c then None
    else option_map (app (flat_map percent (utf8 c))) (encodeURIComponent r)
  end.

(** [canonicalWatchUrl(raw)], given [new URL(raw)]: the video id and the
    URL; [None] when it throws. *)
Definition canonicalWatchUrl (parsed : option URL)
  : option (jsstring * jsstring) :=
  match extractVideoId parsed with
  | None | Some [] => None
  | Some id =>
    match encodeURIComponent id with
    | Some e => Some (id, js "https://www.youtube.com/watch?v=" ++ e)
    | None => None
    end
  end.

(* ================================================================== *)
(** ** Scrolling the comments *)

(** What [autoScrollComments] does to the page, in order: the call of
    [ensureCommentsMounted], the three scrolls that open an iteration, the
    call of [onTick], and the jump to the bottom of the page with its wheel
    turn. *)
Inductive ScrollEvent : Type :=
| EnsureMounted
| Scroll
| Tick
| JumpToBottom.

(** The [while (Date.now() < deadline)] loop; [SFltb] and [SFleb] are [<]
    and [<=] on numbers, false when a side is [NaN].  The page answers nothing
    but the count of comment blocks; an entry of [trace] is the clock when
    the loop condition is tested and the count the iteration then reads.
    The loop runs as long as there are entries. *)
Fixpoint scrollLoop (deadline minBlocks : number) (trace : list (number * nat))
         (lastCount stagnantTicks : nat) : list ScrollEvent :=
  match trace with
  | [] => []
  | (now, count) :: rest =>
    if SFltb now deadline then
      Scroll :: Tick ::
        (if truthy minBlocks && SFleb minBlocks (ofZ (Z.of_nat count)) then []
         else if count <=? lastCount then
           let stagnantTicks := S stagnantTicks in
           (if stagnantTicks mod 4 =? 0 then [JumpToBottom] else [])
             ++ (if 12 <? stagnantTicks
                 then EnsureMounted
                        :: scrollLoop deadline minBlocks rest count 0
                 else scrollLoop deadline minBlocks rest count stagnantTicks)
         else scrollLoop deadline minBlocks rest count 0)
    else []
  end.

(** [autoScrollComments(page, seconds, minBlocks, onTick)]; [start] is the
    clock when the deadline is set. *)
Definition autoScrollComments (seconds minBlocks start : number)
           (trace : list (number * nat)) : list ScrollEvent :=
  let deadline := add start (mul seconds (ofZ 1000)) in
  EnsureMounted :: scrollLoop deadline minBlocks trace 0 0.

(* ================================================================== *)
(** ** Vocabulary of the further statements *)

(** The set of fingerprints and the log go together. *)
Definition lockstep (st : RunState) : Prop :=
  seen st = List.map hashFinding (findings st) /\ NoDup (seen st).

(** The length of the run of code units of the class [p] that [s] starts
    with. *)
Fixpoint runLength (p : char16 -> bool) (s : jsstring) : nat :=
  match s with
  | c :: r => if p c then S (runLength p r) else 0
  | [] => 0
  end.

(** Every run of code units of the class [p] replaced by [repl]; [inRun]
    says that the code unit before was of the class. *)
Fixpoint collapse (p : char16 -> bool) (repl : jsstring) (inRun : bool)
         (s : jsstring) : jsstring :=
  match s with
  | [] => []
  | c :: r =>
    if p c then (if inRun then [] else repl) ++ collapse p repl true r
    else c :: collapse p repl false r
  end.

(** No two code units of the class [p] side by side. *)
Fixpoint noAdjacent (p : char16 -> bool) (s : jsstring) : Prop :=
  match s with
  | a :: r =>
    match r with
    | b :: _ => p a && p b = false
    | [] => True
    end /\ noAdjacent p r
  | [] => True
  end.

(** A date and a time of day; [monthIndex] starts at 0 as [getMonth]
    does. *)
Record Calendar := {
  year : N;
  monthIndex : N;
  day : N;
  hour : N;
  minute : N;
  second : N
}.

Definition ofN (n : N) : number := ofZ (Z.of_N n).

(** The [Date] of a calendar entry. *)
Definition dateOf (c : Calendar) : LocalTime :=
  {| getFullYear := ofN (year c); getMonth := ofN (monthIndex c);
     getDate := ofN (day c); getHours := ofN (hour c);
     getMinutes := ofN (minute c); getSeconds := ofN (second c) |}.

(** A date with a year of four digits. *)
Definition fourDigitYear (c : Calendar) : Prop :=
  (1000 <= year c <= 9999 /\ monthIndex c <= 11 /\ 1 <= day c <= 31
   /\ hour c <= 23 /\ minute c <= 59 /\ second c <= 59)%N.

(** The two decimal digits of a number below 100. *)
Definition twoDigits (v : N) : jsstring := [48 + v / 10; 48 + v mod 10]%N.

Definition thenCompare (a b : comparison) : comparison :=
  match a with Eq => b | _ => a end.

(** Which of two calendar entries comes first. *)
Definition compareCalendar (a b : Calendar) : comparison :=
  thenCompare (year a ?= year b)%N
    (thenCompare (monthIndex a ?= monthIndex b)%N
       (thenCompare (day a ?= day b)%N
          (thenCompare (hour a ?= hour b)%N
             (thenCompare (minute a ?= minute b)%N
                          (second a ?= second b)%N)))).

(** The order of two strings by their code units. *)
Definition compareCodeUnits (a b : jsstring) : comparison := localeCompare a b.

Definition comparison_eqb (a b : comparison) : bool :=
  match a, b with
  | Eq, Eq | Lt, Lt | Gt, Gt => true
  | _, _ => false
  end.

(** The numbers from [lo] on, [n] of them. *)
Fixpoint countFrom (lo : N) (n : nat) : list N :=
  match n with
  | 0 => []
  | S k => lo :: countFrom (lo + 1)%N k
  end.

(** The flags of [parseArgs] that take the next argument as their value. *)
Definition takesValue (a : jsstring) : bool :=
  jsstring_eqb a (js "--seconds") || jsstring_eqb a (js "--min")
  || jsstring_eqb a (js "--out").

(** A run of flags, each with its value when it takes one: the arguments
    that [parseArgs] passes before it meets the URL. *)
Inductive flagsWithValues : list jsstring -> Prop :=
| flags_nil : flagsWithValues []
| flags_valued a v rest :
    takesValue a = true -> flagsWithValues rest ->
    flagsWithValues (a :: v :: rest)
| flags_other a rest :
    startsWith (js "--") a = true -> takesValue a = false ->
    flagsWithValues rest -> flagsWithValues (a :: rest).

(** What [encodeURIComponent] can produce: an unreserved character or the
    percent sign of an escape. *)
Definition urlSafe (c : char16) : bool := unreserved c || (c =? 37)%N.

(** A code unit of UTF-16. *)
Definition codeUnit (c : char16) : Prop := (c < 65536)%N.

(** The code units below U+0180 (Basic Latin, Latin-1 and Latin Extended-A),
    whose lower case [lowerChar] tabulates in full. *)
Definition inCaseTable (c : char16) : bool := (c <? 384)%N.

(** [rest] is empty or starts with a delimiter of the path pattern. *)
Definition endsSegment (rest : jsstring) : Prop :=
  match rest with
  | [] => True
  | c :: _ => notDelimiter c = false
  end.

Definition isTick (e : ScrollEvent) : bool :=
  match e with Tick => true | _ => false end.
Definition isJump (e : ScrollEvent) : bool :=
  match e with JumpToBottom => true | _ => false end.
Definition isMount (e : ScrollEvent) : bool :=
  match e with EnsureMounted => true | _ => false end.

Definition countEvents (p : ScrollEvent -> bool) (l : list ScrollEvent) : nat :=
  List.length (filter p l).

(** Every entry is read before the deadline, and no count is above the one
    before it ([lastCount] for the first). *)
Fixpoint stagnant (deadline : number) (lastCount : nat)
         (trace : list (number * nat)) : Prop :=
  match trace with
  | [] => True
  | (now, count) :: rest =>
    SFltb now deadline = true /\ count <= lastCount
    /\ stagnant deadline count rest
  end.

(** The jumps to the bottom that [m] stagnant ticks in a row cause. *)
Definition jumpsWithin (m : nat) : nat := 3 * (m / 13) + (m mod 13) / 4.

(* ================================================================== *)
(** ** Strings: basic facts *)

Lemma jsstring_eqb_eq a b : jsstring_eqb a b = true <-> a = b.
Proof.
  unfold jsstring_eqb. destruct (list_eq_dec N.eq_dec a b); split; congruence.
Qed.

Lemma jsstring_eqb_refl a : jsstring_eqb a a = true.
Proof. apply jsstring_eqb_eq. reflexivity. Qed.

Lemma jsstring_eqb_neq a b : a <> b -> jsstring_eqb a b = false.
Proof.
  intros H. destruct (jsstring_eqb a b) eqn:E; [|reflexivity].
  apply jsstring_eqb_eq in E. contradiction.
Qed.

Lemma skipn_cons_nth (s : jsstring) i ch :
  nth_error s i = Some ch -> skipn i s = ch :: skipn (S i) s.
Proof.
  revert i. induction s as [|d r IH]; intros [|i] H; simpl in *;
    try discriminate.
  - inversion H. reflexivity.
  - apply IH. assumption.
Qed.

(* ================================================================== *)
(** ** The matcher finds only what [Sem] allows *)

Section MatcherFacts.
Variable s : jsstring.

Lemma rmatch_sound r :
  forall i c k res,
    rmatch s r i c k = Some res ->
    exists j c', Sem s r i c j c' /\ k j c' = Some res.
Proof.
  induction r as [|p|a IHa b IHb|a IHa b IHb|a IHa|n a IHa| | |];
    simpl; intros i c k res H.
  - exists i, c. split; [constructor|assumption].
  - unfold charAt in H. destruct (nth_error s i) as [ch|] eqn:E; [|discriminate].
    destruct (p ch) eqn:P; [|discriminate].
    exists (S i), c. split; [econstructor; eassumption|assumption].
  - apply IHa in H. destruct H as (j & c' & Ha & H).
    apply IHb in H. destruct H as (j' & c'' & Hb & H).
    exists j', c''. split; [econstructor; eassumption|assumption].
  - destruct (rmatch s a i c k) eqn:E.
    + inversion H; subst. apply IHa in E. destruct E as (j & c' & Ha & E).
      exists j, c'. split; [apply SemAltL|]; assumption.
    + apply IHb in H. destruct H as (j & c' & Hb & H).
      exists j, c'. split; [apply SemAltR|]; assumption.
  - revert H. generalize (List.length s - i) as fuel. intros fuel.
    revert i c. induction fuel as [|f IHf]; intros i c H; simpl in H.
    + exists i, c. split; [constructor|assumption].
    + destruct (rmatch s a i c _) eqn:E.
      * inversion H; subst. apply IHa in E. destruct E as (j & c' & Ha & E).
        destruct (j <=? i) eqn:L; [discriminate|].
        apply Nat.leb_gt in L. apply IHf in E.
        destruct E as (j' & c'' & Hs & E).
        exists j', c''. split; [eapply SemStarStep; eassumption|assumption].
      * exists i, c. split; [constructor|assumption].
  - apply IHa in H. destruct H as (j & c' & Ha & H).
    exists j, ((n, (i, j)) :: c'). split; [constructor|]; assumption.
  - destruct (i =? 0) eqn:E; [|discriminate]. apply Nat.eqb_eq in E. subst.
    exists 0, c. split; [constructor|assumption].
  - destruct (i =? List.length s) eqn:E; [|discriminate].
    apply Nat.eqb_eq in E. subst.
    exists (List.length s), c. split; [constructor|assumption].
  - destruct (wordBoundary s i) eqn:E; [|discriminate].
    exists i, c. split; [constructor|]; assumption.
Qed.

Lemma Sem_le r i c j c' : Sem s r i c j c' -> i <= j.
Proof. induction 1; lia. Qed.

Lemma Sem_bound r i c j c' :
  Sem s r i c j c' -> i <= List.length s -> j <= List.length s.
Proof.
  induction 1; intros; try lia; auto.
  assert (i < List.length s) by (apply nth_error_Some; congruence). lia.
Qed.

Lemma Sem_bound_max r i c j c' :
  Sem s r i c j c' -> j <= Nat.max i (List.length s).
Proof.
  induction 1; try lia.
  assert (i < List.length s) by (apply nth_error_Some; congruence). lia.
Qed.

Lemma Sem_progress r i c j c' :
  Sem s r i c j c' -> nullable r = false -> i < j.
Proof.
  induction 1; simpl; intros N; try discriminate; try lia; auto.
  - apply andb_false_iff in N. apply Sem_le in H, H0. destruct N; auto.
    + specialize (IHSem1 H1). lia.
    + specialize (IHSem2 H1). lia.
  - apply orb_false_iff in N. tauto.
  - apply orb_false_iff in N. tauto.
Qed.

Lemma Sem_accepts r i c j c' :
  Sem s r i c j c' ->
  forall x, i <= x < j ->
            exists ch, nth_error s x = Some ch /\ accepts r ch = true.
Proof.
  induction 1; simpl; intros x Hx; try lia.
  - assert (x = i) by lia. subst. eauto.
  - apply Sem_le in H, H0. destruct (Nat.lt_ge_cases x j).
    + destruct (IHSem1 x) as (ch & ? & A); [lia|]. exists ch. rewrite A. auto.
    + destruct (IHSem2 x) as (ch & ? & A); [lia|]. exists ch. rewrite A.
      rewrite orb_true_r. auto.
  - destruct (IHSem x Hx) as (ch & ? & A). exists ch. rewrite A. auto.
  - destruct (IHSem x Hx) as (ch & ? & A). exists ch. rewrite A.
    rewrite orb_true_r. auto.
  - destruct (Nat.lt_ge_cases x j).
    + apply IHSem1. lia.
    + apply IHSem2. lia.
  - auto.
Qed.

(** Captures taken by a match lie inside it. *)
Lemma Sem_caps r i c j c' :
  Sem s r i c j c' ->
  forall n a b, In (n, (a, b)) c' ->
                In (n, (a, b)) c \/ (i <= a /\ a <= b /\ b <= j).
Proof.
  induction 1; intros g x y Hin; auto.
  - apply Sem_le in H, H0.
    destruct (IHSem2 _ _ _ Hin) as [Hc|?]; [|right; lia].
    destruct (IHSem1 _ _ _ Hc) as [?|?]; [auto|right; lia].
  - apply Sem_le in H, H1.
    destruct (IHSem2 _ _ _ Hin) as [Hc|?]; [|right; lia].
    destruct (IHSem1 _ _ _ Hc) as [?|?]; [auto|right; lia].
  - pose proof (Sem_le H). destruct Hin as [E|Hin].
    + inversion E; subst. right. lia.
    + destruct (IHSem _ _ _ Hin) as [?|?]; [auto|right; lia].
Qed.

Lemma matchAt_sound r i j m :
  matchAt s r i = Some (j, m) -> Sem s r i [] j m.
Proof.
  unfold matchAt. intros H. apply rmatch_sound in H.
  destruct H as (j' & c' & Hs & E). inversion E; subst. assumption.
Qed.

Lemma search_sound r fuel i st en m :
  search s r fuel i = Some (st, en, m) ->
  i <= st <= i + fuel /\ Sem s r st [] en m.
Proof.
  revert i. induction fuel as [|f IH]; simpl; intros i H.
  - destruct (matchAt s r i) as [[j c]|] eqn:E; [|discriminate].
    inversion H; subst. apply matchAt_sound in E. split; [lia|assumption].
  - destruct (matchAt s r i) as [[j c]|] eqn:E.
    + inversion H; subst. apply matchAt_sound in E. split; [lia|assumption].
    + apply IH in H. destruct H. split; [lia|assumption].
Qed.

Lemma exec_sound r i st en m :
  exec s r i = Some (st, en, m) ->
  i <= st /\ st <= en /\ en <= List.length s /\ Sem s r st [] en m.
Proof.
  unfold exec. destruct (i <=? List.length s) eqn:L; [|discriminate].
  apply Nat.leb_le in L. intros H. apply search_sound in H.
  destruct H as [B H]. pose proof (Sem_le H).
  pose proof (Sem_bound H). repeat split; try lia; auto.
Qed.

Lemma exec_progress r i st en m :
  nullable r = false ->
  exec s r i = Some (st, en, m) -> i < en /\ en <= List.length s.
Proof.
  intros N H. apply exec_sound in H. destruct H as (? & ? & ? & H).
  apply Sem_progress in H; [lia|assumption].
Qed.
(** Only what the continuation answers from the start index on matters. *)
Lemma rmatch_ext r :
  forall i c k k',
    (forall j c', i <= j -> k j c' = k' j c') ->
    rmatch s r i c k = rmatch s r i c k'.
Proof.
  induction r as [|p|a IHa b IHb|a IHa b IHb|a IHa|n a IHa| | |];
    simpl; intros i c k k' H.
  - apply H. lia.
  - destruct (charAt s i) as [ch|]; [|reflexivity].
    destruct (p ch); [apply H; lia|reflexivity].
  - apply IHa. intros j c' L. apply IHb. intros j' c'' L'. apply H. lia.
  - rewrite (IHa i c k k' H), (IHb i c k k' H). reflexivity.
  - generalize (List.length s - i) as fuel. intros fuel. revert i c H.
    induction fuel as [|f IHf]; intros i c H; simpl; [auto|].
    rewrite (IHa i c _ (fun j c' => if j <=? i then None
                                     else starLoop (rmatch s a) k' f j c')).
    + rewrite (H i c) by lia. reflexivity.
    + intros j c' L. destruct (j <=? i) eqn:E; [reflexivity|].
      apply IHf. intros. apply H. apply Nat.leb_gt in E. lia.
  - apply IHa. intros j c' L. apply H. assumption.
  - destruct (i =? 0); [apply H; lia|reflexivity].
  - destruct (i =? List.length s); [apply H; lia|reflexivity].
  - destruct (wordBoundary s i); [apply H; lia|reflexivity].
Qed.

(** The bound on the iterations of [Star] loses nothing: more fuel gives
    the same answer. *)
Lemma starLoop_fuel a k fuel :
  forall i c,
    List.length s - i <= fuel ->
    starLoop (rmatch s a) k (S fuel) i c = starLoop (rmatch s a) k fuel i c.
Proof.
  induction fuel as [|f IH]; intros i c L.
  - simpl. destruct (rmatch s a i c _) as [res|] eqn:E; [|reflexivity].
    apply rmatch_sound in E. destruct E as (j & c' & Hs & E).
    destruct (j <=? i) eqn:J; [discriminate|]. apply Nat.leb_gt in J.
    pose proof (Sem_bound_max Hs). lia.
  - cbn [starLoop].
    rewrite (@rmatch_ext a i c _
               (fun j c' => if j <=? i then None
                            else starLoop (rmatch s a) k f j c')).
    + reflexivity.
    + intros j c' Lj. destruct (j <=? i) eqn:J; [reflexivity|].
      apply Nat.leb_gt in J. apply IH. lia.
Qed.
End MatcherFacts.

Section Inversion.
Variable s : jsstring.

Lemma Sem_Eps_inv i c j c' : Sem s Eps i c j c' -> j = i /\ c' = c.
Proof. inversion 1; auto. Qed.

Lemma Sem_Chr_inv p i c j c' :
  Sem s (Chr p) i c j c' ->
  exists ch, nth_error s i = Some ch /\ p ch = true /\ j = S i /\ c' = c.
Proof. inversion 1; subst; eauto. Qed.

Lemma Sem_Seq_inv a b i c k c'' :
  Sem s (Seq a b) i c k c'' ->
  exists j c', Sem s a i c j c' /\ Sem s b j c' k c''.
Proof. inversion 1; subst; eauto. Qed.

Lemma Sem_Alt_inv a b i c j c' :
  Sem s (Alt a b) i c j c' -> Sem s a i c j c' \/ Sem s b i c j c'.
Proof. inversion 1; subst; auto. Qed.

Lemma Sem_Grp_inv n a i c j c' :
  Sem s (Grp n a) i c j c' ->
  exists c0, Sem s a i c j c0 /\ c' = (n, (i, j)) :: c0.
Proof. inversion 1; subst; eauto. Qed.

Lemma Sem_Bol_inv i c j c' : Sem s Bol i c j c' -> i = 0 /\ j = 0 /\ c' = c.
Proof. inversion 1; auto. Qed.

Lemma Sem_Eol_inv i c j c' :
  Sem s Eol i c j c' -> i = List.length s /\ j = i /\ c' = c.
Proof. inversion 1; auto. Qed.

Lemma Sem_WordB_inv i c j c' :
  Sem s WordB i c j c' -> wordBoundary s i = true /\ j = i /\ c' = c.
Proof. inversion 1; auto. Qed.

Lemma Sem_chr_inv ch i c j c' :
  Sem s (chr ch) i c j c' -> nth_error s i = Some ch /\ j = S i /\ c' = c.
Proof.
  intros H. apply Sem_Chr_inv in H. destruct H as (x & E & P & -> & ->).
  apply N.eqb_eq in P. subst. auto.
Qed.
End Inversion.


(* ================================================================== *)
(** ** Numbers: signs of results *)

Lemma shr_1_nonneg mrs : (0 <= shr_m mrs)%Z -> (0 <= shr_m (shr_1 mrs))%Z.
Proof. destruct mrs as [m r t]; destruct m as [|[p|p|]|p]; simpl; lia. Qed.

Lemma iter_shr_1_nonneg n :
  forall mrs, (0 <= shr_m mrs)%Z -> (0 <= shr_m (iter_pos shr_1 n mrs))%Z.
Proof.
  induction n; simpl; intros mrs H; auto using shr_1_nonneg.
Qed.

Lemma shr_fexp_nonneg m e l :
  (0 <= m)%Z -> (0 <= shr_m (fst (shr_fexp prec emax m e l)))%Z.
Proof.
  intros H. unfold shr_fexp, shr.
  assert (R : (0 <= shr_m (shr_record_of_loc m l))%Z)
    by (destruct l as [|[]]; exact H).
  destruct (fexp prec emax (Zdigits2 m + e) - e)%Z; simpl; auto.
  apply iter_shr_1_nonneg. assumption.
Qed.

Lemma round_nearest_even_nonneg m l :
  (0 <= m)%Z -> (0 <= round_nearest_even m l)%Z.
Proof.
  intros H. destruct l as [|[]]; simpl; try lia. destruct (Z.even m); lia.
Qed.

Lemma binary_round_aux_sign sx mx ex lx :
  (0 <= mx)%Z -> hasSign sx (binary_round_aux prec emax sx mx ex lx).
Proof.
  intros H. unfold binary_round_aux.
  pose proof (shr_fexp_nonneg ex lx H) as H1.
  destruct (shr_fexp prec emax mx ex lx) as [mrs' e'].
  simpl in H1.
  pose proof (round_nearest_even_nonneg (loc_of_shr_record mrs') H1) as H2.
  pose proof (shr_fexp_nonneg e' loc_Exact H2) as H3.
  destruct (shr_fexp prec emax _ e' loc_Exact) as [mrs'' e''].
  simpl in H3. destruct (shr_m mrs'') as [|m|m]; simpl; try lia; auto.
  destruct (_ <=? _)%Z; simpl; reflexivity.
Qed.

Lemma binary_round_sign sx mx ex :
  hasSign sx (binary_round prec emax sx mx ex).
Proof.
  unfold binary_round. destruct (shl_align _ _ _) as [mz ez].
  apply binary_round_aux_sign. lia.
Qed.

Lemma hasSign_nonNegative x : hasSign false x <-> nonNegative x = true.
Proof.
  destruct x as [[]|[]| |[] m e]; simpl; split; auto; try discriminate;
    try contradiction.
Qed.

Lemma ofZ_sign z : (0 < z)%Z -> hasSign false (ofZ z).
Proof.
  intros H. unfold ofZ, binary_normalize. destruct z; try lia.
  apply binary_round_sign.
Qed.

Lemma div_core_nonneg m1 e1 m2 e2 q e l :
  (0 <= m1)%Z -> (0 < m2)%Z ->
  SFdiv_core_binary prec emax m1 e1 m2 e2 = (q, e, l) -> (0 <= q)%Z.
Proof.
  intros H1 H2. unfold SFdiv_core_binary.
  set (sh := (e1 - e2 - _)%Z).
  set (m' := match sh with Z0 => m1 | Zpos _ => Z.shiftl m1 sh | Zneg _ => 0%Z end).
  assert (M : (0 <= m')%Z).
  { unfold m'. destruct sh; try lia. apply Z.shiftl_nonneg. assumption. }
  pose proof (Z.div_pos m' m2 M H2) as D. unfold Z.div in D.
  destruct (Z.div_eucl m' m2) as [q' r']. simpl in D.
  intros E. inversion E; subst. assumption.
Qed.

Lemma ofDecimal_sign neg m e : hasSign neg (ofDecimal neg m e).
Proof.
  unfold ofDecimal. destruct m as [|p]; [reflexivity|].
  destruct (0 <=? e)%Z eqn:E.
  - apply Z.leb_le in E.
    assert (P : (0 < Zpos p * 10 ^ e)%Z)
      by (apply Z.mul_pos_pos; [lia|apply Z.pow_pos_nonneg; lia]).
    unfold binary_normalize.
    destruct (Zpos p * 10 ^ e)%Z as [|q|q] eqn:Q; try lia.
    destruct neg; simpl; apply binary_round_sign.
  - apply Z.leb_gt in E.
    destruct (SFdiv_core_binary prec emax (Zpos p) 0 (10 ^ (- e)) 0)
      as [[q e'] l] eqn:D.
    apply binary_round_aux_sign.
    eapply div_core_nonneg; [| |exact D]; [lia|].
    apply Z.pow_pos_nonneg; lia.
Qed.

Lemma mul_sign sx x y :
  isFinite x = true -> hasSign sx x ->
  isFinite y = true -> hasSign false y -> truthy y = true ->
  hasSign sx (mul x y).
Proof.
  destruct x as [a|a| |a mx ex]; destruct y as [b|b| |b my ey];
    simpl; try discriminate; try contradiction; intros _ Hx _ Hy _;
    rewrite Hy, xorb_false_r, Hx.
  - reflexivity.
  - apply binary_round_aux_sign. lia.
Qed.

Lemma add_nonNegative x y :
  nonNegative x = true -> nonNegative y = true ->
  nonNegative (add x y) = true.
Proof.
  intros Hx Hy. apply hasSign_nonNegative.
  destruct x as [[]|[]| |[] mx ex]; destruct y as [[]|[]| |[] my ey];
    simpl in *; try discriminate; try reflexivity.
  apply binary_round_sign.
Qed.

Lemma add_Zero_l x : nonNegative x = true -> add Zero x = x.
Proof.
  destruct x as [[]|[]| |[] m e]; intros H; try discriminate H; reflexivity.
Qed.

Lemma orZero_nonNegative x : nonNegative x = true -> orZero x = x.
Proof.
  destruct x as [[]|[]| |[] m e]; intros H; try discriminate H; reflexivity.
Qed.


(** The doubles that the decimals of the statements denote, as mantissa and
    binary exponent: 2199.99, 1234.56, 5.99, 1.234, 0.1 and 3000. *)
Lemma decimal_doubles :
  decimal 219999 (-2) = S754_finite false 4837829171981844 (-41)
  /\ decimal 123456 (-2) = S754_finite false 5429652300748554 (-42)
  /\ decimal 599 (-2) = S754_finite false 6744140441987318 (-50)
  /\ decimal 1234 (-3) = S754_finite false 5557441940175192 (-52)
  /\ decimal 1 (-1) = S754_finite false 7205759403792794 (-56)
  /\ decimal 3000 0 = S754_finite false 6597069766656000 (-41).
Proof. repeat split; vm_compute; reflexivity. Qed.

(* ================================================================== *)
(** ** String operations keep a property of the code units *)

Lemma Forall_skipn (A : Type) (P : A -> Prop) n :
  forall s : list A, Forall P s -> Forall P (skipn n s).
Proof.
  induction n; intros s H; simpl; [assumption|].
  destruct s; [constructor|]. inversion H; auto.
Qed.

Lemma Forall_firstn (A : Type) (P : A -> Prop) n :
  forall s : list A, Forall P s -> Forall P (firstn n s).
Proof.
  induction n; intros s H; simpl; [constructor|].
  destruct s; [constructor|]. inversion H; auto.
Qed.

Section Preservation.
Variable P : char16 -> Prop.

Lemma Forall_slice a b s : Forall P s -> Forall P (slice a b s).
Proof. intros. unfold slice. auto using Forall_firstn, Forall_skipn. Qed.

Lemma trimStart_Forall s : Forall P s -> Forall P (trimStart s).
Proof.
  induction s as [|c r IH]; simpl; intros H; [constructor|].
  destruct (isWhiteSpace c); [inversion H; auto|assumption].
Qed.

Lemma trim_Forall s : Forall P s -> Forall P (trim s).
Proof.
  intros H. unfold trim, trimEnd.
  apply Forall_rev, trimStart_Forall, Forall_rev, trimStart_Forall, H.
Qed.

Lemma replace_Forall r repl s :
  Forall P repl -> Forall P s -> Forall P (replace r repl s).
Proof.
  intros Hr Hs. unfold replace.
  destruct (exec s r 0) as [[[st en] m]|]; [|assumption].
  repeat (apply Forall_app; split);
    auto using Forall_firstn, Forall_skipn.
Qed.

Lemma replaceAll_from_Forall r repl s fuel :
  Forall P repl -> Forall P s ->
  forall i, Forall P (replaceAll_from r repl s fuel i).
Proof.
  intros Hr Hs. induction fuel as [|f IH]; simpl; intros i.
  - apply Forall_skipn. assumption.
  - destruct (exec s r i) as [[[st en] m]|]; [|apply Forall_skipn; assumption].
    repeat (apply Forall_app; split); auto using Forall_slice.
    destruct (en =? st); [apply Forall_app; split|];
      auto using Forall_slice.
Qed.

Lemma replaceAll_Forall r repl s :
  Forall P repl -> Forall P s -> Forall P (replaceAll r repl s).
Proof. intros. unfold replaceAll. apply replaceAll_from_Forall; assumption. Qed.
End Preservation.

Ltac nbool :=
  repeat match goal with
         | H : (_ && _) = true |- _ => apply andb_true_iff in H; destruct H
         | H : (_ && _) = false |- _ => apply andb_false_iff in H; destruct H
         | H : (_ <=? _)%N = true |- _ => apply N.leb_le in H
         | H : (_ <=? _)%N = false |- _ => apply N.leb_gt in H
         | H : (_ <? _)%N = true |- _ => apply N.ltb_lt in H
         | H : (_ <? _)%N = false |- _ => apply N.ltb_ge in H
         | H : (_ =? _)%N = true |- _ => apply N.eqb_eq in H
         | H : (_ =? _)%N = false |- _ => apply N.eqb_neq in H
         end.

Lemma lowerChar_noMinus c : noMinus c -> Forall noMinus (lowerChar c).
Proof.
  unfold noMinus, cMinus, lowerChar, isUpperAscii, inRange. intros H.
  repeat match goal with
         | |- context [if ?b then _ else _] => destruct b eqn:?
         end;
    nbool; repeat constructor; try lia.
Qed.

Lemma toLowerCase_noMinus s : Forall noMinus s -> Forall noMinus (toLowerCase s).
Proof.
  unfold toLowerCase. induction 1; simpl; [constructor|].
  apply Forall_app. split; [apply lowerChar_noMinus|]; assumption.
Qed.

Lemma cleaned_noMinus str :
  Forall noMinus str -> Forall noMinus (fst (cleaned str)).
Proof.
  intros H. unfold cleaned.
  set (s0 := replaceAll _ _ _).
  assert (H0 : Forall noMinus s0).
  { apply replaceAll_Forall; [repeat constructor; discriminate|].
    apply trim_Forall, toLowerCase_noMinus, H. }
  assert (H1 : Forall noMinus (fst (stripBin s0))).
  { unfold stripBin. destruct (test binHead s0); simpl; [|assumption].
    apply trim_Forall, replace_Forall; [constructor|assumption]. }
  destruct (stripBin s0) as [s1 bin]. simpl in *.
  unfold resolveSeparators.
  destruct (inferDecimalSep s1) as [sep|].
  - apply replaceAll_Forall; [constructor|].
    destruct (sep =? cComma)%N.
    + apply replaceAll_Forall; [repeat constructor; discriminate|].
      apply replaceAll_Forall; [constructor|assumption].
    + apply replaceAll_Forall; [constructor|assumption].
  - apply replaceAll_Forall; [constructor|assumption].
Qed.

Lemma parseFloat_sign s :
  Forall noMinus s -> parseFloat s = NaN \/ hasSign false (parseFloat s).
Proof.
  intros H. apply (trimStart_Forall (P := noMinus)) in H.
  unfold parseFloat.
  assert (E : (let '(neg, t1) :=
                  match trimStart s with
                  | [] => (false, trimStart s)
                  | c :: r =>
                    if (c =? cMinus)%N then (true, r)
                    else if (c =? cPlus)%N then (false, r)
                         else (false, trimStart s)
                  end in neg) = false).
  { destruct (trimStart s) as [|c r]; [reflexivity|].
    inversion H; subst. unfold noMinus in *.
    destruct (c =? cMinus)%N eqn:E; [apply N.eqb_eq in E; contradiction|].
    destruct (c =? cPlus)%N; reflexivity. }
  destruct (match trimStart s with [] => _ | _ => _ end) as [neg t1].
  subst neg.
  destruct (startsWith (js "Infinity") t1); [right; reflexivity|].
  destruct (span isDigit t1) as [ip t2].
  destruct (match t2 with [] => _ | _ => _ end) as [fp t3].
  destruct (ip ++ fp); [left; reflexivity|].
  right. apply ofDecimal_sign.
Qed.

Lemma normNumber_sign str :
  Forall noMinus str -> isFinite (normNumber str) = true ->
  nonNegative (normNumber str) = true.
Proof.
  intros H. unfold normNumber. destruct str as [|c r]; [discriminate|].
  pose proof (cleaned_noMinus H) as Hc.
  destruct (cleaned (c :: r)) as [s bin]. simpl in Hc.
  destruct (parseFloat_sign Hc) as [E|S].
  - rewrite E. discriminate.
  - destruct (isFinite (parseFloat s)) eqn:F; [|discriminate].
    intros _. apply hasSign_nonNegative.
    apply mul_sign; auto; destruct bin; vm_compute; auto.
Qed.


(* ================================================================== *)
(** ** The currency of a match *)

Section CurrencyOfMatch.
Variable s : jsstring.

Lemma Sem_groupFree r i c j c' :
  Sem s r i c j c' -> groupFree r = true -> c' = c.
Proof.
  induction 1; simpl; intros G; try discriminate; try reflexivity;
    try (apply andb_true_iff in G; destruct G as [Ga Gb]).
  - rewrite IHSem2, IHSem1; auto.
  - auto.
  - auto.
  - rewrite IHSem2, IHSem1; auto.
Qed.

Lemma slice_cons i j x :
  nth_error s i = Some x -> i < j -> slice i j s = x :: slice (S i) j s.
Proof.
  intros E L. unfold slice.
  rewrite (@skipn_cons_nth s i x E).
  replace (j - i) with (S (j - S i)) by lia. reflexivity.
Qed.

Lemma Sem_litI_inv w :
  forall i c j c',
    Sem s (litI w) i c j c' ->
    c' = c /\ j = i + List.length w /\ Forall2 sameFolded (slice i j s) w.
Proof.
  induction w as [|t r IH]; intros i c j c' H.
  - apply Sem_Eps_inv in H. destruct H as (-> & ->).
    rewrite Nat.add_0_r. unfold slice. rewrite Nat.sub_diag.
    repeat split. constructor.
  - destruct r as [|t' r'].
    + apply Sem_Chr_inv in H. destruct H as (x & E & P & -> & ->).
      apply N.eqb_eq in P. simpl. rewrite Nat.add_1_r.
      rewrite (@slice_cons _ _ _ E) by lia. unfold slice at 1.
      rewrite Nat.sub_diag. repeat split. repeat constructor. exact P.
    + change (litI (t :: t' :: r')) with (Seq (chrI t) (litI (t' :: r'))) in H.
      apply Sem_Seq_inv in H. destruct H as (j0 & c0 & H0 & H).
      apply Sem_Chr_inv in H0. destruct H0 as (x & E & P & -> & ->).
      apply N.eqb_eq in P. apply IH in H. destruct H as (-> & -> & F).
      repeat split; [cbn [List.length]; lia|].
      rewrite (@slice_cons _ _ _ E) by (cbn [List.length]; lia).
      constructor; assumption.
Qed.

Lemma Sem_alts_inv rs :
  forall i c j c',
    Sem s (alts rs) i c j c' -> exists r, In r rs /\ Sem s r i c j c'.
Proof.
  induction rs as [|r rest IH]; intros i c j c' H.
  - apply Sem_Chr_inv in H. destruct H as (x & _ & P & _). discriminate.
  - destruct rest as [|r' rest'].
    + exists r. split; [left; reflexivity|assumption].
    + change (alts (r :: r' :: rest')) with (Alt r (alts (r' :: rest'))) in H.
      apply Sem_Alt_inv in H. destruct H as [H|H].
      * exists r. split; [left; reflexivity|assumption].
      * apply IH in H. destruct H as (r0 & I & H). exists r0.
        split; [right; assumption|assumption].
Qed.

Lemma Sem_currency i c j c' :
  Sem s currencyAlternation i c j c' ->
  c' = c /\ exists tok, In tok CURRENCY_SYMBOLS
                        /\ Forall2 sameFolded (slice i j s) tok.
Proof.
  intros H. unfold currencyAlternation in H. apply Sem_alts_inv in H.
  destruct H as (r & I & H). apply in_map_iff in I.
  destruct I as (tok & <- & I). apply Sem_litI_inv in H.
  destruct H as (-> & _ & F). eauto.
Qed.
End CurrencyOfMatch.

Lemma upperChar_folded x t :
  sameFolded x t -> upperChar t = [t] -> canonicalize t = t ->
  upperChar x = [t].
Proof.
  unfold sameFolded. intros H U C. rewrite C in H. unfold canonicalize in H.
  destruct (upperChar x) as [|u [|v r]] eqn:E; try (subst x; congruence).
  destruct ((128 <=? x) && (u <? 128))%N; subst; congruence.
Qed.

Lemma toUpperCase_folded xs tok :
  Forall2 sameFolded xs tok ->
  Forall (fun t => upperChar t = [t] /\ canonicalize t = t) tok ->
  toUpperCase xs = tok.
Proof.
  unfold toUpperCase. induction 1 as [|x t xs' tok' H _ IH]; intros F;
    [reflexivity|].
  inversion F as [|? ? [U C] F']; subst. simpl.
  rewrite (upperChar_folded H U C), IH by assumption. reflexivity.
Qed.

Lemma currency_tokens_upper :
  Forall (Forall (fun t => upperChar t = [t] /\ canonicalize t = t))
         CURRENCY_SYMBOLS.
Proof. repeat constructor. Qed.

Lemma currency_tokens_canonical tok :
  In tok CURRENCY_SYMBOLS ->
  In (normalizeCurrency (replaceAll spaces [] tok)) canonicalCodes.
Proof.
  intros I.
  assert (A : forallb
                (fun tok =>
                   existsb (jsstring_eqb
                              (normalizeCurrency (replaceAll spaces [] tok)))
                           canonicalCodes) CURRENCY_SYMBOLS = true)
    by (vm_compute; reflexivity).
  rewrite forallb_forall in A. specialize (A tok I).
  apply existsb_exists in A. destruct A as (code & Ic & E).
  apply jsstring_eqb_eq in E. rewrite E. assumption.
Qed.

(** The captures of a match of [CURRENCY_RE]: the currency is group 1 in
    the first alternative and group 4 in the second. *)
Lemma CURRENCY_RE_currency text st en m :
  Sem text CURRENCY_RE st [] en m ->
  exists tok, In tok CURRENCY_SYMBOLS
              /\ Forall2 sameFolded (jsOr (group text 1 m) (group text 4 m)) tok.
Proof.
  intros H. unfold CURRENCY_RE in H. apply Sem_Alt_inv in H.
  destruct H as [H|H].
  - apply Sem_Seq_inv in H. destruct H as (j1 & c1 & H1 & H).
    apply Sem_Grp_inv in H1. destruct H1 as (c0 & H1 & ->).
    apply Sem_currency in H1. destruct H1 as (-> & tok & I & F).
    apply Sem_Seq_inv in H. destruct H as (j2 & c2 & H2 & H).
    apply Sem_groupFree in H2; [|reflexivity]. subst c2.
    apply Sem_Grp_inv in H. destruct H as (c3 & H & ->).
    apply Sem_groupFree in H; [|reflexivity]. subst c3.
    exists tok. split; [assumption|].
    unfold group at 1. cbn [capture Nat.eqb].
    destruct (slice st j1 text) eqn:E; [|exact F].
    inversion F; subst.
    assert (A : forallb nonEmpty CURRENCY_SYMBOLS = true) by reflexivity.
    rewrite forallb_forall in A. specialize (A _ I). discriminate.
  - apply Sem_Seq_inv in H. destruct H as (j1 & c1 & H1 & H).
    apply Sem_Grp_inv in H1. destruct H1 as (c0 & H1 & ->).
    apply Sem_groupFree in H1; [|reflexivity]. subst c0.
    apply Sem_Seq_inv in H. destruct H as (j2 & c2 & H2 & H).
    apply Sem_groupFree in H2; [|reflexivity]. subst c2.
    apply Sem_Grp_inv in H. destruct H as (c3 & H & ->).
    apply Sem_Grp_inv in H. destruct H as (c4 & H & ->).
    apply Sem_currency in H. destruct H as (-> & tok & I & F).
    exists tok. split; [assumption|]. exact F.
Qed.

Lemma findingOfMatch_currency el text i st en m f :
  exec text CURRENCY_RE i = Some (st, en, m) ->
  findingOfMatch el text m = Some f -> In (currency f) canonicalCodes.
Proof.
  intros He. apply exec_sound in He. destruct He as (_ & _ & _ & He).
  apply CURRENCY_RE_currency in He. destruct He as (tok & I & F).
  unfold findingOfMatch.
  rewrite (toUpperCase_folded F)
    by (eapply Forall_forall in I; [exact I|apply currency_tokens_upper]).
  destruct (_ && _); [|discriminate].
  destruct (getAuthorAndSnippet el) as [a sn]. intros E. inversion E; subst.
  simpl. apply currency_tokens_canonical. assumption.
Qed.


(* ================================================================== *)
(** ** What [extractFindingsInPage] returns *)

Lemma slice_Forall_nth (Q : char16 -> Prop) a b (s : jsstring) :
  (forall x, a <= x < b -> exists ch, nth_error s x = Some ch /\ Q ch) ->
  Forall Q (slice a b s).
Proof.
  intros H. apply Forall_forall. intros ch Hin.
  apply In_nth_error in Hin. destruct Hin as [n Hn].
  unfold slice in Hn. rewrite nth_error_firstn in Hn.
  destruct (Nat.ltb n (b - a)) eqn:L; [|discriminate].
  apply Nat.ltb_lt in L. rewrite nth_error_skipn in Hn.
  destruct (H (a + n)) as (ch' & E & Q'); [lia|]. congruence.
Qed.

Lemma capture_In n m a b : capture n m = Some (a, b) -> In (n, (a, b)) m.
Proof.
  induction m as [|[g se] r IH]; simpl; [discriminate|].
  destruct (Nat.eqb g n) eqn:E; intros H.
  - apply Nat.eqb_eq in E. inversion H; subst. auto.
  - auto.
Qed.

(** A captured group is made of characters the pattern accepts. *)
Lemma group_accepts text r i st en m n :
  exec text r i = Some (st, en, m) ->
  Forall (fun ch => accepts r ch = true) (group text n m).
Proof.
  intros H. apply exec_sound in H. destruct H as (_ & _ & _ & H).
  unfold group. destruct (capture n m) as [[a b]|] eqn:C; [|constructor].
  apply capture_In in C.
  destruct (Sem_caps H _ _ _ C) as [[]|(? & ? & ?)].
  apply slice_Forall_nth. intros x Hx. apply (Sem_accepts H). lia.
Qed.

Lemma findingOfMatch_wellFormed el text i st en m f :
  exec text CURRENCY_RE i = Some (st, en, m) ->
  findingOfMatch el text m = Some f -> wellFormed f.
Proof.
  intros He Hf. pose proof (@findingOfMatch_currency el text i st en m f He Hf) as Hc.
  revert Hf Hc. unfold findingOfMatch.
  set (cur := normalizeCurrency _). set (numStr := trim _).
  destruct (nonEmpty cur && isFinite (normNumber numStr)) eqn:G; [|discriminate].
  apply andb_true_iff in G. destruct G as [G1 G2].
  destruct (getAuthorAndSnippet el) as [a sn]. intros E. inversion E; subst.
  intros Hc. unfold wellFormed. cbn [currency amount] in *.
  split; [assumption|]. split; [assumption|]. split; [|assumption].
  apply normNumber_sign; [|assumption].
  apply trim_Forall.
  assert (A : forall n, Forall noMinus (group text n m)).
  { intros n. eapply Forall_impl; [|eapply group_accepts; exact He].
    intros ch Ha E'. subst ch. vm_compute in Ha. discriminate. }
  unfold jsOr. destruct (group text 2 m) eqn:E2; [apply A|].
  rewrite <- E2. apply A.
Qed.

Lemma scanBlock_spec el text fuel :
  forall i results,
    List.length text - i < fuel ->
    Forall wellFormed results ->
    exists results', scanBlock el text fuel i results = Some results'
                     /\ Forall wellFormed results'.
Proof.
  induction fuel as [|f IH]; intros i results Hf Hr; [lia|].
  simpl. destruct (exec text CURRENCY_RE i) as [[[st en] m]|] eqn:E.
  - pose proof (@exec_progress text CURRENCY_RE _ _ _ _ eq_refl E) as [P1 P2].
    apply IH; [lia|].
    destruct (findingOfMatch el text m) as [x|] eqn:Fm; [|assumption].
    apply Forall_app. split; [assumption|].
    constructor; [|constructor].
    eapply findingOfMatch_wellFormed; eassumption.
  - eauto.
Qed.

Lemma extractLoop_spec page :
  forall results,
    Forall wellFormed results ->
    exists results', extractLoop page results = Some results'
                     /\ Forall wellFormed results'.
Proof.
  induction page as [|el rest IH]; intros results Hr; [simpl; eauto|].
  cbn [extractLoop].
  destruct (negb (nonEmpty (blockText el))); [auto|].
  destruct (negb (isSuperThanksBlock el (blockText el))); [auto|].
  destruct (@scanBlock_spec el (blockText el) (S (List.length (blockText el)))
                            0 results) as (rs & E & W); [lia|assumption|].
  rewrite E. auto.
Qed.

(** The payload always returns, and what it returns is well formed. *)
Lemma extractFindingsInPage_spec page :
  exists fs, extractFindingsInPage page = Some fs /\ Forall wellFormed fs.
Proof. apply extractLoop_spec. constructor. Qed.


(* ================================================================== *)
(** ** The totals map and the log *)

Lemma mapGet_mapSet_same k v m : mapGet k (mapSet k v m) = Some v.
Proof.
  induction m as [|[k' v'] r IH]; simpl.
  - rewrite jsstring_eqb_refl. reflexivity.
  - destruct (jsstring_eqb k' k) eqn:E; simpl; rewrite E; auto.
Qed.

Lemma mapGet_mapSet_other k k' v m :
  k <> k' -> mapGet k' (mapSet k v m) = mapGet k' m.
Proof.
  intros N. induction m as [|[k0 v0] r IH]; simpl.
  - rewrite jsstring_eqb_neq; auto.
  - destruct (jsstring_eqb k0 k) eqn:E; simpl.
    + apply jsstring_eqb_eq in E. subst k0.
      rewrite jsstring_eqb_neq; auto.
    + destruct (jsstring_eqb k0 k'); auto.
Qed.

Lemma sumAmounts_snoc c log f :
  sumAmounts c (log ++ [f]) =
  if jsstring_eqb (currency f) c then add (sumAmounts c log) (amount f)
  else sumAmounts c log.
Proof. unfold sumAmounts. rewrite fold_left_app. reflexivity. Qed.

Lemma hasCurrency_snoc c log f :
  hasCurrency c (log ++ [f]) =
  hasCurrency c log || jsstring_eqb (currency f) c.
Proof.
  unfold hasCurrency. rewrite existsb_app. simpl.
  rewrite orb_false_r. reflexivity.
Qed.

Lemma sumAmounts_none c log :
  hasCurrency c log = false -> sumAmounts c log = Zero.
Proof.
  induction log as [|f r IH] using rev_ind; [reflexivity|].
  rewrite hasCurrency_snoc, sumAmounts_snoc. intros H.
  apply orb_false_iff in H. destruct H as [H1 H2]. rewrite H2. auto.
Qed.

Lemma sumAmounts_nonNegative c log :
  Forall wellFormed log -> nonNegative (sumAmounts c log) = true.
Proof.
  induction log as [|f r IH] using rev_ind; intros H; [reflexivity|].
  apply Forall_app in H. destruct H as [Hr Hf]. inversion Hf; subst.
  rewrite sumAmounts_snoc. destruct (jsstring_eqb (currency f) c); auto.
  apply add_nonNegative; [auto|]. apply H1.
Qed.

Lemma invariant_empty : invariant emptyState.
Proof. split; [intros c; reflexivity|split; constructor]. Qed.

Lemma mapSet_keys k v m x :
  In x (List.map fst (mapSet k v m)) -> x = k \/ In x (List.map fst m).
Proof.
  induction m as [|[k' v'] r IH]; simpl; [intros [H|[]]; auto|].
  destruct (jsstring_eqb k' k); simpl; tauto.
Qed.

Lemma mapSet_NoDup k v m :
  NoDup (List.map fst m) -> NoDup (List.map fst (mapSet k v m)).
Proof.
  induction m as [|[k' v'] r IH]; simpl; intros N.
  - constructor; [intros []|constructor].
  - inversion N as [|? ? Nx Nr]; subst.
    destruct (jsstring_eqb k' k) eqn:E; simpl; constructor; auto.
    intros I. apply mapSet_keys in I. destruct I as [->|I]; [|tauto].
    rewrite jsstring_eqb_refl in E. discriminate.
Qed.

Lemma collectOne_invariant st f :
  invariant st -> wellFormed f -> invariant (fst (collectOne st f)).
Proof.
  intros (T & W & D) Hf. unfold collectOne.
  destruct (setHas (hashFinding f) (seen st)); simpl;
    [repeat split; assumption|].
  split; [|split; [apply Forall_app; split;
                   [assumption|constructor; [exact Hf|constructor]]
                  |apply mapSet_NoDup; assumption]].
  intros c. simpl. rewrite hasCurrency_snoc, sumAmounts_snoc.
  destruct Hf as (_ & _ & Hn & _). rewrite (orZero_nonNegative _ Hn).
  destruct (jsstring_eqb (currency f) c) eqn:E.
  - apply jsstring_eqb_eq in E. subst c. rewrite orb_true_r.
    rewrite mapGet_mapSet_same. rewrite (T (currency f)).
    destruct (hasCurrency (currency f) (findings st)) eqn:Hc.
    + rewrite orZero_nonNegative by (apply sumAmounts_nonNegative; assumption).
      reflexivity.
    + rewrite (sumAmounts_none _ _ Hc). reflexivity.
  - rewrite orb_false_r. rewrite mapGet_mapSet_other.
    + apply T.
    + intros E'. rewrite E', jsstring_eqb_refl in E. discriminate.
Qed.

Lemma collectLoop_invariant fs :
  forall st acc, invariant st -> Forall wellFormed fs ->
                 invariant (fst (collectLoop fs st acc)).
Proof.
  induction fs as [|f r IH]; simpl; intros st acc I W; [assumption|].
  inversion W; subst.
  pose proof (collectOne_invariant I H1) as I'.
  destruct (collectOne st f) as [st' [x|]]; simpl in I'; auto.
Qed.

Lemma collectAll_invariant pages :
  forall st, invariant st ->
             exists st', collectAll st pages = Some st' /\ invariant st'.
Proof.
  induction pages as [|page rest IH]; simpl; intros st I; [eauto|].
  unfold collectAndReport.
  destruct (extractFindingsInPage_spec page) as (fs & E & W). rewrite E.
  pose proof (@collectLoop_invariant fs st [] I W) as I'.
  destruct (collectLoop fs st []) as [st' new]. simpl in I'. auto.
Qed.

(** The loop over the findings of a page, cut in two. *)
Lemma collectLoop_app fs1 fs2 :
  forall st acc,
    collectLoop (fs1 ++ fs2) st acc
    = collectLoop fs2 (fst (collectLoop fs1 st acc))
                  (snd (collectLoop fs1 st acc)).
Proof.
  induction fs1 as [|f r IH]; simpl; intros st acc; [reflexivity|].
  destruct (collectOne st f) as [st' [x|]]; apply IH.
Qed.

(** C1 (totals consistency).  For every sequence of [collectAndReport] calls
    from the empty state, and at every point of it (after each call, and
    after each finding taken from the next page), the total stored for a
    currency [c] is the sum of the amounts of the findings retained so far
    whose currency is [c], and [c] is a key of the map exactly when there is
    such a finding.  The sum is the binary64 sum in the order of the log. *)
Theorem totals_consistency (pages : list (list Element)) (page : list Element)
        (k : nat) :
  exists st fs,
    collectAll emptyState pages = Some st
    /\ extractFindingsInPage page = Some fs
    /\ (forall c,
           mapGet c (liveTotals st)
           = if hasCurrency c (findings st)
             then Some (sumAmounts c (findings st)) else None)
    /\ (let mid := collectLoop (firstn k fs) st [] in
        collectLoop fs st [] = collectLoop (skipn k fs) (fst mid) (snd mid)
        /\ forall c,
            mapGet c (liveTotals (fst mid))
            = if hasCurrency c (findings (fst mid))
              then Some (sumAmounts c (findings (fst mid))) else None).
Proof.
  destruct (collectAll_invariant pages invariant_empty) as (st & E & I).
  destruct (extractFindingsInPage_spec page) as (fs & Ef & W).
  exists st, fs.
  split; [assumption|]. split; [assumption|]. split; [apply I|].
  split.
  - rewrite <- collectLoop_app, firstn_skipn. reflexivity.
  - apply collectLoop_invariant; [assumption|].
    apply Forall_firstn. assumption.
Qed.

(* ================================================================== *)
(** ** De-duplication *)

Lemma setHas_app h l1 l2 : setHas h (l1 ++ l2) = setHas h l1 || setHas h l2.
Proof. apply existsb_app. Qed.

Lemma setHas_single h : setHas h [h] = true.
Proof. simpl. rewrite jsstring_eqb_refl. reflexivity. Qed.

Lemma collectOne_seen st f :
  setHas (hashFinding f) (seen (fst (collectOne st f))) = true.
Proof.
  unfold collectOne.
  destruct (setHas _ (seen st)) eqn:E; cbn [fst seen]; [assumption|].
  rewrite setHas_app, setHas_single. apply orb_true_r.
Qed.

Lemma collectOne_seen_mono st f h :
  setHas h (seen st) = true -> setHas h (seen (fst (collectOne st f))) = true.
Proof.
  intros H. unfold collectOne.
  destruct (setHas (hashFinding f) (seen st)); cbn [fst seen]; auto.
  rewrite setHas_app, H. reflexivity.
Qed.

Lemma collectLoop_seen_mono fs :
  forall st acc h,
    setHas h (seen st) = true ->
    setHas h (seen (fst (collectLoop fs st acc))) = true.
Proof.
  induction fs as [|f r IH]; simpl; intros st acc h H; [assumption|].
  pose proof (collectOne_seen_mono st f h H) as H'.
  destruct (collectOne st f) as [st' [x|]]; simpl in H'; auto.
Qed.

Lemma collectLoop_seen_all fs :
  forall st acc f,
    In f fs -> setHas (hashFinding f) (seen (fst (collectLoop fs st acc))) = true.
Proof.
  induction fs as [|g r IH]; simpl; intros st acc f Hin; [contradiction|].
  destruct Hin as [E|Hin].
  - subst g. pose proof (collectOne_seen st f) as H.
    destruct (collectOne st f) as [st' [x|]]; simpl in H;
      apply collectLoop_seen_mono; assumption.
  - destruct (collectOne st g) as [st' [x|]]; auto.
Qed.

Lemma collectLoop_noop fs :
  forall st acc,
    (forall f, In f fs -> setHas (hashFinding f) (seen st) = true) ->
    collectLoop fs st acc = (st, acc).
Proof.
  induction fs as [|f r IH]; simpl; intros st acc H; [reflexivity|].
  unfold collectOne. rewrite (H f) by auto. apply IH. auto.
Qed.

Lemma collectLoop_streamed fs :
  forall st acc, exists more,
      snd (collectLoop fs st acc) = acc ++ more
      /\ findings (fst (collectLoop fs st acc)) = findings st ++ more
      /\ (forall f, In f more ->
                    In f fs /\ setHas (hashFinding f) (seen st) = false)
      /\ ((exists f, In f fs /\ setHas (hashFinding f) (seen st) = false) ->
          more <> []).
Proof.
  induction fs as [|g r IH]; simpl; intros st acc.
  - exists []. rewrite !app_nil_r. split; [reflexivity|].
    split; [reflexivity|]. split.
    + intros f [].
    + intros (f & [] & _).
  - unfold collectOne. destruct (setHas (hashFinding g) (seen st)) eqn:E.
    + destruct (IH st acc) as (more & E1 & E0 & E2 & E3). exists more.
      split; [assumption|]. split; [assumption|]. split.
      * intros f H. apply E2 in H. tauto.
      * intros (f & [G|G] & S); [subst; congruence|]. apply E3. eauto.
    + set (st' := {| findings := _ |}).
      destruct (IH st' (acc ++ [g])) as (more & E1 & E0 & E2 & E3).
      exists (g :: more). rewrite E1, E0. unfold st' at 1.
      cbn [findings]. rewrite <- !app_assoc.
      split; [reflexivity|]. split; [reflexivity|]. split.
      * intros f [H|H]; [subst; auto|]. apply E2 in H.
        destruct H as [H1 H]. unfold st' in H. cbn [seen] in H.
        rewrite setHas_app in H. apply orb_false_iff in H. tauto.
      * discriminate.
Qed.


(* ================================================================== *)
(** ** The matcher finds what there is to find *)

Section SearchFacts.
Variable s : jsstring.

(** Without [Star], a match that [Sem] allows is never missed. *)
Lemma rmatch_complete r :
  starFree r = true ->
  forall i c j c' k,
    Sem s r i c j c' -> k j c' <> None -> rmatch s r i c k <> None.
Proof.
  induction r as [|p|a IHa b IHb|a IHa b IHb|a IHa|n a IHa| | |];
    simpl; intros SF i c j c' k H K; try discriminate SF;
    inversion H; subst; clear H; auto;
    try (apply andb_true_iff in SF; destruct SF as [Sa Sb]).
  - unfold charAt.
    repeat match goal with
           | E : nth_error _ _ = Some _ |- _ => rewrite E; clear E
           | E : p _ = true |- _ => rewrite E; clear E
           end.
    assumption.
  - eapply IHa; eauto.
  - match goal with
    | Hs : Sem s a _ _ _ _ |- _ => specialize (IHa Sa _ _ _ _ k Hs K)
    end.
    destruct (rmatch s a i c k); congruence.
  - destruct (rmatch s a i c k); [discriminate|]. eapply IHb; eauto.
  - eapply IHa; eauto.
  - rewrite Nat.eqb_refl. assumption.
  - match goal with E : wordBoundary _ _ = true |- _ => rewrite E end.
    assumption.
Qed.

Lemma search_first r fuel :
  forall i st en m,
    search s r fuel i = Some (st, en, m) ->
    matchAt s r st = Some (en, m) /\ i <= st <= i + fuel
    /\ forall x, i <= x < st -> matchAt s r x = None.
Proof.
  induction fuel as [|f IH]; simpl; intros i st en m H;
    destruct (matchAt s r i) as [[j c]|] eqn:E; try discriminate.
  - inversion H; subst. repeat split; auto; lia.
  - inversion H; subst. repeat split; auto; lia.
  - apply IH in H. destruct H as (M & B & N). repeat split; auto; try lia.
    intros x Hx. destruct (Nat.eq_dec x i); [subst; assumption|].
    apply N. lia.
Qed.

Lemma search_none r fuel :
  forall i, search s r fuel i = None ->
            forall x, i <= x <= i + fuel -> matchAt s r x = None.
Proof.
  induction fuel as [|f IH]; simpl; intros i H x Hx;
    destruct (matchAt s r i) as [[j c]|] eqn:E; try discriminate.
  - assert (x = i) by lia. subst. assumption.
  - destruct (Nat.eq_dec x i); [subst; assumption|].
    apply (IH _ H). lia.
Qed.

Lemma test_complete r i j c' :
  starFree r = true -> Sem s r i [] j c' -> i <= List.length s ->
  test r s = true.
Proof.
  intros SF H L. unfold test, exec. simpl.
  destruct (search s r (List.length s - 0) 0) as [x|] eqn:E; [reflexivity|].
  exfalso. pose proof (@search_none _ _ _ E i) as N.
  assert (M : matchAt s r i <> None).
  { unfold matchAt. eapply rmatch_complete; eauto. discriminate. }
  apply M, N. lia.
Qed.

Lemma test_sound r :
  test r s = true -> exists i j c', Sem s r i [] j c'.
Proof.
  unfold test. destruct (exec s r 0) as [[[st en] m]|] eqn:E; [|discriminate].
  intros _. apply exec_sound in E. destruct E as (_ & _ & _ & E). eauto.
Qed.

(** Matchers that agree at every index give the same replacement. *)
Lemma search_ext r r' :
  (forall i, matchAt s r i = matchAt s r' i) ->
  forall fuel i, search s r fuel i = search s r' fuel i.
Proof.
  intros H. induction fuel as [|f IH]; simpl; intros i; rewrite H;
    destruct (matchAt s r' i) as [[j c]|]; auto.
Qed.

Lemma replaceAll_ext r r' repl :
  (forall i, matchAt s r i = matchAt s r' i) ->
  replaceAll r repl s = replaceAll r' repl s.
Proof.
  intros H. unfold replaceAll. generalize 0 as i.
  induction (S (List.length s)) as [|f IH]; simpl; intros i; [reflexivity|].
  unfold exec. rewrite (@search_ext _ _ H).
  destruct (i <=? List.length s); [|reflexivity].
  destruct (search s r' (List.length s - i) i) as [[[st en] m]|]; [|reflexivity].
  rewrite !IH. reflexivity.
Qed.

Lemma replaceAll_from_S r repl f i :
  replaceAll_from r repl s (S f) i
  = match exec s r i with
    | None => skipn i s
    | Some (st, en, _) =>
      slice i st s ++ repl ++
      (if en =? st
       then slice st (S st) s ++ replaceAll_from r repl s f (S st)
       else replaceAll_from r repl s f en)
    end.
Proof. reflexivity. Qed.

(** The fuel of [replaceAll] is enough: more of it changes nothing. *)
Lemma replaceAll_from_fuel r repl fuel :
  forall i, List.length s < i + fuel ->
            replaceAll_from r repl s (S fuel) i
            = replaceAll_from r repl s fuel i.
Proof.
  induction fuel as [|f IH]; intros i L.
  - simpl. unfold exec.
    replace (i <=? List.length s) with false
      by (symmetry; apply Nat.leb_gt; lia).
    reflexivity.
  - rewrite (replaceAll_from_S r repl (S f)), (replaceAll_from_S r repl f).
    destruct (exec s r i) as [[[st en] m]|] eqn:E; [|reflexivity].
    apply exec_sound in E. destruct E as (L1 & L2 & _).
    destruct (en =? st) eqn:N.
    + rewrite (IH (S st)) by lia. reflexivity.
    + apply Nat.eqb_neq in N. rewrite (IH en) by lia. reflexivity.
Qed.

(** Replacing every code unit of a class. *)
Section ClassReplace.
Variable p : char16 -> bool.
Variable repl : jsstring.

Lemma matchAt_class i :
  matchAt s (Chr p) i =
  match nth_error s i with
  | Some ch => if p ch then Some (S i, []) else None
  | None => None
  end.
Proof. reflexivity. Qed.

Lemma flat_map_slice_id i st :
  (forall x, i <= x < st -> matchAt s (Chr p) x = None) ->
  flat_map (replaceClass p repl) (slice i st s) = slice i st s.
Proof.
  intros H. unfold slice.
  remember (st - i) as n eqn:En. revert i st En H.
  induction n as [|n IH]; intros i st En H; [reflexivity|].
  destruct (nth_error s i) as [ch|] eqn:E.
  - rewrite (@skipn_cons_nth _ _ _ E). cbn [flat_map firstn].
    pose proof (H i) as Hi. rewrite matchAt_class, E in Hi.
    unfold replaceClass at 1.
    destruct (p ch); [discriminate Hi; lia|]. cbn [app].
    rewrite (IH (S i) st); [reflexivity|lia|]. intros. apply H. lia.
  - apply nth_error_None in E. rewrite skipn_all2 by assumption.
    rewrite firstn_nil. reflexivity.
Qed.

Lemma skipn_slice i st :
  i <= st -> skipn i s = slice i st s ++ skipn st s.
Proof.
  intros L. unfold slice.
  rewrite <- (firstn_skipn (st - i) (skipn i s)) at 1.
  rewrite skipn_skipn. replace (st - i + i) with st by lia. reflexivity.
Qed.

Lemma replaceAll_from_class fuel :
  forall i, List.length s - i < fuel -> i <= List.length s ->
            replaceAll_from (Chr p) repl s fuel i
            = flat_map (replaceClass p repl) (skipn i s).
Proof.
  induction fuel as [|f IH]; intros i Hf Hi; [lia|]. simpl.
  unfold exec. rewrite (proj2 (Nat.leb_le _ _) Hi).
  destruct (search s (Chr p) (List.length s - i) i) as [[[st en] m]|] eqn:E.
  - apply search_first in E. destruct E as (M & B & N).
    rewrite matchAt_class in M.
    destruct (nth_error s st) as [ch|] eqn:C; [|discriminate].
    destruct (p ch) eqn:Pc; [|discriminate]. inversion M; subst.
    assert (st < List.length s) by (apply nth_error_Some; congruence).
    replace (S st =? st) with false by (symmetry; apply Nat.eqb_neq; lia).
    rewrite IH by lia.
    rewrite (@skipn_slice i st) by lia.
    rewrite flat_map_app, (@flat_map_slice_id _ _ N).
    rewrite (@skipn_cons_nth _ _ _ C). cbn [flat_map].
    unfold replaceClass at 2. rewrite Pc. reflexivity.
  - pose proof (@search_none _ _ _ E) as N.
    rewrite (@skipn_slice i (List.length s)) by lia.
    rewrite skipn_all, app_nil_r. symmetry.
    apply flat_map_slice_id. intros. apply N. lia.
Qed.

Lemma replaceAll_class :
  replaceAll (Chr p) repl s = flat_map (replaceClass p repl) s.
Proof.
  unfold replaceAll. rewrite replaceAll_from_class by lia. reflexivity.
Qed.
End ClassReplace.
End SearchFacts.


(* ================================================================== *)
(** ** Separator inference *)

Lemma lastIndexOf_from_app c a b :
  forall i acc,
    lastIndexOf_from c (a ++ b) i acc
    = lastIndexOf_from c b (i + List.length a) (lastIndexOf_from c a i acc).
Proof.
  induction a as [|d r IH]; simpl; intros i acc.
  - rewrite Nat.add_0_r. reflexivity.
  - rewrite IH. f_equal. lia.
Qed.

Lemma lastIndexOf_from_absent c s :
  ~ In c s -> forall i acc, lastIndexOf_from c s i acc = acc.
Proof.
  induction s as [|d r IH]; simpl; intros H i acc; [reflexivity|].
  destruct (d =? c)%N eqn:E.
  - apply N.eqb_eq in E. tauto.
  - apply IH. tauto.
Qed.

Lemma lastIndexOf_from_bound c s :
  forall i acc k,
    lastIndexOf_from c s i acc = Some k ->
    acc = Some k \/ (i <= k < i + List.length s).
Proof.
  induction s as [|d r IH]; simpl; intros i acc k H; [auto|].
  apply IH in H. destruct H as [H|H]; [|right; lia].
  destruct (d =? c)%N; [inversion H; right; lia|auto].
Qed.

Lemma lastIndexOf_from_present c s :
  In c s -> forall i acc, exists k, lastIndexOf_from c s i acc = Some k.
Proof.
  induction s as [|d r IH]; simpl; intros H i acc; [contradiction|].
  destruct (in_dec N.eq_dec c r) as [I|I].
  - apply IH. assumption.
  - rewrite lastIndexOf_from_absent by assumption.
    destruct H as [H|H]; [|contradiction].
    subst d. rewrite N.eqb_refl. eauto.
Qed.

(** The last occurrence of [c] in [pre ++ c :: post] when [post] has none. *)
Lemma lastIndexOf_last c pre post :
  ~ In c post -> lastIndexOf c (pre ++ c :: post) = Some (List.length pre).
Proof.
  intros H. unfold lastIndexOf. rewrite lastIndexOf_from_app. simpl.
  rewrite N.eqb_refl. apply lastIndexOf_from_absent. assumption.
Qed.

Lemma lastIndexOf_before c d pre post :
  c <> d -> ~ In c post -> In c pre ->
  exists k, lastIndexOf c (pre ++ d :: post) = Some k /\ k < List.length pre.
Proof.
  intros N A P. unfold lastIndexOf. rewrite lastIndexOf_from_app. simpl.
  replace (d =? c)%N with false by (symmetry; apply N.eqb_neq; congruence).
  rewrite lastIndexOf_from_absent by assumption.
  destruct (@lastIndexOf_from_present c pre P 0 None) as [k E]. exists k.
  split; [assumption|].
  apply lastIndexOf_from_bound in E. destruct E as [E|E]; [discriminate|lia].
Qed.

Lemma lastIndexOf_absent c s : ~ In c s -> lastIndexOf c s = None.
Proof. intros H. apply lastIndexOf_from_absent. assumption. Qed.

Lemma skipn_all_nth (s : jsstring) i : i = List.length s -> skipn i s = [].
Proof. intros ->. apply skipn_all. Qed.

Lemma decimalTail_sound sep s :
  test (decimalTail sep) s = true -> endsWithDecimals sep s.
Proof.
  intros H. apply test_sound in H. destruct H as (i & j & c' & H).
  unfold decimalTail in H.
  apply Sem_Seq_inv in H. destruct H as (j0 & c0 & H0 & H).
  apply Sem_chr_inv in H0. destruct H0 as (E0 & -> & ->).
  apply Sem_Seq_inv in H. destruct H as (j1 & c1 & H1 & H).
  apply Sem_Chr_inv in H1. destruct H1 as (d1 & E1 & D1 & -> & ->).
  apply Sem_Seq_inv in H. destruct H as (j2 & c2 & H2 & H).
  apply Sem_Eol_inv in H. destruct H as (L & _ & _).
  exists (firstn i s), (skipn (S i) s).
  rewrite <- (@skipn_cons_nth _ _ _ E0). rewrite firstn_skipn.
  split; [reflexivity|].
  rewrite (@skipn_cons_nth _ _ _ E1).
  apply Sem_Alt_inv in H2. destruct H2 as [H2|H2].
  - apply Sem_Chr_inv in H2. destruct H2 as (d2 & E2 & D2 & -> & ->).
    rewrite (@skipn_cons_nth _ _ _ E2), skipn_all_nth by auto.
    split; [repeat constructor; assumption|auto].
  - apply Sem_Eps_inv in H2. destruct H2 as (-> & ->).
    rewrite skipn_all_nth by auto.
    split; [repeat constructor; assumption|auto].
Qed.

Lemma decimalTail_complete sep s :
  endsWithDecimals sep s -> test (decimalTail sep) s = true.
Proof.
  intros (pre & d & -> & D & L).
  set (n := List.length pre).
  assert (N0 : nth_error (pre ++ sep :: d) n = Some sep)
    by (unfold n; rewrite nth_error_app2, Nat.sub_diag by lia; reflexivity).
  assert (N1 : nth_error (pre ++ sep :: d) (S n) = nth_error d 0).
  { unfold n. rewrite nth_error_app2 by lia.
    replace (S (List.length pre) - List.length pre) with 1 by lia.
    reflexivity. }
  assert (N2 : nth_error (pre ++ sep :: d) (S (S n)) = nth_error d 1).
  { unfold n. rewrite nth_error_app2 by lia.
    replace (S (S (List.length pre)) - List.length pre) with 2 by lia.
    reflexivity. }
  assert (Len : List.length (pre ++ sep :: d) = S n + List.length d)
    by (unfold n; rewrite length_app; simpl; lia).
  apply test_complete with (i := n) (j := List.length (pre ++ sep :: d))
                           (c' := []); [reflexivity| |lia].
  unfold decimalTail.
  apply SemSeq with (j := S n) (c' := []);
    [apply SemChr with (ch := sep); [exact N0|apply N.eqb_refl]|].
  destruct d as [|d1 [|d2 [|d3 r]]]; simpl in L; try lia;
    inversion D as [|? ? D1 D']; subst.
  - apply SemSeq with (j := S (S n)) (c' := []);
      [apply SemChr with (ch := d1); [exact N1|exact D1]|].
    apply SemSeq with (j := S (S n)) (c' := []);
      [apply SemAltR; constructor|].
    replace (S (S n)) with (List.length (pre ++ [sep; d1]))
      by (rewrite Len; simpl; lia).
    replace (List.length (pre ++ [sep; d1]) + 0)
      with (List.length (pre ++ [sep; d1])) by lia.
    constructor.
  - inversion D' as [|? ? D2 D'']; subst.
    apply SemSeq with (j := S (S n)) (c' := []);
      [apply SemChr with (ch := d1); [exact N1|exact D1]|].
    apply SemSeq with (j := S (S (S n))) (c' := []);
      [apply SemAltL; apply SemChr with (ch := d2); [exact N2|exact D2]|].
    replace (S (S (S n))) with (List.length (pre ++ [sep; d1; d2]))
      by (rewrite Len; simpl; lia).
    constructor.
Qed.


Lemma flat_map_comp (A B C : Type) (f : B -> list C) (g : A -> list B) l :
  flat_map f (flat_map g l) = flat_map (fun x => flat_map f (g x)) l.
Proof.
  induction l as [|x r IH]; simpl; [reflexivity|].
  rewrite flat_map_app, IH. reflexivity.
Qed.

Lemma resolveSeparators_chars decimalSep s :
  (decimalSep = None \/ decimalSep = Some cDot \/ decimalSep = Some cComma) ->
  resolveSeparators decimalSep s = flat_map (resolveChar decimalSep) s.
Proof.
  intros [->|[->| ->]]; unfold resolveSeparators.
  - apply replaceAll_class.
  - replace (cDot =? cDot)%N with true by reflexivity.
    replace (cDot =? cComma)%N with false by reflexivity.
    unfold chr, space. rewrite !replaceAll_class, flat_map_comp.
    apply flat_map_ext. intros c. unfold replaceClass, resolveChar.
    replace (cDot =? cDot)%N with true by reflexivity.
    rewrite (N.eqb_sym cComma c).
    destruct (c =? cComma)%N; [reflexivity|]. cbn [flat_map app].
    destruct (N.eqb_spec c cDot) as [->|]; [reflexivity|].
    destruct (isWhiteSpace c); reflexivity.
  - replace (cComma =? cDot)%N with false by reflexivity.
    replace (cComma =? cComma)%N with true by reflexivity.
    unfold chr, space. rewrite !replaceAll_class, !flat_map_comp.
    apply flat_map_ext. intros c. unfold replaceClass, resolveChar.
    replace (cComma =? cDot)%N with false by reflexivity.
    rewrite (N.eqb_sym cDot c).
    destruct (c =? cDot)%N; [reflexivity|]. cbn [flat_map app].
    rewrite (N.eqb_sym cComma c).
    destruct (N.eqb_spec c cComma) as [->|]; [reflexivity|].
    cbn [flat_map app]. rewrite app_nil_r.
    destruct (isWhiteSpace c); reflexivity.
Qed.

Lemma inferDecimalSep_both sep other pre post :
  separators sep other -> In other pre ->
  ~ In cDot post -> ~ In cComma post ->
  inferDecimalSep (pre ++ sep :: post) = Some sep.
Proof.
  intros S I Nd Nc. unfold inferDecimalSep.
  destruct S as [[-> ->]|[-> ->]].
  - rewrite lastIndexOf_last by assumption.
    destruct (@lastIndexOf_before cComma cDot pre post) as (k & -> & L);
      auto; [discriminate|].
    replace (k <? List.length pre) with true
      by (symmetry; apply Nat.ltb_lt; assumption).
    reflexivity.
  - rewrite (lastIndexOf_last cComma) by assumption.
    destruct (@lastIndexOf_before cDot cComma pre post) as (k & -> & L);
      auto; [discriminate|].
    replace (List.length pre <? k) with false
      by (symmetry; apply Nat.ltb_ge; lia).
    reflexivity.
Qed.

Lemma inferDecimalSep_one sep other s :
  separators sep other -> In sep s -> ~ In other s ->
  (endsWithDecimals sep s -> inferDecimalSep s = Some sep)
  /\ (~ endsWithDecimals sep s -> inferDecimalSep s = None).
Proof.
  intros S I N. unfold inferDecimalSep.
  destruct (@lastIndexOf_from_present sep s I 0 None) as [k E].
  fold (lastIndexOf sep s) in E.
  destruct S as [[-> ->]|[-> ->]]; rewrite E, (lastIndexOf_absent _ _ N);
    split; intros H.
  - rewrite decimalTail_complete by assumption. reflexivity.
  - destruct (test (decimalTail cDot) s) eqn:T; [|reflexivity].
    apply decimalTail_sound in T. contradiction.
  - rewrite decimalTail_complete by assumption. reflexivity.
  - destruct (test (decimalTail cComma) s) eqn:T; [|reflexivity].
    apply decimalTail_sound in T. contradiction.
Qed.


(* ================================================================== *)
(** ** Numerals made of digits, dots and commas *)

Lemma numeralChar_cases c :
  numeralChar c = true -> (48 <= c <= 57)%N \/ c = cDot \/ c = cComma.
Proof.
  unfold numeralChar, isDigit, isDotOrComma, inRange. intros H.
  apply orb_true_iff in H. destruct H as [H|H].
  - nbool. left. lia.
  - apply orb_true_iff in H. destruct H as [H|H]; nbool; auto.
Qed.

Lemma numeralChar_facts c :
  numeralChar c = true ->
  lowerChar c = [c] /\ isWhiteSpace c = false
  /\ (cNBSP =? c)%N = false /\ (cNNBSP =? c)%N = false /\ c <> 98%N.
Proof.
  intros H. apply numeralChar_cases in H.
  assert (E : (c <? 65)%N = true) by (apply N.ltb_lt; unfold cDot, cComma in *; lia).
  assert (G : (32 <? c)%N = true) by (apply N.ltb_lt; unfold cDot, cComma in *; lia).
  apply N.ltb_lt in E, G.
  repeat split.
  - unfold lowerChar, isUpperAscii, inRange.
    replace (65 <=? c)%N with false by (symmetry; apply N.leb_gt; lia).
    replace (c <? 192)%N with true by (symmetry; apply N.ltb_lt; lia).
    reflexivity.
  - unfold isWhiteSpace, inRange.
    repeat match goal with
           | |- context [(?a <=? c)%N] =>
             first [ replace (a <=? c)%N with true
                       by (symmetry; apply N.leb_le; lia)
                   | replace (a <=? c)%N with false
                       by (symmetry; apply N.leb_gt; lia) ]
           | |- context [(c <=? ?a)%N] =>
             first [ replace (c <=? a)%N with true
                       by (symmetry; apply N.leb_le; lia)
                   | replace (c <=? a)%N with false
                       by (symmetry; apply N.leb_gt; lia) ]
           | |- context [(c =? ?a)%N] =>
             replace (c =? a)%N with false by (symmetry; apply N.eqb_neq; lia)
           end.
    reflexivity.
  - apply N.eqb_neq. unfold cNBSP. lia.
  - apply N.eqb_neq. unfold cNNBSP. lia.
  - lia.
Qed.

Lemma digit_numeralChar c : isDigit c = true -> numeralChar c = true.
Proof. intros H. unfold numeralChar. rewrite H. reflexivity. Qed.

Lemma digit_not_separator c :
  isDigit c = true -> c <> cDot /\ c <> cComma.
Proof.
  unfold isDigit, inRange, cDot, cComma. intros H. nbool. lia.
Qed.

Lemma digits_numeral a : digits a -> numeral a.
Proof. apply Forall_impl. exact digit_numeralChar. Qed.

Lemma digits_no_separator a : digits a -> ~ In cDot a /\ ~ In cComma a.
Proof.
  intros H. split; intros I; eapply Forall_forall in H; eauto;
    apply digit_not_separator in H; tauto.
Qed.

Lemma flat_map_singleton (f : char16 -> jsstring) s :
  Forall (fun c => f c = [c]) s -> flat_map f s = s.
Proof.
  induction 1 as [|c r H _ IH]; simpl; [reflexivity|].
  rewrite H, IH. reflexivity.
Qed.

Lemma trimStart_id s :
  Forall (fun c => isWhiteSpace c = false) s -> trimStart s = s.
Proof. intros H. destruct H as [|c r H _]; simpl; [|rewrite H]; reflexivity. Qed.

Lemma trim_id s : Forall (fun c => isWhiteSpace c = false) s -> trim s = s.
Proof.
  intros H. unfold trim, trimEnd. rewrite (trimStart_id H).
  rewrite trimStart_id by (apply Forall_rev; assumption).
  apply rev_involutive.
Qed.

Lemma matchAt_two_chars s a b i :
  matchAt s (Alt (chr a) (chr b)) i
  = matchAt s (Chr (fun c => (a =? c)%N || (b =? c)%N)) i.
Proof.
  unfold matchAt, chr. simpl. unfold charAt.
  destruct (nth_error s i) as [ch|]; [|reflexivity].
  destruct (a =? ch)%N; [reflexivity|]. destruct (b =? ch)%N; reflexivity.
Qed.

Lemma lit_bin : lit (js "bin") = Seq (chr 98%N) (Seq (chr 105%N) (chr 110%N)).
Proof. reflexivity. Qed.

(** [binHead] needs a [b]. *)
Lemma binHead_needs_b s : test binHead s = true -> In 98%N s.
Proof.
  intros H. apply test_sound in H. destruct H as (i & j & c' & H).
  unfold binHead in H. rewrite lit_bin in H.
  apply Sem_Seq_inv in H. destruct H as (j0 & c0 & _ & H).
  apply Sem_Seq_inv in H. destruct H as (j1 & c1 & _ & H).
  apply Sem_Seq_inv in H. destruct H as (j2 & c2 & _ & H).
  apply Sem_Seq_inv in H. destruct H as (j3 & c3 & H & _).
  apply Sem_Seq_inv in H. destruct H as (j4 & c4 & H & _).
  apply Sem_chr_inv in H. destruct H as (E & _).
  eapply nth_error_In. eassumption.
Qed.

(** On a numeral the steps of [normNumber] before the separator inference
    change nothing. *)
Lemma cleaned_numeral str :
  numeral str ->
  cleaned str = (resolveSeparators (inferDecimalSep str) str, false).
Proof.
  intros H. unfold cleaned.
  assert (L : toLowerCase str = str).
  { apply flat_map_singleton. eapply Forall_impl; [|exact H].
    intros c Hc. apply numeralChar_facts. assumption. }
  assert (T : trim str = str).
  { apply trim_id. eapply Forall_impl; [|exact H].
    intros c Hc. apply numeralChar_facts. assumption. }
  rewrite L, T.
  assert (R : replaceAll (Alt (chr cNBSP) (chr cNNBSP)) [cSpace] str = str).
  { rewrite (@replaceAll_ext str _ _ [cSpace] (matchAt_two_chars str cNBSP cNNBSP)).
    rewrite replaceAll_class. apply flat_map_singleton.
    eapply Forall_impl; [|exact H]. intros c Hc. unfold replaceClass.
    destruct (numeralChar_facts c Hc) as (_ & _ & -> & -> & _). reflexivity. }
  rewrite R. unfold stripBin.
  destruct (test binHead str) eqn:B; [|reflexivity].
  apply binHead_needs_b in B. eapply Forall_forall in H; eauto.
  apply numeralChar_facts in H. tauto.
Qed.

Lemma resolveChar_digit ds c :
  (ds = None \/ ds = Some cDot \/ ds = Some cComma) ->
  isDigit c = true -> resolveChar ds c = [c].
Proof.
  intros D H. destruct (digit_not_separator c H) as [N1 N2].
  destruct (numeralChar_facts c (digit_numeralChar c H)) as (_ & W & _).
  apply N.eqb_neq in N1, N2.
  destruct D as [->|[->| ->]]; unfold resolveChar.
  - unfold isDotOrComma. rewrite N1, N2, W. reflexivity.
  - replace (cDot =? cDot)%N with true by reflexivity. rewrite N1, N2, W.
    reflexivity.
  - replace (cComma =? cDot)%N with false by reflexivity. rewrite N1, N2, W.
    reflexivity.
Qed.

Lemma resolve_digits ds a :
  (ds = None \/ ds = Some cDot \/ ds = Some cComma) ->
  digits a -> flat_map (resolveChar ds) a = a.
Proof.
  intros D H. apply flat_map_singleton. eapply Forall_impl; [|exact H].
  intros c Hc. apply resolveChar_digit; assumption.
Qed.

Lemma numeral_app a b : numeral a -> numeral b -> numeral (a ++ b).
Proof. intros. apply Forall_app; auto. Qed.

Lemma numeral_sep sep other :
  separators sep other -> numeralChar sep = true.
Proof. intros [[-> _]|[-> _]]; reflexivity. Qed.

(** Both separators: the right-most one is the decimal point, the other is
    dropped. *)
Lemma cleaned_both sep other a b d :
  separators sep other -> digits a -> digits b -> digits d ->
  cleaned (a ++ other :: b ++ sep :: d) = (a ++ b ++ cDot :: d, false).
Proof.
  intros S Ha Hb Hd.
  assert (Ns : numeralChar sep = true) by (eapply numeral_sep; eauto).
  assert (No : numeralChar other = true).
  { destruct S as [[_ ->]|[_ ->]]; reflexivity. }
  rewrite cleaned_numeral.
  2:{ apply numeral_app; [apply digits_numeral; assumption|].
      constructor; [assumption|].
      apply numeral_app; [apply digits_numeral; assumption|].
      constructor; [assumption|apply digits_numeral; assumption]. }
  f_equal.
  replace (a ++ other :: b ++ sep :: d) with ((a ++ other :: b) ++ sep :: d)
    by (rewrite <- app_assoc; reflexivity).
  destruct (digits_no_separator Hd) as [D1 D2].
  rewrite (@inferDecimalSep_both sep other) by (auto; apply in_elt).
  assert (Ds : Some sep = None \/ Some sep = Some cDot \/ Some sep = Some cComma).
  { destruct S as [[-> _]|[-> _]]; auto. }
  rewrite resolveSeparators_chars by assumption.
  rewrite <- app_assoc. cbn [app].
  rewrite !flat_map_app. cbn [flat_map].
  rewrite !flat_map_app. cbn [flat_map].
  rewrite !resolve_digits by assumption.
  destruct S as [[-> ->]|[-> ->]]; reflexivity.
Qed.


Lemma cleaned_one_decimal sep other a d :
  separators sep other -> digits a -> digits d ->
  List.length d = 1 \/ List.length d = 2 ->
  cleaned (a ++ sep :: d) = (a ++ cDot :: d, false).
Proof.
  intros S Ha Hd L.
  assert (Ns : numeralChar sep = true) by (eapply numeral_sep; eauto).
  rewrite cleaned_numeral.
  2:{ apply numeral_app; [apply digits_numeral; assumption|].
      constructor; [assumption|apply digits_numeral; assumption]. }
  f_equal.
  assert (No : ~ In other (a ++ sep :: d)).
  { intros I. apply in_app_or in I.
    destruct (digits_no_separator Ha), (digits_no_separator Hd).
    destruct S as [[-> ->]|[-> ->]]; destruct I as [I|[I|I]];
      auto; discriminate. }
  destruct (@inferDecimalSep_one sep other (a ++ sep :: d) S) as [E _];
    [apply in_elt|assumption|].
  rewrite E by (exists a, d; auto).
  assert (Ds : Some sep = None \/ Some sep = Some cDot \/ Some sep = Some cComma).
  { destruct S as [[-> _]|[-> _]]; auto. }
  rewrite resolveSeparators_chars by assumption.
  rewrite flat_map_app. cbn [flat_map].
  rewrite !resolve_digits by assumption.
  destruct S as [[-> ->]|[-> ->]]; reflexivity.
Qed.

Lemma flat_map_filter (p : char16 -> bool) s :
  flat_map (fun c => if p c then [c] else []) s = filter p s.
Proof.
  induction s as [|c r IH]; simpl; [reflexivity|].
  rewrite IH. destruct (p c); reflexivity.
Qed.

Lemma flat_map_ext_Forall (f g : char16 -> jsstring) s :
  Forall (fun c => f c = g c) s -> flat_map f s = flat_map g s.
Proof.
  induction 1 as [|c r H _ IH]; simpl; [reflexivity|].
  rewrite H, IH. reflexivity.
Qed.

Lemma cleaned_thousands sep other s :
  separators sep other -> numeral s -> ~ In other s ->
  ~ endsWithDecimals sep s ->
  cleaned s = (filter isDigit s, false).
Proof.
  intros S Hs No Ne. rewrite cleaned_numeral by assumption. f_equal.
  assert (E : inferDecimalSep s = None).
  { destruct (in_dec N.eq_dec sep s) as [I|I].
    - destruct (@inferDecimalSep_one sep other s S I No) as [_ E]. auto.
    - unfold inferDecimalSep.
      destruct S as [[-> ->]|[-> ->]];
        rewrite !lastIndexOf_absent by assumption; reflexivity. }
  rewrite E, resolveSeparators_chars by auto.
  rewrite <- flat_map_filter. apply flat_map_ext_Forall.
  eapply Forall_impl; [|exact Hs]. intros c Hc. unfold resolveChar.
  destruct (isDigit c) eqn:D.
  - apply (resolveChar_digit (ds := None)); auto.
  - unfold numeralChar in Hc. rewrite D in Hc. simpl in Hc. rewrite Hc.
    reflexivity.
Qed.

Lemma normNumber_cleaned str :
  str <> [] ->
  normNumber str =
  (let '(s, bin) := cleaned str in
   if isFinite (parseFloat s)
   then mul (parseFloat s) (if bin then ofZ 1000 else ofZ 1) else NaN).
Proof.
  intros H. unfold normNumber. destruct str; [contradiction|].
  destruct (cleaned _). reflexivity.
Qed.

(** C2 (separator inference).  The table: "2.199,99" gives 2199.99,
    "1,234.56" gives 1234.56, "3.000" gives 3000, "5.99" gives 5.99, "10 000"
    gives 10000, "2 bin" gives 2000 and "3bin" gives 3000.  In general: when
    both a dot and a comma occur, the one that occurs last is the decimal
    separator, it becomes the decimal point and the other is removed; when
    only one of the two occurs, it is the decimal separator exactly when the
    string ends with it and one or two digits, and otherwise there is none
    and it is removed.  On numerals made of digits this fixes the string
    handed to [parseFloat]. *)
Theorem separator_inference :
  (normNumber (js "2.199,99") = decimal 219999 (-2)
   /\ normNumber (js "1,234.56") = decimal 123456 (-2)
   /\ normNumber (js "3.000") = decimal 3000 0
   /\ normNumber (js "5.99") = decimal 599 (-2)
   /\ normNumber (js "10 000") = decimal 10000 0
   /\ normNumber (js "2 bin") = decimal 2000 0
   /\ normNumber (js "3bin") = decimal 3000 0)
  /\ (forall sep other pre post,
         separators sep other -> In other pre ->
         ~ In cDot post -> ~ In cComma post ->
         inferDecimalSep (pre ++ sep :: post) = Some sep
         /\ resolveSeparators (Some sep) (pre ++ sep :: post)
            = flat_map (resolveChar (Some sep)) (pre ++ sep :: post)
         /\ resolveChar (Some sep) sep = [cDot]
         /\ resolveChar (Some sep) other = [])
  /\ (forall sep other s,
         separators sep other -> In sep s -> ~ In other s ->
         (endsWithDecimals sep s -> inferDecimalSep s = Some sep)
         /\ (~ endsWithDecimals sep s ->
             inferDecimalSep s = None
             /\ resolveSeparators None s = flat_map (resolveChar None) s
             /\ resolveChar None sep = []))
  /\ (forall sep other a b d,
         separators sep other -> digits a -> digits b -> digits d ->
         cleaned (a ++ other :: b ++ sep :: d) = (a ++ b ++ cDot :: d, false))
  /\ (forall sep other a d,
         separators sep other -> digits a -> digits d ->
         List.length d = 1 \/ List.length d = 2 ->
         cleaned (a ++ sep :: d) = (a ++ cDot :: d, false))
  /\ (forall sep other s,
         separators sep other -> numeral s -> ~ In other s ->
         ~ endsWithDecimals sep s ->
         cleaned s = (filter isDigit s, false)).
Proof.
  split; [repeat split; vm_compute; reflexivity|].
  split.
  { intros sep other pre post S I Nd Nc. split; [|split; [|split]].
    - eapply inferDecimalSep_both; eauto.
    - apply resolveSeparators_chars. destruct S as [[-> _]|[-> _]]; auto.
    - destruct S as [[-> _]|[-> _]]; reflexivity.
    - destruct S as [[-> ->]|[-> ->]]; reflexivity. }
  split.
  { intros sep other s S I N.
    destruct (@inferDecimalSep_one sep other s S I N) as [E1 E2].
    split; [assumption|]. intros H. split; [auto|]. split.
    - apply resolveSeparators_chars. auto.
    - destruct S as [[-> _]|[-> _]]; reflexivity. }
  split; [intros; eapply cleaned_both; eauto|].
  split; [intros; eapply cleaned_one_decimal; eauto|].
  intros; eapply cleaned_thousands; eauto.
Qed.


Ltac in_list := vm_compute; repeat (try (left; reflexivity); right).

(** C5 (currency normalization).  Every token of the table is taken to its
    code, "₺", "TL" and "TRY" to "TRY"; a token outside the table is returned
    as it is, "XYZ" for one. *)
Theorem currency_normalization :
  Forall (fun p => normalizeCurrency (js (fst p)) = js (snd p)) currencyTable
  /\ (forall c, ~ In c knownTokens -> normalizeCurrency c = c)
  /\ normalizeCurrency (js "XYZ") = js "XYZ".
Proof.
  split; [repeat constructor|].
  split; [|reflexivity].
  intros c H. unfold normalizeCurrency.
  repeat rewrite jsstring_eqb_neq
    by (intros ->; apply H; in_list).
  reflexivity.
Qed.

Lemma scanBlock_allMatches el text fuel :
  forall i results,
    List.length text - i < fuel ->
    scanBlock el text fuel i results
    = Some (results ++ flat_map (pushed el text) (allMatches text fuel i)).
Proof.
  induction fuel as [|f IH]; intros i results Hf; [lia|]. simpl.
  destruct (exec text CURRENCY_RE i) as [[[st en] m]|] eqn:E.
  - pose proof (@exec_progress text CURRENCY_RE _ _ _ _ eq_refl E) as [P1 P2].
    rewrite IH by lia. unfold pushed at 2. simpl.
    destruct (findingOfMatch el text m); [rewrite <- app_assoc|]; reflexivity.
  - rewrite app_nil_r. reflexivity.
Qed.

Lemma allMatches_leftToRight text fuel :
  forall i, leftToRight i (allMatches text fuel i).
Proof.
  induction fuel as [|f IH]; intros i; simpl; [exact I|].
  destruct (exec text CURRENCY_RE i) as [[[st en] m]|] eqn:E; simpl; [|exact I].
  pose proof (exec_sound _ _ _ E) as (P1 & _ & _ & S).
  apply Sem_progress in S; [|reflexivity]. auto.
Qed.

(** C6 (end-to-end scenario).  From the empty state the two blocks are
    detected and give the findings (TRY, 2199.99) and (USD, 5.99), in that
    order, totals TRY 2199.99 and USD 5.99 and count 2, in one tick or in
    two.  The scan of a block takes every match of the pattern from left to
    right, the next match starting where the last one ended, in either order
    of currency and number. *)
Theorem end_to_end_scenario :
  let b1 := textBlock "Super Thanks! ₺2.199,99 harika video" in
  let b2 := textBlock "thanks $5.99 super thanks" in
  let expected := [(js "TRY", decimal 219999 (-2)); (js "USD", decimal 599 (-2))] in
  isSuperThanksBlock b1 (blockText b1) = true
  /\ isSuperThanksBlock b2 (blockText b2) = true
  /\ (exists st new,
         collectAndReport emptyState [b1; b2] = Some (st, new)
         /\ collectAll emptyState [[b1]; [b2]] = Some st
         /\ List.map (fun f => (currency f, amount f)) (findings st) = expected
         /\ new = findings st
         /\ liveTotals st = expected
         /\ totals (report st) = expected
         /\ count (report st) = 2)
  /\ (forall el text fuel i results,
         List.length text - i < fuel ->
         scanBlock el text fuel i results
         = Some (results ++ flat_map (pushed el text) (allMatches text fuel i))
         /\ leftToRight i (allMatches text fuel i))
  /\ option_map (List.map (fun f => (currency f, amount f)))
                (extractFindingsInPage
                   [textBlock "super thanks 5 EUR and $3 or 2 bin TL"])
     = Some [(js "EUR", decimal 5 0); (js "USD", decimal 3 0);
             (js "TRY", decimal 2000 0)].
Proof.
  intros b1 b2 expected.
  split; [vm_compute; reflexivity|].
  split; [vm_compute; reflexivity|].
  split.
  { eexists. eexists. split; [vm_compute; reflexivity|].
    repeat split; vm_compute; reflexivity. }
  split; [|vm_compute; reflexivity].
  intros. split; [apply scanBlock_allMatches; assumption|].
  apply allMatches_leftToRight.
Qed.

(** C10 (the fingerprint is not injective).  Two findings that differ in
    author and in snippet have the same fingerprint, because the separator
    can occur in the author; the second one is dropped as a duplicate and
    counts neither in the log nor in the totals. *)
Theorem fingerprint_not_injective :
  let el1 := {| innerText := js "z $5 super thanks";
                textContent := js "x|y z $5 super thanks"; badge := false;
                authorEl := Some (js "x|y");
                contentEl := Some (js "z $5 super thanks") |} in
  let el2 := {| innerText := js "y|z $5 super thanks";
                textContent := js "x y|z $5 super thanks"; badge := false;
                authorEl := Some (js "x");
                contentEl := Some (js "y|z $5 super thanks") |} in
  let f1 := {| currency := js "USD"; amount := decimal 5 0;
               author := js "x|y"; snippet := js "z $5 super thanks" |} in
  let f2 := {| currency := js "USD"; amount := decimal 5 0;
               author := js "x"; snippet := js "y|z $5 super thanks" |} in
  extractFindingsInPage [el1; el2] = Some [f1; f2]
  /\ author f1 <> author f2
  /\ snippet f1 <> snippet f2
  /\ hashFinding f1 = js "USD|5|x|y|z $5 super thanks"
  /\ hashFinding f2 = js "USD|5|x|y|z $5 super thanks"
  /\ collectAndReport emptyState [el1; el2]
     = Some ({| findings := [f1]; seen := [hashFinding f1];
                liveTotals := [(js "USD", decimal 5 0)] |}, [f1]).
Proof.
  intros el1 el2 f1 f2.
  split; [vm_compute; reflexivity|].
  split; [vm_compute; discriminate|].
  split; [vm_compute; discriminate|].
  split; [vm_compute; reflexivity|].
  split; vm_compute; reflexivity.
Qed.

Lemma extractLoop_app pre post :
  forall results,
    extractLoop (pre ++ post) results
    = match extractLoop pre results with
      | Some r => extractLoop post r
      | None => None
      end.
Proof.
  induction pre as [|el rest IH]; intros results; [reflexivity|].
  cbn [app extractLoop].
  destruct (negb (nonEmpty (blockText el))); [apply IH|].
  destruct (negb (isSuperThanksBlock el (blockText el))); [apply IH|].
  destruct (scanBlock _ _ _ _ _); [apply IH|reflexivity].
Qed.

(** C8 (detection gating).  A block that has none of the three triggers
    (keyword, badge, co-occurrence) gives no finding: the page payload
    returns the same with and without it, and a tick on it alone leaves the
    state as it was. *)
Theorem detection_gating (st : RunState) (el : Element)
        (before after : list Element) :
  keywordTrigger (blockText el) = false ->
  badge el = false ->
  cooccurrenceTrigger (blockText el) = false ->
  isSuperThanksBlock el (blockText el) = false
  /\ extractFindingsInPage [el] = Some []
  /\ collectAndReport st [el] = Some (st, [])
  /\ extractFindingsInPage (before ++ el :: after)
     = extractFindingsInPage (before ++ after)
  /\ collectAndReport st (before ++ el :: after)
     = collectAndReport st (before ++ after).
Proof.
  intros K B C.
  assert (D : isSuperThanksBlock el (blockText el) = false)
    by (unfold isSuperThanksBlock; rewrite K, B, C; reflexivity).
  assert (E1 : forall results rest,
             extractLoop (el :: rest) results = extractLoop rest results).
  { intros. cbn [extractLoop]. rewrite D.
    destruct (negb (nonEmpty (blockText el))); reflexivity. }
  assert (E2 : extractFindingsInPage (before ++ el :: after)
               = extractFindingsInPage (before ++ after)).
  { unfold extractFindingsInPage. rewrite !extractLoop_app.
    destruct (extractLoop before []); [apply E1|reflexivity]. }
  split; [exact D|].
  split; [unfold extractFindingsInPage; rewrite E1; reflexivity|].
  split; [unfold collectAndReport, extractFindingsInPage; rewrite E1;
          reflexivity|].
  split; [exact E2|].
  unfold collectAndReport. rewrite E2. reflexivity.
Qed.

Lemma detection_gating_witness :
  let el := textBlock "the price was $5.99 last week" in
  exec (blockText el) CURRENCY_RE 0 <> None
  /\ extractFindingsInPage [el] = Some []
  /\ collectAndReport emptyState [el] = Some (emptyState, []).
Proof.
  intros el. split; [vm_compute; discriminate|].
  destruct (@detection_gating emptyState el [] []) as (_ & E1 & E2 & _);
    [vm_compute; reflexivity..|].
  split; assumption.
Defined.



(** ** What [parseFloat] reads

    A numeral with an integer part and a fraction is read up to the first
    code unit that cannot continue it; what follows is ignored. *)



Lemma isDigit_plain c :
  isDigit c = true ->
  isWhiteSpace c = false /\ (c =? cMinus)%N = false /\ (c =? cPlus)%N = false
  /\ (c =? 73)%N = false /\ (c =? cDot)%N = false.
Proof.
  unfold isDigit, isWhiteSpace, inRange, cMinus, cPlus, cDot. intros H.
  apply andb_true_iff in H. destruct H as [H1 H2].
  apply N.leb_le in H1, H2.
  repeat match goal with
         | |- _ /\ _ => split
         | |- (_ || _) = false => apply orb_false_iff; split
         | |- (_ && _) = false => apply andb_false_iff
         | |- (_ =? _)%N = false => apply N.eqb_neq; lia
         end.
  - right. apply N.leb_gt. lia.
  - left. apply N.leb_gt. lia.
Qed.


Lemma trimStart_head s :
  match trimStart s with
  | c :: _ => isWhiteSpace c = false
  | [] => True
  end.
Proof.
  induction s as [|c r IH]; cbn [trimStart]; [exact I|].
  destruct (isWhiteSpace c) eqn:W; [exact IH|exact W].
Qed.

Lemma trimStart_fixed s :
  match s with c :: _ => isWhiteSpace c = false | [] => True end ->
  trimStart s = s.
Proof. destruct s as [|c r]; [reflexivity|]. cbn. intros ->. reflexivity. Qed.

Lemma startsWith_app p r : startsWith p (p ++ r) = true.
Proof.
  induction p as [|c p IH]; [reflexivity|].
  cbn [app startsWith]. rewrite N.eqb_refl. exact IH.
Qed.

Lemma startsWith_prefix (p s : jsstring) :
  startsWith p s = true -> exists r, s = p ++ r.
Proof.
  revert s. induction p as [|c p IH]; intros s H.
  - exists s. reflexivity.
  - destruct s as [|d s]; [discriminate|].
    cbn [startsWith] in H. apply andb_true_iff in H. destruct H as [E H].
    apply N.eqb_eq in E. subst d.
    destruct (IH s H) as [r R]. exists r. rewrite R. reflexivity.
Qed.




(** *** [span] *)




(** *** The parts of a literal *)


























(** C3 as stated fails: from the state a first tick has left, the same
    block is detected and has a match that parses, yet the call streams
    nothing. *)
Lemma first_call_can_stream_nothing :
  let el := textBlock "thanks $5.99 super thanks" in
  let st := afterOneTick [el] in
  isSuperThanksBlock el (blockText el) = true
  /\ (exists f, extractFindingsInPage [el] = Some [f])
  /\ collectAndReport st [el] = Some (st, []).
Proof.
  intros el st. split; [vm_compute; reflexivity|].
  split; [eexists; vm_compute; reflexivity|].
  vm_compute. reflexivity.
Qed.

(** C3 (idempotent de-duplication), amended.  From any state, a second
    [collectAndReport] on the same page right after a first one streams no
    finding and leaves the state (seen set, log, totals) as the first call
    left it.  The first call streams something as soon as one of the
    findings of the page has a fingerprint that is not yet seen, which is
    always so from the empty state when the page has a finding.  What is
    streamed was not seen before, and what was seen stays seen: the
    de-duplication spans the batches of the whole run and goes by the
    fingerprint. *)
Theorem idempotent_deduplication (st : RunState) (page : list Element) :
  exists fs st1 new1,
    extractFindingsInPage page = Some fs
    /\ collectAndReport st page = Some (st1, new1)
    /\ collectAndReport st1 page = Some (st1, [])
    /\ ((exists f, In f fs /\ setHas (hashFinding f) (seen st) = false) ->
        new1 <> [])
    /\ (st = emptyState -> fs <> [] -> new1 <> [])
    /\ findings st1 = findings st ++ new1
    /\ (forall f, In f new1 ->
                  In f fs /\ setHas (hashFinding f) (seen st) = false)
    /\ (forall h, setHas h (seen st) = true -> setHas h (seen st1) = true)
    /\ (forall f, In f fs -> setHas (hashFinding f) (seen st1) = true).
Proof.
  destruct (extractFindingsInPage_spec page) as (fs & E & _).
  exists fs, (fst (collectLoop fs st [])), (snd (collectLoop fs st [])).
  unfold collectAndReport. rewrite E.
  destruct (collectLoop_streamed fs st []) as (more & S1 & S0 & S2 & S3).
  simpl in S1.
  split; [reflexivity|].
  split; [destruct (collectLoop fs st []); reflexivity|].
  split.
  { rewrite collectLoop_noop; [reflexivity|].
    intros f Hf. apply collectLoop_seen_all. assumption. }
  split; [rewrite S1; assumption|].
  split.
  { intros -> Hne. rewrite S1. apply S3.
    destruct fs as [|f r]; [contradiction|]. exists f. split; [left|]; reflexivity. }
  split; [rewrite S1; assumption|].
  split; [rewrite S1; assumption|].
  split.
  - intros h. apply collectLoop_seen_mono.
  - intros f. apply collectLoop_seen_all.
Qed.


(* ================================================================== *)
(** ** The snapshot of the totals *)

Lemma localeCompare_antisym a :
  forall b, localeCompare b a = CompOpp (localeCompare a b).
Proof.
  induction a as [|x a IH]; intros [|y b]; simpl; try reflexivity.
  rewrite (N.compare_antisym x y).
  destruct (x ?= y)%N; simpl; auto.
Qed.

Lemma localeCompare_eq a :
  forall b, localeCompare a b = Eq -> a = b.
Proof.
  induction a as [|x a IH]; intros [|y b]; simpl; try discriminate; auto.
  destruct (x ?= y)%N eqn:E; try discriminate.
  apply N.compare_eq in E. intros H. f_equal; auto.
Qed.

Lemma localeCompare_trans a :
  forall b c, keyLt a b -> keyLt b c -> keyLt a c.
Proof.
  unfold keyLt.
  induction a as [|x a IH]; intros [|y b] [|z c]; simpl; try discriminate; auto.
  destruct (x ?= y)%N eqn:E1; try discriminate;
    destruct (y ?= z)%N eqn:E2; try discriminate; intros H1 H2.
  - apply N.compare_eq in E1, E2. subst. rewrite N.compare_refl. eauto.
  - apply N.compare_eq in E1. subst. rewrite E2. reflexivity.
  - apply N.compare_eq in E2. subst. rewrite E1. reflexivity.
  - rewrite N.compare_lt_iff in E1, E2.
    replace (x ?= z)%N with Lt by (symmetry; apply N.compare_lt_iff; lia).
    reflexivity.
Qed.

Lemma insertEntry_perm e l : Permutation (insertEntry e l) (e :: l).
Proof.
  induction l as [|x r IH]; simpl; [reflexivity|].
  destruct (localeCompare (fst e) (fst x)); try reflexivity;
    (etransitivity; [apply perm_skip, IH|apply perm_swap]).
Qed.

Lemma insertEntry_sorted e l :
  Sorted entryLe l -> Sorted entryLe (insertEntry e l).
Proof.
  induction l as [|x r IH]; simpl; intros H.
  - repeat constructor.
  - inversion H as [|? ? Hr Hd]; subst.
    destruct (localeCompare (fst e) (fst x)) eqn:C.
    + constructor; [apply IH; assumption|].
      assert (X : entryLe x e).
      { unfold entryLe. rewrite localeCompare_antisym, C. discriminate. }
      destruct r as [|y r']; simpl; [repeat constructor; assumption|].
      destruct (localeCompare (fst e) (fst y)); constructor; auto;
        inversion Hd; assumption.
    + constructor; [assumption|]. constructor. unfold entryLe. rewrite C.
      discriminate.
    + constructor; [apply IH; assumption|].
      assert (X : entryLe x e).
      { unfold entryLe. rewrite localeCompare_antisym, C. discriminate. }
      destruct r as [|y r']; simpl; [repeat constructor; assumption|].
      destruct (localeCompare (fst e) (fst y)); constructor; auto;
        inversion Hd; assumption.
Qed.

Lemma sortEntries_spec l :
  Sorted entryLe (sortEntries l) /\ Permutation (sortEntries l) l.
Proof.
  unfold sortEntries.
  assert (G : forall acc, Sorted entryLe acc ->
                          Sorted entryLe (fold_left (fun a e => insertEntry e a) l acc)
                          /\ Permutation (fold_left (fun a e => insertEntry e a) l acc)
                                         (l ++ acc)).
  { induction l as [|e r IH]; simpl; intros acc H; [split; auto|].
    destruct (IH (insertEntry e acc) (insertEntry_sorted e H)) as [S P].
    split; [assumption|].
    etransitivity; [exact P|].
    etransitivity; [apply Permutation_app_head, insertEntry_perm|].
    symmetry. apply Permutation_middle. }
  destruct (G [] (Sorted_nil _)) as [S P]. rewrite app_nil_r in P. auto.
Qed.

Lemma sorted_strict l :
  NoDup (List.map fst l) -> Sorted entryLe l -> StronglySorted entryLt l.
Proof.
  intros N S. apply Sorted_StronglySorted.
  - intros x y z. apply localeCompare_trans.
  - induction S as [|x r Sr IH Hd]; [constructor|].
    simpl in N. inversion N as [|? ? Nx Nr]; subst.
    constructor; [auto|].
    destruct Hd as [|y r' Hxy]; constructor.
    unfold entryLt, keyLt. unfold entryLe in Hxy.
    destruct (localeCompare (fst x) (fst y)) eqn:C; try congruence.
    apply localeCompare_eq in C. exfalso. apply Nx. simpl. auto.
Qed.

Lemma StronglySorted_keys l :
  StronglySorted entryLt l -> StronglySorted keyLt (List.map fst l).
Proof.
  induction 1 as [|x r S IH F]; simpl; constructor; auto.
  apply Forall_map. exact F.
Qed.

Lemma mapSet_fresh k v m :
  ~ In k (List.map fst m) -> mapSet k v m = m ++ [(k, v)].
Proof.
  induction m as [|[k' v'] r IH]; simpl; intros H; [reflexivity|].
  rewrite jsstring_eqb_neq by tauto. rewrite IH by tauto. reflexivity.
Qed.

Lemma build_object l :
  forall acc,
    NoDup (List.map fst (acc ++ l)) ->
    fold_left (fun obj e => mapSet (fst e) (round2 (snd e)) obj) l acc
    = acc ++ List.map (fun e => (fst e, round2 (snd e))) l.
Proof.
  induction l as [|e r IH]; simpl; intros acc H; [rewrite app_nil_r; reflexivity|].
  rewrite map_app in H. simpl in H.
  rewrite mapSet_fresh.
  - rewrite IH; [rewrite <- app_assoc; reflexivity|].
    rewrite <- app_assoc, map_app. simpl. assumption.
  - apply NoDup_remove_2 in H. intros I. apply H. apply in_or_app. auto.
Qed.

Lemma mapGet_rounded k l :
  mapGet k (List.map (fun e => (fst e, round2 (snd e))) l)
  = option_map round2 (mapGet k l).
Proof.
  induction l as [|[k' v'] r IH]; simpl; [reflexivity|].
  destruct (jsstring_eqb k' k); auto.
Qed.

Lemma mapGet_Some_In k v l : mapGet k l = Some v -> In (k, v) l.
Proof.
  induction l as [|[k' v'] r IH]; simpl; [discriminate|].
  destruct (jsstring_eqb k' k) eqn:E; intros H; auto.
  apply jsstring_eqb_eq in E. inversion H; subst. auto.
Qed.

Lemma mapGet_In_Some k v l :
  NoDup (List.map fst l) -> In (k, v) l -> mapGet k l = Some v.
Proof.
  induction l as [|[k' v'] r IH]; simpl; intros N H; [contradiction|].
  inversion N as [|? ? Nx Nr]; subst. destruct H as [H|H].
  - inversion H; subst. rewrite jsstring_eqb_refl. reflexivity.
  - rewrite jsstring_eqb_neq; auto.
    intros ->. apply Nx. apply (in_map fst) in H. exact H.
Qed.

Lemma mapGet_None k l : mapGet k l = None -> ~ In k (List.map fst l).
Proof.
  induction l as [|[k' v'] r IH]; simpl; intros H; [tauto|].
  destruct (jsstring_eqb k' k) eqn:E; [discriminate|].
  intros [I|I]; [subst; rewrite jsstring_eqb_refl in E; discriminate|].
  apply IH; assumption.
Qed.

Lemma mapGet_perm k l l' :
  NoDup (List.map fst l) -> Permutation l l' -> mapGet k l' = mapGet k l.
Proof.
  intros N P.
  assert (N' : NoDup (List.map fst l'))
    by (eapply Permutation_NoDup; [apply Permutation_map; exact P|exact N]).
  destruct (mapGet k l) as [v|] eqn:E.
  - apply mapGet_In_Some; [assumption|].
    eapply Permutation_in; [exact P|]. apply mapGet_Some_In. assumption.
  - destruct (mapGet k l') as [v|] eqn:E'; [|reflexivity].
    apply mapGet_Some_In in E'. apply mapGet_None in E. exfalso. apply E.
    apply (in_map fst) in E'. simpl in E'.
    eapply Permutation_in; [apply Permutation_map; symmetry; exact P|exact E'].
Qed.

Lemma mapToSortedObject_spec m :
  NoDup (List.map fst m) ->
  mapToSortedObject m
  = List.map (fun e => (fst e, round2 (snd e))) (sortEntries m).
Proof.
  intros N. unfold mapToSortedObject. rewrite build_object; [reflexivity|].
  simpl. eapply Permutation_NoDup; [|exact N].
  apply Permutation_map. symmetry. apply sortEntries_spec.
Qed.

Lemma mapGet_present k m :
  In k (List.map fst m) -> exists v, mapGet k m = Some v.
Proof.
  induction m as [|[k' v'] r IH]; simpl; intros H; [contradiction|].
  destruct (jsstring_eqb k' k) eqn:E; [eauto|].
  destruct H as [H|H]; [subst; rewrite jsstring_eqb_refl in E; discriminate|].
  auto.
Qed.

Lemma canonicalCodes_are_codes k : In k canonicalCodes -> currencyCode k.
Proof.
  intros I.
  assert (A : forallb (forallb isUpperAscii) canonicalCodes = true)
    by reflexivity.
  rewrite forallb_forall in A. apply A. assumption.
Qed.

(** The keys of the totals of a run are canonical codes. *)
Lemma invariant_keys st :
  invariant st -> Forall currencyCode (List.map fst (liveTotals st)).
Proof.
  intros (T & W & _). apply Forall_forall. intros k I.
  apply mapGet_present in I. destruct I as [v E]. rewrite (T k) in E.
  destruct (hasCurrency k (findings st)) eqn:H; [|discriminate].
  unfold hasCurrency in H. apply existsb_exists in H.
  destruct H as (f & If & Ef). apply jsstring_eqb_eq in Ef. subst k.
  eapply Forall_forall in W; [|exact If].
  apply canonicalCodes_are_codes. apply W.
Qed.

(** C9 (totals snapshot).  On a totals map (distinct keys, currency codes)
    [mapToSortedObject] returns the same keys in increasing order, each with
    [round2] of the stored value.  It is a function of the map and touches
    nothing of the state.  The stored totals are never rounded: accepting a
    finding stores the plain sum, and 0.1 + 0.2 is stored as
    0.30000000000000004 and reported as 0.3.  Every map a run builds has
    distinct keys that are currency codes. *)
Theorem totals_snapshot (m : TotalsMap) :
  NoDup (List.map fst m) ->
  Forall currencyCode (List.map fst m) ->
  StronglySorted keyLt (List.map fst (mapToSortedObject m))
  /\ Permutation (List.map fst (mapToSortedObject m)) (List.map fst m)
  /\ (forall k, mapGet k (mapToSortedObject m)
                = option_map round2 (mapGet k m))
  /\ (forall st f,
         setHas (hashFinding f) (seen st) = false ->
         mapGet (currency f) (liveTotals (fst (collectOne st f)))
         = Some (add match mapGet (currency f) (liveTotals st) with
                     | Some v => orZero v
                     | None => Zero
                     end (orZero (amount f))))
  /\ (forall pages,
         exists st, collectAll emptyState pages = Some st
                    /\ NoDup (List.map fst (liveTotals st))
                    /\ Forall currencyCode (List.map fst (liveTotals st)))
  /\ (let st := afterOneTick [textBlock "super thanks $0.1";
                              textBlock "super thanks $0.2"] in
      liveTotals st = [(js "USD", add (decimal 1 (-1)) (decimal 2 (-1)))]
      /\ add (decimal 1 (-1)) (decimal 2 (-1)) <> decimal 3 (-1)
      /\ totals (report st) = [(js "USD", decimal 3 (-1))]).
Proof.
  intros N _. destruct (sortEntries_spec m) as [S P].
  assert (N' : NoDup (List.map fst (sortEntries m)))
    by (eapply Permutation_NoDup; [apply Permutation_map; symmetry; exact P|exact N]).
  rewrite mapToSortedObject_spec by assumption.
  assert (K : List.map fst (List.map (fun e => (fst e, round2 (snd e)))
                                     (sortEntries m))
              = List.map fst (sortEntries m)).
  { rewrite map_map. reflexivity. }
  split; [rewrite K; apply StronglySorted_keys, sorted_strict; assumption|].
  split; [rewrite K; apply Permutation_map; assumption|].
  split.
  { intros k. rewrite mapGet_rounded. f_equal. apply mapGet_perm; auto.
    symmetry. assumption. }
  split.
  { intros st f H. unfold collectOne. rewrite H. cbn [fst liveTotals].
    apply mapGet_mapSet_same. }
  split.
  { intros pages.
    destruct (@collectAll_invariant pages emptyState invariant_empty)
      as (st & E & I).
    exists st. split; [assumption|]. split; [apply I|].
    apply invariant_keys. assumption. }
  repeat split; try (vm_compute; reflexivity). vm_compute. discriminate.
Qed.

Lemma totals_snapshot_witness :
  let m := [(js "USD", decimal 599 (-2)); (js "EUR", decimal 12345 (-3));
            (js "TRY", decimal 219999 (-2))] in
  List.map fst (mapToSortedObject m) = [js "EUR"; js "TRY"; js "USD"]
  /\ StronglySorted keyLt (List.map fst (mapToSortedObject m))
  /\ mapGet (js "EUR") (mapToSortedObject m) = Some (decimal 1235 (-2)).
Proof.
  intros m.
  assert (N : NoDup (List.map fst m)).
  { repeat constructor; vm_compute; intuition discriminate. }
  assert (C : Forall currencyCode (List.map fst m))
    by (repeat constructor).
  destruct (@totals_snapshot m N C) as (S & _ & G & _).
  split; [vm_compute; reflexivity|]. split; [exact S|].
  rewrite G. vm_compute. reflexivity.
Defined.


(* ================================================================== *)
(** ** The detection predicate *)

Lemma Sem_embed pre post w r i c j c' :
  Sem w r i c j c' -> plain r = true ->
  forall c0,
    Sem (pre ++ w ++ post) r (List.length pre + i) c0 (List.length pre + j) c0.
Proof.
  induction 1; simpl; intros P c0; try discriminate;
    try (apply andb_true_iff in P; destruct P as [Pa Pb]).
  - constructor.
  - rewrite Nat.add_succ_r. econstructor; [|eassumption].
    rewrite nth_error_app2 by lia.
    replace (List.length pre + i - List.length pre) with i by lia.
    rewrite nth_error_app1; [assumption|].
    apply nth_error_Some. congruence.
  - econstructor; [apply IHSem1|apply IHSem2]; assumption.
  - apply SemAltL. apply IHSem. assumption.
  - apply SemAltR. apply IHSem. assumption.
  - constructor.
  - eapply SemStarStep; [apply IHSem1; assumption|lia|apply IHSem2; assumption].
Qed.

Lemma test_infix r pre w post :
  plain r = true -> starFree r = true -> matchAt w r 0 <> None ->
  test r (pre ++ w ++ post) = true.
Proof.
  intros P F M. destruct (matchAt w r 0) as [[j c]|] eqn:E; [|congruence].
  apply matchAt_sound in E.
  pose proof (Sem_bound E (Nat.le_0_l _)) as B.
  apply (Sem_embed pre post) with (c0 := []) in E; [|assumption].
  eapply test_complete; [assumption|exact E|].
  rewrite !length_app. lia.
Qed.

Lemma hint_found pre w post :
  In w hintMarkers -> test currencyHint (pre ++ w ++ post) = true.
Proof.
  intros I. apply test_infix; try reflexivity.
  assert (A : forallb (fun w => match matchAt w currencyHint 0 with
                                | Some _ => true
                                | None => false
                                end) hintMarkers = true)
    by (vm_compute; reflexivity).
  rewrite forallb_forall in A. specialize (A w I).
  destruct (matchAt w currencyHint 0); [discriminate|discriminate A].
Qed.

Lemma wordBoundary_start pre c rest :
  isWordChar c = true -> endsWithWordChar pre = false ->
  wordBoundary (pre ++ c :: rest) (List.length pre) = true.
Proof.
  intros Hc W. unfold wordBoundary, isWordAt, charAt.
  rewrite nth_error_app2, Nat.sub_diag by lia. cbn [nth_error]. rewrite Hc.
  destruct pre as [|p0 pr _] using rev_ind; [reflexivity|].
  unfold endsWithWordChar in W. rewrite rev_app_distr in W. cbn in W.
  rewrite length_app, Nat.add_comm. cbn [List.length plus].
  rewrite <- app_assoc, nth_error_app2, Nat.sub_diag by lia.
  cbn [nth_error app]. rewrite W. reflexivity.
Qed.

Lemma thanks_found t : hasThanksWord t -> test thanksWord t = true.
Proof.
  intros [(pre & post & ->)|(pre & post & -> & W)].
  - destruct (matchAt (js "teşekkür") (litI (js "teşekkür")) 0)
      as [[j c]|] eqn:E; [|vm_compute in E; discriminate].
    apply matchAt_sound in E.
    pose proof (Sem_bound E (Nat.le_0_l _)) as B.
    apply (Sem_embed pre post) with (c0 := []) in E; [|reflexivity].
    eapply test_complete; [reflexivity|apply SemAltR; exact E|].
    rewrite !length_app. lia.
  - destruct (matchAt (js "thanks") (litI (js "thanks")) 0)
      as [[j c]|] eqn:E; [|vm_compute in E; discriminate].
    apply matchAt_sound in E.
    pose proof (Sem_bound E (Nat.le_0_l _)) as B.
    apply (Sem_embed pre post) with (c0 := []) in E; [|reflexivity].
    eapply test_complete; [reflexivity| |].
    + apply SemAltL. econstructor; [|exact E].
      rewrite Nat.add_0_r. constructor.
      change (js "thanks" ++ post) with (116%N :: js "hanks" ++ post).
      apply wordBoundary_start; [reflexivity|assumption].
    + rewrite !length_app. lia.
Qed.

Lemma canonicalize_high x : (128 <= x)%N -> (128 <= canonicalize x)%N.
Proof.
  intros H. unfold canonicalize.
  destruct (upperChar x) as [|u [|v r]]; try exact H.
  destruct (N.leb_spec 128 x); [|lia].
  destruct (N.ltb_spec u 128); cbn [andb]; lia.
Qed.

Lemma canonicalize_ascii x :
  (x < 128)%N -> canonicalize x = if isLowerAscii x then (x - 32)%N else x.
Proof.
  intros H. unfold canonicalize, upperChar.
  destruct (isLowerAscii x).
  - destruct (N.leb_spec 128 x); [lia|reflexivity].
  - destruct (N.ltb_spec x 181); [|lia].
    destruct (N.leb_spec 128 x); [lia|reflexivity].
Qed.

(** Only a letter and its lower case fold onto an upper-case ASCII letter. *)
Lemma folded_letter x t :
  isUpperAscii t = true -> sameFolded x t -> x = t \/ x = (t + 32)%N.
Proof.
  unfold sameFolded, isUpperAscii, inRange. intros U H.
  apply andb_true_iff in U. destruct U as [U1 U2].
  apply N.leb_le in U1, U2.
  rewrite (@canonicalize_ascii t) in H by lia.
  assert (L : isLowerAscii t = false).
  { unfold isLowerAscii, inRange. apply andb_false_iff. left.
    apply N.leb_gt. lia. }
  rewrite L in H.
  destruct (N.lt_ge_cases x 128) as [A|A].
  - rewrite (canonicalize_ascii A) in H.
    destruct (isLowerAscii x) eqn:Lx; [|left; exact H].
    unfold isLowerAscii, inRange in Lx. apply andb_true_iff in Lx.
    destruct Lx as [L1 L2]. apply N.leb_le in L1, L2. right. lia.
  - pose proof (canonicalize_high A). lia.
Qed.

Lemma folded_caseVariants (l w : jsstring) :
  Forall2 sameFolded l w -> Forall (fun t => isUpperAscii t = true) w ->
  In l (caseVariants w).
Proof.
  induction 1 as [|x t l' w' H _ IH]; intros F; [left; reflexivity|].
  inversion F as [|? ? Ut Fw]; subst. cbn [caseVariants].
  apply in_flat_map. exists l'. split; [apply IH; exact Fw|].
  destruct (folded_letter Ut H) as [->| ->];
    [left; reflexivity|right; left; reflexivity].
Qed.

(** What the upper case of a code unit can be, if not the code unit. *)
Lemma upperChar_range x u :
  upperChar x = [u] ->
  u = x \/ (65 <= u <= 90)%N \/ (192 <= u <= 222)%N \/ u = 376%N
  \/ u = 924%N \/ (255 <= u <= 381)%N.
Proof.
  unfold upperChar.
  repeat lazymatch goal with
         | |- (if ?b then _ else _) = _ -> _ => destruct b eqn:?
         end;
    intros H; try discriminate H; injection H as <-;
    repeat match goal with
           | H : inRange _ _ _ = true |- _ =>
             unfold inRange in H; apply andb_true_iff in H;
             let A := fresh in let B := fresh in
             destruct H as [A B]; apply N.leb_le in A, B
           | H : isLowerAscii _ = true |- _ => unfold isLowerAscii in H
           end;
    lia.
Qed.

Lemma canonicalize_range x :
  canonicalize x = x
  \/ (65 <= canonicalize x <= 90)%N \/ (192 <= canonicalize x <= 222)%N
  \/ canonicalize x = 376%N \/ canonicalize x = 924%N
  \/ (255 <= canonicalize x <= 381)%N.
Proof.
  unfold canonicalize.
  destruct (upperChar x) as [|u [|v r]] eqn:E; try (left; reflexivity).
  destruct ((128 <=? x) && (u <? 128))%N; [left; reflexivity|].
  exact (upperChar_range _ E).
Qed.

Lemma folded_symbol x k :
  In k (js "€$£¥₺") -> canonicalize x = canonicalize k -> x = k.
Proof.
  intros I.
  assert (K : canonicalize k = k
              /\ (k = 36 \/ k = 163 \/ k = 165 \/ k = 8364 \/ k = 8378)%N).
  { vm_compute in I.
    repeat (destruct I as [<-|I]; [split; [reflexivity|lia]|]).
    destruct I. }
  destruct K as [-> K]. intros H.
  destruct (canonicalize_range x) as [E|R]; [congruence|].
  rewrite H in R. lia.
Qed.

Lemma slice_infix (s : jsstring) i j :
  i <= j -> j <= List.length s ->
  s = firstn i s ++ slice i j s ++ skipn j s.
Proof.
  intros L B. unfold slice.
  assert (E : skipn j s = skipn (j - i) (skipn i s)).
  { rewrite skipn_skipn. f_equal. lia. }
  rewrite E, (firstn_skipn (j - i) (skipn i s)), firstn_skipn. reflexivity.
Qed.

(** The currency test of the trigger holds of the texts that hold one of the
    markers it looks for, and of no other. *)
Lemma hint_only text :
  test currencyHint text = true -> holdsHintMarker text.
Proof.
  intros T. apply test_sound in T. destruct T as (i & j & c' & S).
  pose proof (Sem_le S) as L.
  unfold currencyHint in S. apply Sem_alts_inv in S.
  destruct S as (r & I & S).
  assert (B : j <= List.length text).
  { destruct I as [<-|I].
    - apply Sem_Chr_inv in S. destruct S as (ch & E & _ & -> & _).
      apply Nat.le_succ_l. apply nth_error_Some. congruence.
    - apply in_map_iff in I. destruct I as (w & <- & Iw).
      destruct (Nat.le_gt_cases i (List.length text)) as [A|A];
        [exact (Sem_bound S A)|].
      apply Sem_litI_inv in S. destruct S as (_ & _ & F).
      apply Forall2_length in F. unfold slice in F.
      rewrite skipn_all2, firstn_nil in F by lia. exfalso.
      repeat (destruct Iw as [<-|Iw]; [discriminate F|]). destruct Iw. }
  exists (firstn i text), (slice i j text), (skipn j text).
  split; [apply slice_infix; assumption|].
  unfold hintMarkers. apply in_or_app.
  destruct I as [<-|I].
  - left. apply Sem_Chr_inv in S. destruct S as (ch & E & P & -> & _).
    rewrite (@slice_cons _ _ _ _ E) by lia.
    unfold slice. rewrite Nat.sub_diag. cbn [firstn].
    apply existsb_exists in P. destruct P as (k & Ik & P).
    apply N.eqb_eq in P. rewrite (folded_symbol _ Ik P).
    apply in_map_iff. exists k. split; [reflexivity|exact Ik].
  - right. apply in_map_iff in I. destruct I as (w & <- & Iw).
    apply Sem_litI_inv in S. destruct S as (_ & _ & F).
    apply in_flat_map. exists (js w). split; [apply in_map; exact Iw|].
    apply folded_caseVariants; [exact F|].
    repeat (destruct Iw as [<-|Iw]; [repeat constructor|]). destruct Iw.
Qed.

(** C4 as stated fails: the rupee sign and the code INR are in the table of
    currencies, the block says "thanks", and the block is not detected. *)
Lemma rupee_with_thanks_is_not_detected :
  let el := textBlock "thanks ₹500" in
  let el' := textBlock "thanks 500 INR" in
  In (js "₹") CURRENCY_SYMBOLS /\ In (js "INR") CURRENCY_SYMBOLS
  /\ includes (js "₹") (blockText el) = true
  /\ includes (js "INR") (blockText el') = true
  /\ hasThanksWord (toLowerCase (blockText el))
  /\ hasThanksWord (toLowerCase (blockText el'))
  /\ isSuperThanksBlock el (blockText el) = false
  /\ isSuperThanksBlock el' (blockText el') = false.
Proof.
  intros el el'.
  split; [in_list|]. split; [in_list|].
  split; [vm_compute; reflexivity|]. split; [vm_compute; reflexivity|].
  split; [right; exists [], (js " ₹500"); split; vm_compute; reflexivity|].
  split; [right; exists [], (js " 500 inr"); split; vm_compute; reflexivity|].
  split; vm_compute; reflexivity.
Qed.

(** C4 (detection trigger (c)), amended.  A block whose text holds one of
    the markers of [hintMarkers] (the signs of euro, dollar, pound, yen and
    lira, and TL, TRY, USD, EUR, GBP, JPY in any mix of cases), and whose
    lower-cased text holds "teşekkür", or "thanks" at the start of a word, is
    detected, whatever the keyword list and the badge say.  The currency
    test of the trigger holds of these texts and of no other: a block with
    no keyword and no badge whose text holds none of the markers is not
    detected, whatever else it holds.  The thirteen other markers of the
    table of currencies hold none, so that "thanks" next to an amount in one
    of them is not detected. *)
Theorem cooccurrence_trigger :
  (forall (el : Element) (pre w post : jsstring),
      In w hintMarkers ->
      hasThanksWord (toLowerCase (pre ++ w ++ post)) ->
      cooccurrenceTrigger (pre ++ w ++ post) = true
      /\ isSuperThanksBlock el (pre ++ w ++ post) = true)
  /\ (forall text, test currencyHint text = true <-> holdsHintMarker text)
  /\ (forall el text,
         keywordTrigger text = false -> badge el = false ->
         ~ holdsHintMarker text ->
         cooccurrenceTrigger text = false
         /\ isSuperThanksBlock el text = false)
  /\ Forall (fun m =>
               In m CURRENCY_SYMBOLS /\ ~ holdsHintMarker m
               /\ hasThanksWord (toLowerCase (js "thanks 500 " ++ m))
               /\ hasThanksWord (toLowerCase (js "thanks " ++ m ++ js "500"))
               /\ forall el,
                   badge el = false ->
                   isSuperThanksBlock el (js "thanks 500 " ++ m) = false
                   /\ isSuperThanksBlock el (js "thanks " ++ m ++ js "500")
                      = false)
            otherMarkers.
Proof.
  assert (O : forall text, test currencyHint text = false ->
                           ~ holdsHintMarker text).
  { intros text F (pre & w & post & -> & I).
    rewrite (hint_found pre post I) in F. discriminate F. }
  split.
  { intros el pre w post I T.
    assert (C : cooccurrenceTrigger (pre ++ w ++ post) = true).
    { unfold cooccurrenceTrigger. rewrite hint_found by assumption.
      rewrite thanks_found by assumption. reflexivity. }
    split; [exact C|]. unfold isSuperThanksBlock. rewrite C.
    destruct (keywordTrigger _); [reflexivity|].
    destruct (badge el); reflexivity. }
  split.
  { intros text. split; [apply hint_only|].
    intros (pre & w & post & -> & I). apply hint_found. exact I. }
  split.
  { intros el text K B N.
    assert (C : cooccurrenceTrigger text = false).
    { unfold cooccurrenceTrigger.
      destruct (test currencyHint text) eqn:T; [|reflexivity].
      elim N. apply hint_only. exact T. }
    split; [exact C|]. unfold isSuperThanksBlock. rewrite K, B, C.
    reflexivity. }
  unfold otherMarkers. cbn [List.map].
  repeat (apply Forall_cons;
          [split; [in_list|];
           split; [apply O; vm_compute; reflexivity|];
           split; [right; eexists [], _; split; vm_compute; reflexivity|];
           split; [right; eexists [], _; split; vm_compute; reflexivity|];
           intros el B; unfold isSuperThanksBlock; rewrite B;
           split; vm_compute; reflexivity|]).
  apply Forall_nil.
Qed.

Lemma cooccurrence_trigger_witness :
  let el := textBlock "many thanks, here is 5 eur" in
  keywordTrigger (blockText el) = false /\ badge el = false
  /\ isSuperThanksBlock el (blockText el) = true.
Proof.
  intros el. split; [vm_compute; reflexivity|]. split; [reflexivity|].
  change (blockText el)
    with (js "many thanks, here is 5 " ++ js "eur" ++ []).
  destruct cooccurrence_trigger as [P _].
  apply (P el (js "many thanks, here is 5 ") (js "eur") []).
  - in_list.
  - right. exists (js "many "), (js ", here is 5 eur").
    split; vm_compute; reflexivity.
Defined.

(* ================================================================== *)
(** ** The results of the payload, block by block *)

Lemma extractLoop_acc page :
  forall results,
    extractLoop page results
    = option_map (app results) (extractLoop page []).
Proof.
  induction page as [|el rest IH]; intros results; cbn [extractLoop].
  - simpl. rewrite app_nil_r. reflexivity.
  - destruct (negb (nonEmpty (blockText el))); [apply IH|].
    destruct (negb (isSuperThanksBlock el (blockText el))); [apply IH|].
    rewrite !scanBlock_allMatches by lia.
    rewrite IH. rewrite (IH ([] ++ _)).
    destruct (extractLoop rest []) as [r|]; simpl; [|reflexivity].
    rewrite app_assoc. reflexivity.
Qed.

(* ================================================================== *)
(** ** Tables over a range of numbers *)

Lemma In_countFrom n :
  forall lo v, (lo <= v < lo + N.of_nat n)%N -> In v (countFrom lo n).
Proof.
  induction n as [|n IH]; intros lo v H; [lia|].
  cbn [countFrom]. destruct (N.eq_dec lo v); [left; assumption|].
  right. apply IH. lia.
Qed.

Lemma table_lookup (f : N -> bool) lo n v :
  forallb f (countFrom lo n) = true ->
  (lo <= v < lo + N.of_nat n)%N -> f v = true.
Proof.
  intros T H. apply (proj1 (forallb_forall _ _) T). apply In_countFrom.
  exact H.
Qed.


(* ================================================================== *)
(** ** More about the payload *)

(** X19 (normalizing twice).  [normalizeCurrency] is idempotent: a canonical
    code is left as it is, also HKD and TWD, which the table does not list
    as tokens. *)
Theorem normalizeCurrency_idempotent (c : jsstring) :
  normalizeCurrency (normalizeCurrency c) = normalizeCurrency c.
Proof.
  assert (H : normalizeCurrency c = c
               \/ In (normalizeCurrency c) canonicalCodes).
  { unfold normalizeCurrency.
    repeat (match goal with
            | |- context [jsstring_eqb c ?w] =>
              destruct (jsstring_eqb c w) eqn:?
            end; [right; cbn [orb]; in_list|]).
    left. reflexivity. }
  destruct H as [H|H]; [rewrite H; exact H|].
  revert H. generalize (normalizeCurrency c). intros x H.
  unfold canonicalCodes in H. cbn [List.map In] in H.
  repeat (destruct H as [H|H]; [subst x; vm_compute; reflexivity|]).
  contradiction.
Qed.

(** X16 (what a finding can be).  Whatever the page, the payload returns,
    and each finding it returns has one of the fifteen canonical codes as
    its currency and a finite amount that is neither negative nor [-0]: a
    token outside the table, a sign or an overflow never reaches the
    results. *)
Theorem extracted_findings_are_canonical (page : list Element) :
  exists fs,
    extractFindingsInPage page = Some fs
    /\ Forall (fun f => In (currency f) canonicalCodes
                        /\ isFinite (amount f) = true
                        /\ nonNegative (amount f) = true) fs.
Proof.
  destruct (extractFindingsInPage_spec page) as (fs & E & W).
  exists fs. split; [exact E|].
  eapply Forall_impl; [|exact W].
  intros f (_ & F & N & C). auto.
Qed.

(** X15 (block by block).  The findings of a page are the findings of its
    blocks, block after block: the payload of two lists of blocks put
    together returns the findings of the first followed by those of the
    second. *)
Theorem extraction_is_blockwise (pre post : list Element) :
  exists a b,
    extractFindingsInPage pre = Some a
    /\ extractFindingsInPage post = Some b
    /\ extractFindingsInPage (pre ++ post) = Some (a ++ b).
Proof.
  destruct (extractFindingsInPage_spec pre) as (a & Ea & _).
  destruct (extractFindingsInPage_spec post) as (b & Eb & _).
  exists a, b. split; [exact Ea|]. split; [exact Eb|].
  unfold extractFindingsInPage in *.
  rewrite extractLoop_app, Ea, extractLoop_acc, Eb. reflexivity.
Qed.

(* ================================================================== *)
(** ** More about the collection layer *)

Lemma setHas_false_iff h l : setHas h l = false <-> ~ In h l.
Proof.
  unfold setHas. split.
  - intros E I. assert (X : existsb (jsstring_eqb h) l = true).
    { apply existsb_exists. exists h. split; [exact I|].
      apply jsstring_eqb_refl. }
    congruence.
  - intros N. destruct (existsb (jsstring_eqb h) l) eqn:E; [|reflexivity].
    apply existsb_exists in E. destruct E as (x & I & E).
    apply jsstring_eqb_eq in E. subst x. contradiction.
Qed.

Lemma NoDup_snoc (A : Type) (l : list A) (x : A) :
  NoDup l -> ~ In x l -> NoDup (l ++ [x]).
Proof.
  induction 1 as [|y l Hy N IH]; simpl; intros H.
  - constructor; [intros []|constructor].
  - constructor.
    + rewrite in_app_iff. simpl. intuition congruence.
    + apply IH. tauto.
Qed.

Lemma collectOne_lockstep st f :
  lockstep st -> lockstep (fst (collectOne st f)).
Proof.
  intros [E N]. unfold collectOne.
  destruct (setHas (hashFinding f) (seen st)) eqn:S; [split; assumption|].
  split; cbn [fst seen findings].
  - rewrite map_app, E. reflexivity.
  - apply NoDup_snoc; [assumption|]. apply setHas_false_iff. assumption.
Qed.

Lemma collectLoop_lockstep fs :
  forall st acc, lockstep st -> lockstep (fst (collectLoop fs st acc)).
Proof.
  induction fs as [|f r IH]; intros st acc L; cbn [collectLoop]; [exact L|].
  pose proof (collectOne_lockstep f L) as L'.
  destruct (collectOne st f) as [st' [x|]]; apply IH; exact L'.
Qed.

Lemma collectAll_lockstep pages :
  forall st, lockstep st ->
             exists st', collectAll st pages = Some st' /\ lockstep st'.
Proof.
  induction pages as [|page rest IH]; intros st L; cbn [collectAll].
  - exists st. split; [reflexivity|exact L].
  - unfold collectAndReport.
    destruct (extractFindingsInPage_spec page) as (fs & E & _). rewrite E.
    pose proof (collectLoop_lockstep fs [] L) as L'.
    destruct (collectLoop fs st []) as [st' new]. apply IH. exact L'.
Qed.

(** X10 (log and fingerprints).  In a run, the set of fingerprints is the
    list of the fingerprints of the log, finding by finding: no two findings
    of the log have the same fingerprint, and the count of the report is the
    size of the set. *)
Theorem log_and_fingerprints_agree (pages : list (list Element)) :
  exists st,
    collectAll emptyState pages = Some st
    /\ seen st = List.map hashFinding (findings st)
    /\ NoDup (List.map hashFinding (findings st))
    /\ count (report st) = List.length (seen st).
Proof.
  destruct (@collectAll_lockstep pages emptyState) as (st & E & L1 & L2).
  { split; [reflexivity|constructor]. }
  exists st. split; [exact E|]. split; [exact L1|].
  split; [rewrite <- L1; exact L2|].
  cbn [report count]. rewrite L1, length_map. reflexivity.
Qed.

Lemma round2_nonNegative x :
  nonNegative x = true -> nonNegative (round2 x) = true.
Proof.
  intros H. unfold round2.
  assert (C : ofZ 100 = S754_finite false 7036874417766400 (-46))
    by (vm_compute; reflexivity).
  rewrite C.
  assert (M : nonNegative (mul x (S754_finite false 7036874417766400 (-46)))
              = true).
  { apply hasSign_nonNegative.
    destruct x as [[]|[]| |[] m e]; try discriminate H; try reflexivity.
    apply mul_sign; simpl; auto. }
  revert M. generalize (mul x (S754_finite false 7036874417766400 (-46))).
  clear H x. intros y M.
  assert (R : nonNegative (Math_round y) = true).
  { destruct y as [[]|[]| |[] m e]; try discriminate M; try reflexivity.
    unfold Math_round. destruct (0 <=? e)%Z eqn:E; [reflexivity|].
    apply Z.leb_gt in E. cbn [cond_Zopp].
    set (r := Z.shiftr _ _).
    assert (0 <= r)%Z.
    { unfold r. apply Z.shiftr_nonneg.
      assert (0 < 2 ^ (- e))%Z by (apply Z.pow_pos_nonneg; lia). lia. }
    destruct (r =? 0)%Z eqn:Z0; [reflexivity|].
    apply Z.eqb_neq in Z0. apply hasSign_nonNegative. apply ofZ_sign. lia. }
  revert R. generalize (Math_round y). clear M y. intros z R.
  apply hasSign_nonNegative.
  destruct z as [[]|[]| |[] m e]; try discriminate R; try reflexivity.
  unfold div, SFdiv. cbn [xorb].
  destruct (SFdiv_core_binary prec emax (Z.pos m) e
                              (Z.pos 7036874417766400) (-46))
    as [[q e'] l] eqn:D.
  apply binary_round_aux_sign.
  eapply div_core_nonneg; [| |exact D]; lia.
Qed.

(** X11 (the sign of the totals).  In a run no total is NaN, negative or
    [-0], and the same holds of every value of the snapshot that the report
    writes: rounding keeps the sign. *)
Theorem totals_are_never_negative (pages : list (list Element)) :
  exists st,
    collectAll emptyState pages = Some st
    /\ Forall (fun e => nonNegative (snd e) = true) (liveTotals st)
    /\ Forall (fun e => nonNegative (snd e) = true) (totals (report st)).
Proof.
  destruct (@collectAll_invariant pages emptyState invariant_empty)
    as (st & E & C & W & N).
  exists st. split; [exact E|].
  assert (T : Forall (fun e => nonNegative (snd e) = true) (liveTotals st)).
  { apply Forall_forall. intros [k v] I. cbn [snd].
    pose proof (@mapGet_In_Some k v _ N I) as G. rewrite (C k) in G.
    destruct (hasCurrency k (findings st)); [|discriminate].
    inversion G. apply sumAmounts_nonNegative. exact W. }
  split; [exact T|].
  cbn [report totals]. rewrite mapToSortedObject_spec by exact N.
  apply Forall_map. cbn [snd].
  destruct (sortEntries_spec (liveTotals st)) as [_ P].
  apply Forall_forall. intros e I. apply round2_nonNegative.
  revert e I. apply Forall_forall.
  eapply Permutation_Forall; [apply Permutation_sym; exact P|exact T].
Qed.

Lemma hasCurrency_In c log :
  hasCurrency c log = true <-> In c (List.map currency log).
Proof.
  unfold hasCurrency. rewrite existsb_exists, in_map_iff. split.
  - intros (f & I & E). apply jsstring_eqb_eq in E. eauto.
  - intros (f & E & I). exists f. split; [exact I|].
    apply jsstring_eqb_eq. exact E.
Qed.

Lemma mapGet_keys k (m : TotalsMap) :
  In k (List.map fst m) <-> mapGet k m <> None.
Proof.
  induction m as [|[k' v] r IH]; simpl.
  - split; [intros []|congruence].
  - destruct (jsstring_eqb k' k) eqn:E.
    + apply jsstring_eqb_eq in E. split; [discriminate|auto].
    + rewrite <- IH. split; [|auto]. intros [H|H]; [|exact H].
      subst. rewrite jsstring_eqb_refl in E. discriminate.
Qed.

(** X12 (the currencies of the report).  In a run, the currencies of the
    snapshot are the currencies of the log: a code is a key of the reported
    totals exactly when a finding of the log has it, so the totals are empty
    exactly when the count is zero. *)
Theorem reported_currencies_are_those_of_the_log
        (pages : list (list Element)) :
  exists st,
    collectAll emptyState pages = Some st
    /\ (forall c, In c (List.map fst (totals (report st)))
                  <-> In c (List.map currency (reported (report st))))
    /\ (totals (report st) = [] <-> count (report st) = 0).
Proof.
  destruct (@collectAll_invariant pages emptyState invariant_empty)
    as (st & E & C & W & N).
  exists st. split; [exact E|].
  assert (K : forall c, In c (List.map fst (totals (report st)))
                        <-> In c (List.map currency (findings st))).
  { intros c. cbn [report totals]. rewrite mapToSortedObject_spec by exact N.
    rewrite map_map. cbn [fst].
    destruct (sortEntries_spec (liveTotals st)) as [_ P].
    rewrite <- hasCurrency_In.
    transitivity (In c (List.map fst (liveTotals st))).
    - split; apply Permutation_in; apply Permutation_map;
        [exact P|apply Permutation_sym; exact P].
    - rewrite mapGet_keys, (C c).
      destruct (hasCurrency c (findings st)); split; congruence. }
  split; [exact K|].
  split.
  - intros Z. cbn [report count]. apply length_zero_iff_nil.
    destruct (findings st) as [|f r]; [reflexivity|].
    exfalso. assert (I : In (currency f) (List.map fst (totals (report st)))).
    { apply K. left. reflexivity. }
    rewrite Z in I. exact I.
  - intros Z. cbn [report count] in Z. apply length_zero_iff_nil in Z.
    destruct (totals (report st)) as [|[k v] m]; [reflexivity|].
    exfalso. assert (I : In k (List.map currency (findings st))).
    { apply K. left. reflexivity. }
    rewrite Z in I. exact I.
Qed.

(* ================================================================== *)
(** ** Findings of one block, and what the fingerprint tells apart *)

Lemma pushed_meta el text x f :
  In f (pushed el text x) ->
  author f = fst (getAuthorAndSnippet el)
  /\ snippet f = snd (getAuthorAndSnippet el).
Proof.
  unfold pushed, findingOfMatch.
  destruct (nonEmpty _ && isFinite _); [|intros []].
  destruct (getAuthorAndSnippet el) as [a sn]. intros [H|[]]. subst f.
  split; reflexivity.
Qed.

Lemma block_findings_meta el fs :
  extractFindingsInPage [el] = Some fs ->
  Forall (fun f => author f = fst (getAuthorAndSnippet el)
                   /\ snippet f = snd (getAuthorAndSnippet el)) fs.
Proof.
  unfold extractFindingsInPage. cbn [extractLoop].
  destruct (negb (nonEmpty (blockText el)));
    [intros H; inversion H; constructor|].
  destruct (negb (isSuperThanksBlock el (blockText el)));
    [intros H; inversion H; constructor|].
  rewrite scanBlock_allMatches by lia. cbn [app]. intros H. inversion H.
  apply Forall_forall. intros f I. apply in_flat_map in I.
  destruct I as (x & _ & I). eapply pushed_meta. exact I.
Qed.

Lemma collectLoop_new fs :
  forall st acc, exists more,
      snd (collectLoop fs st acc) = acc ++ more
      /\ seen (fst (collectLoop fs st acc))
         = seen st ++ List.map hashFinding more
      /\ (forall f, In f more -> In f fs)
      /\ (forall h, In h (List.map hashFinding more) -> ~ In h (seen st))
      /\ NoDup (List.map hashFinding more).
Proof.
  induction fs as [|g r IH]; intros st acc; cbn [collectLoop].
  - exists []. cbn [List.map]. rewrite !app_nil_r.
    repeat split; try reflexivity; try (intros ? []). constructor.
  - unfold collectOne.
    destruct (setHas (hashFinding g) (seen st)) eqn:S.
    + destruct (IH st acc) as (more & E1 & E2 & E3 & E4 & E5).
      exists more. repeat split; auto. intros f I. right. auto.
    + set (st' := {| findings := _ |}).
      destruct (IH st' (acc ++ [g])) as (more & E1 & E2 & E3 & E4 & E5).
      assert (S' : seen st' = seen st ++ [hashFinding g]) by reflexivity.
      exists (g :: more). rewrite E1, E2, S', <- !app_assoc. cbn [List.map app].
      split; [reflexivity|]. split; [reflexivity|]. split.
      { intros f [H|H]; [left; exact H|right; auto]. }
      split.
      { intros h [H|H].
        - subst h. apply setHas_false_iff. exact S.
        - intros I. apply (E4 h H). rewrite S'. apply in_or_app. left. exact I. }
      constructor; [|exact E5].
      intros I. apply (E4 _ I). rewrite S'. apply in_or_app. right. left.
      reflexivity.
Qed.

Lemma NoDup_map_coarser (A B C : Type) (h : A -> B) (k : A -> C) (l : list A) :
  NoDup (List.map h l) ->
  (forall x y, In x l -> In y l -> k x = k y -> h x = h y) ->
  NoDup (List.map k l).
Proof.
  induction l as [|a l IH]; cbn [List.map]; intros N H; [constructor|].
  inversion N as [|? ? Na Nl]; subst. constructor.
  - intros I. apply in_map_iff in I. destruct I as (y & E & I).
    apply Na. apply in_map_iff. exists y. split; [|exact I].
    apply H; [right; exact I|left; reflexivity|exact E].
  - apply IH; [exact Nl|]. intros x y Ix Iy. apply H; right; assumption.
Qed.

(** X13 (one block, one count).  Every finding of a block carries the author
    and the snippet of the block, so two findings of one block with the same
    currency and amount are one finding for the fingerprint: whatever the
    state, a tick on one block streams no two findings with the same
    currency and amount (a donation repeated in one comment is counted
    once). *)
Theorem repeated_amount_in_a_block_counts_once
        (st : RunState) (el : Element) :
  exists fs st' new,
    extractFindingsInPage [el] = Some fs
    /\ collectAndReport st [el] = Some (st', new)
    /\ Forall (fun f => author f = fst (getAuthorAndSnippet el)
                        /\ snippet f = snd (getAuthorAndSnippet el)) fs
    /\ NoDup (List.map hashFinding new)
    /\ NoDup (List.map (fun f => (currency f, amount f)) new).
Proof.
  destruct (extractFindingsInPage_spec [el]) as (fs & E & _).
  pose proof (@block_findings_meta _ _ E) as M.
  destruct (collectLoop_new fs st []) as (more & E1 & _ & E3 & _ & E5).
  cbn [app] in E1.
  exists fs, (fst (collectLoop fs st [])), more.
  split; [exact E|]. split.
  { unfold collectAndReport. rewrite E, <- E1.
    destruct (collectLoop fs st []); reflexivity. }
  split; [exact M|]. split; [exact E5|].
  apply NoDup_map_coarser with (h := hashFinding); [exact E5|].
  intros x y Ix Iy K. inversion K as [[Kc Ka]].
  pose proof (proj1 (Forall_forall _ _) M x (E3 x Ix)) as [Ax Sx].
  pose proof (proj1 (Forall_forall _ _) M y (E3 y Iy)) as [Ay Sy].
  unfold hashFinding. rewrite Kc, Ka, Ax, Ay, Sx, Sy. reflexivity.
Qed.

Lemma decimalDigits_digits fuel :
  forall n acc, Forall (fun c => isDigit c = true) acc ->
                Forall (fun c => isDigit c = true) (decimalDigits fuel n acc).
Proof.
  induction fuel as [|f IH]; intros n acc H; cbn [decimalDigits]; [exact H|].
  assert (D : Forall (fun c => isDigit c = true) ((48 + n mod 10)%N :: acc)).
  { constructor; [|exact H]. unfold isDigit, inRange.
    assert (B : (n mod 10 < 10)%N) by (apply N.mod_lt; discriminate).
    revert B. generalize (n mod 10)%N. intros d B.
    apply andb_true_iff. split; apply N.leb_le; lia. }
  destruct (n / 10 =? 0)%N; [exact D|]. apply IH. exact D.
Qed.

Lemma showN_digits n : Forall (fun c => isDigit c = true) (showN n).
Proof. apply decimalDigits_digits. constructor. Qed.

Lemma digit_not_pipe c : isDigit c = true -> c <> cPipe.
Proof.
  unfold isDigit, inRange, cPipe. intros H. apply andb_true_iff in H.
  destruct H as [_ H]. apply N.leb_le in H. lia.
Qed.

Lemma formatDigits_no_pipe ds n :
  Forall (fun c => c <> cPipe) ds ->
  Forall (fun c => c <> cPipe) (formatDigits ds n).
Proof.
  intros H.
  assert (Zs : forall k, Forall (fun c => c <> cPipe) (zeros k)).
  { intros k. unfold zeros. apply Forall_forall. intros c I.
    apply repeat_spec in I. subst c. discriminate. }
  assert (S : forall k, Forall (fun c => c <> cPipe) (showN k)).
  { intros k. eapply Forall_impl; [|apply showN_digits].
    exact digit_not_pipe. }
  unfold formatDigits.
  destruct (_ && _); [apply Forall_app; auto|].
  destruct (_ && _).
  { apply Forall_app. split; [apply Forall_firstn; exact H|].
    constructor; [discriminate|]. apply Forall_skipn. exact H. }
  destruct (_ && _).
  { repeat constructor; try discriminate. apply Forall_app. auto. }
  assert (X : Forall (fun c => c <> cPipe)
                     ((if (0 <? n - 1)%Z then [cPlus] else [cMinus])
                        ++ showN (Z.to_N (Z.abs (n - 1))))).
  { apply Forall_app. split; [|apply S].
    destruct (0 <? n - 1)%Z; repeat constructor; discriminate. }
  destruct ds as [|d [|d' rest]]; [constructor| |].
  - inversion H; subst. cbn [app]. constructor; [assumption|].
    constructor; [discriminate|exact X].
  - inversion H as [|? ? Hd Hr]; subst. cbn [app].
    constructor; [assumption|]. constructor; [discriminate|].
    rewrite app_comm_cons. apply Forall_app. split; [exact Hr|].
    constructor; [discriminate|exact X].
Qed.

Lemma numberToString_no_pipe x :
  Forall (fun c => c <> cPipe) (numberToString x).
Proof.
  destruct x as [sx|sx| |sx m e]; cbn [numberToString].
  - repeat constructor; discriminate.
  - destruct sx; vm_compute; repeat constructor; discriminate.
  - vm_compute. repeat constructor; discriminate.
  - destruct (if (0 <=? e)%Z then _ else _) as [num den].
    destruct (shortest _ _ _ _ _ _) as [s0 p0].
    destruct (stripZeros _ _ _) as [s1 p1].
    apply Forall_app. split.
    + destruct sx; repeat constructor; discriminate.
    + apply formatDigits_no_pipe.
      eapply Forall_impl; [|apply showN_digits]. exact digit_not_pipe.
Qed.

Lemma split_at_pipe (a b a' b' : jsstring) :
  Forall (fun c => c <> cPipe) a -> Forall (fun c => c <> cPipe) a' ->
  a ++ cPipe :: b = a' ++ cPipe :: b' -> a = a' /\ b = b'.
Proof.
  revert a'. induction a as [|x a IH]; intros [|y a'] Ha Ha' E;
    cbn [app] in E; inversion E; subst.
  - auto.
  - inversion Ha'; subst. congruence.
  - inversion Ha; subst. congruence.
  - inversion Ha; inversion Ha'; subst.
    destruct (IH a') as [E1 E2]; auto. subst. auto.
Qed.

(** X14 (what the fingerprint tells apart).  The fingerprint tells findings
    apart as long as no author holds a vertical bar: two findings with
    currencies of the table and such authors that have the same fingerprint
    have the same currency, the same printed amount, and the same author and
    snippet up to the white space around them. *)
Theorem fingerprint_separates_without_bar (f g : Finding) :
  In (currency f) canonicalCodes -> In (currency g) canonicalCodes ->
  ~ In cPipe (author f) -> ~ In cPipe (author g) ->
  hashFinding f = hashFinding g ->
  currency f = currency g
  /\ numberToString (amount f) = numberToString (amount g)
  /\ trim (author f) = trim (author g)
  /\ trim (snippet f) = trim (snippet g).
Proof.
  intros Cf Cg Af Ag H. unfold hashFinding in H. cbn [app] in H.
  assert (C : forall c, In c canonicalCodes ->
                        Forall (fun x => x <> cPipe) c).
  { intros c I. unfold canonicalCodes in I. cbn [List.map In] in I.
    repeat (destruct I as [I|I];
            [subst c; vm_compute; repeat constructor; discriminate|]).
    contradiction. }
  assert (T : forall a, ~ In cPipe a ->
                        Forall (fun x => x <> cPipe) (trim a)).
  { intros a N. apply trim_Forall. apply Forall_forall.
    intros x I E. subst x. contradiction. }
  apply split_at_pipe in H; [|apply C; assumption|apply C; assumption].
  destruct H as [H1 H]. split; [exact H1|].
  apply split_at_pipe in H; try apply numberToString_no_pipe.
  destruct H as [H2 H]. split; [exact H2|].
  apply split_at_pipe in H; [|apply T; assumption|apply T; assumption].
  exact H.
Qed.

Lemma fingerprint_separates_without_bar_witness :
  let f := {| currency := js "USD"; amount := decimal 5 0;
              author := js "ann"; snippet := js "thanks $5 " |} in
  let g := {| currency := js "USD"; amount := decimal 5 0;
              author := js " ann"; snippet := js "thanks $5" |} in
  hashFinding f = hashFinding g
  /\ currency f = currency g
  /\ numberToString (amount f) = numberToString (amount g)
  /\ trim (author f) = trim (author g)
  /\ trim (snippet f) = trim (snippet g).
Proof.
  intros f g. split; [vm_compute; reflexivity|].
  apply (@fingerprint_separates_without_bar f g).
  - in_list.
  - in_list.
  - vm_compute. intuition discriminate.
  - vm_compute. intuition discriminate.
  - vm_compute. reflexivity.
Defined.

(* ================================================================== *)
(** ** The matcher misses nothing *)

Section Completeness.
Variable s : jsstring.

Lemma starLoop_more_fuel (a : regex) k j c :
  forall fuel, List.length s - j <= fuel ->
               starLoop (rmatch s a) k fuel j c
               = starLoop (rmatch s a) k (List.length s - j) j c.
Proof.
  intros fuel L.
  replace fuel with ((fuel - (List.length s - j)) + (List.length s - j))
    by lia.
  induction (fuel - (List.length s - j)) as [|d IH]; [reflexivity|].
  cbn [Nat.add]. rewrite starLoop_fuel by lia. exact IH.
Qed.

(** Whatever [Sem] allows, the matcher finds something when the
    continuation accepts it: backtracking is exhaustive, also under
    [Star]. *)
Lemma rmatch_exhaustive r i c j c' :
  Sem s r i c j c' ->
  forall k, k j c' <> None -> rmatch s r i c k <> None.
Proof.
  induction 1 as [i c|p i c ch Hn Hp|a b i c j c' k0 c'' Ha IHa Hb IHb
                  |a b i c j c' Ha IHa|a b i c j c' Hb IHb
                  |a i c|a i c j c' k0 c'' Ha IHa Hlt Hs IHs
                  |n a i c j c' Ha IHa|c|c|i c Hw];
    intros k K; cbn [rmatch].
  - exact K.
  - unfold charAt. rewrite Hn, Hp. exact K.
  - apply IHa. apply IHb. exact K.
  - specialize (IHa k K). destruct (rmatch s a i c k); congruence.
  - destruct (rmatch s a i c k); [discriminate|]. apply IHb. exact K.
  - destruct (List.length s - i) as [|f]; cbn [starLoop]; [exact K|].
    destruct (rmatch s a i c _); [discriminate|exact K].
  - pose proof (Sem_bound_max Ha) as B.
    destruct (List.length s - i) as [|f] eqn:F; [lia|]. cbn [starLoop].
    match goal with
    | |- match ?X with _ => _ end <> None =>
      assert (N : X <> None); [|destruct X; congruence]
    end.
    apply IHa. replace (j <=? i) with false
      by (symmetry; apply Nat.leb_gt; exact Hlt).
    rewrite starLoop_more_fuel by lia.
    specialize (IHs k K). cbn [rmatch] in IHs. exact IHs.
  - apply IHa. exact K.
  - exact K.
  - rewrite Nat.eqb_refl. exact K.
  - rewrite Hw. exact K.
Qed.

Section Runs.
Variable p : char16 -> bool.

Lemma runLength_le (l : jsstring) : runLength p l <= List.length l.
Proof.
  induction l as [|c r IH]; simpl; [lia|]. destruct (p c); simpl; lia.
Qed.

(** The greedy loop on a character class runs to the end of the run, when
    the continuation accepts that. *)
Lemma starLoop_run k c :
  forall fuel i,
    List.length s - i <= fuel ->
    k (i + runLength p (skipn i s)) c <> None ->
    starLoop (rmatch s (Chr p)) k fuel i c
    = k (i + runLength p (skipn i s)) c.
Proof.
  induction fuel as [|f IH]; intros i L K.
  - cbn [starLoop]. rewrite skipn_all2 by lia. cbn [runLength].
    rewrite Nat.add_0_r. reflexivity.
  - cbn [starLoop].
    remember (fun j c' => if j <=? i then None
                          else starLoop (rmatch s (Chr p)) k f j c') as k'.
    cbn [rmatch]. unfold charAt. subst k'.
    destruct (nth_error s i) as [ch|] eqn:E.
    + rewrite (@skipn_cons_nth _ _ _ E) in *. cbn [runLength] in *.
      destruct (p ch) eqn:P.
      * replace (S i <=? i) with false by (symmetry; apply Nat.leb_gt; lia).
        replace (i + S (runLength p (skipn (S i) s)))
          with (S i + runLength p (skipn (S i) s)) in * by lia.
        assert (L' : List.length s - S i <= f) by lia.
        rewrite (IH (S i) L' K).
        destruct (k _ c); [reflexivity|congruence].
      * rewrite Nat.add_0_r. reflexivity.
    + apply nth_error_None in E. rewrite skipn_all2 by lia.
      cbn [runLength]. rewrite Nat.add_0_r. reflexivity.
Qed.

Lemma matchAt_run i :
  matchAt s (Plus (Chr p)) i =
  match nth_error s i with
  | Some ch =>
    if p ch then Some (S i + runLength p (skipn (S i) s), []) else None
  | None => None
  end.
Proof.
  unfold matchAt, Plus. cbn [rmatch]. unfold charAt.
  destruct (nth_error s i) as [ch|]; [|reflexivity].
  destruct (p ch); [|reflexivity].
  apply starLoop_run; [lia|discriminate].
Qed.

Variable repl : jsstring.

Lemma collapse_nonclass_app (a rest : jsstring) :
  Forall (fun c => p c = false) a ->
  collapse p repl false (a ++ rest) = a ++ collapse p repl false rest.
Proof.
  induction 1 as [|c a Hc Ha IH]; [reflexivity|].
  cbn [app collapse]. rewrite Hc, IH. reflexivity.
Qed.

Lemma collapse_true_skip (r : jsstring) :
  collapse p repl true r
  = collapse p repl false (skipn (runLength p r) r).
Proof.
  induction r as [|c r IH]; [reflexivity|].
  cbn [collapse runLength]. destruct (p c) eqn:P.
  - cbn [skipn app]. exact IH.
  - cbn [skipn collapse]. rewrite P. reflexivity.
Qed.

Lemma slice_nonclass i st :
  (forall x, i <= x < st -> matchAt s (Plus (Chr p)) x = None) ->
  Forall (fun c => p c = false) (slice i st s).
Proof.
  intros H. unfold slice. apply Forall_forall. intros c I.
  apply In_nth_error in I. destruct I as (n & I).
  assert (B : n < st - i).
  { assert (X : nth_error (firstn (st - i) (skipn i s)) n <> None)
      by congruence.
    apply nth_error_Some in X. rewrite length_firstn in X. lia. }
  rewrite nth_error_firstn in I.
  replace (n <? st - i) with true in I
    by (symmetry; apply Nat.ltb_lt; exact B).
  rewrite nth_error_skipn in I.
  specialize (H (i + n)). rewrite matchAt_run, I in H.
  destruct (p c); [|reflexivity]. discriminate H. lia.
Qed.

Lemma replaceAll_from_runs fuel :
  forall i, List.length s - i < fuel -> i <= List.length s ->
            replaceAll_from (Plus (Chr p)) repl s fuel i
            = collapse p repl false (skipn i s).
Proof.
  induction fuel as [|f IH]; intros i Hf Hi; [lia|].
  rewrite replaceAll_from_S. unfold exec.
  rewrite (proj2 (Nat.leb_le _ _) Hi).
  destruct (search s (Plus (Chr p)) (List.length s - i) i)
    as [[[st en] m]|] eqn:E.
  - apply search_first in E. destruct E as (M & B & N).
    rewrite matchAt_run in M.
    destruct (nth_error s st) as [ch|] eqn:C; [|discriminate].
    destruct (p ch) eqn:Pc; [|discriminate].
    assert (En : en = S st + runLength p (skipn (S st) s)) by congruence.
    clear M. subst en.
    assert (st < List.length s) by (apply nth_error_Some; congruence).
    pose proof (runLength_le (skipn (S st) s)) as R.
    rewrite length_skipn in R.
    replace (S st + runLength p (skipn (S st) s) =? st) with false
      by (symmetry; apply Nat.eqb_neq; lia).
    rewrite IH by lia.
    rewrite (@skipn_slice s i st) by lia.
    rewrite collapse_nonclass_app by (apply slice_nonclass; exact N).
    rewrite (@skipn_cons_nth _ _ _ C). cbn [collapse]. rewrite Pc.
    rewrite collapse_true_skip, skipn_skipn.
    replace (runLength p (skipn (S st) s) + S st)
      with (S st + runLength p (skipn (S st) s)) by lia.
    reflexivity.
  - pose proof (@search_none _ _ _ _ E) as N.
    assert (F : Forall (fun c => p c = false) (skipn i s)).
    { rewrite (@skipn_slice s i (List.length s)) by lia.
      rewrite skipn_all, app_nil_r.
      apply slice_nonclass. intros. apply N. lia. }
    pose proof (collapse_nonclass_app [] F) as X.
    rewrite app_nil_r in X. cbn [collapse] in X. rewrite app_nil_r in X.
    symmetry. exact X.
Qed.

(** [s.replace(/[class]+/g, repl)] replaces every run by [repl]. *)
Lemma replaceAll_runs :
  replaceAll (Plus (Chr p)) repl s = collapse p repl false s.
Proof.
  unfold replaceAll. rewrite replaceAll_from_runs by lia. reflexivity.
Qed.
End Runs.
End Completeness.

(* ================================================================== *)
(** ** Author and snippet *)

Lemma trimStart_suffix s :
  exists pre, s = pre ++ trimStart s.
Proof.
  induction s as [|c r [pre IH]]; [exists []; reflexivity|].
  cbn [trimStart]. destruct (isWhiteSpace c).
  - exists (c :: pre). cbn [app]. rewrite <- IH. reflexivity.
  - exists []. reflexivity.
Qed.

(** A trimmed string starts and ends with something that is not white
    space. *)
Lemma trim_shape s :
  trimStart (trim s) = trim s /\ trimStart (rev (trim s)) = rev (trim s).
Proof.
  unfold trim, trimEnd. set (u := trimStart s).
  pose proof (trimStart_head s) as Hu. fold u in Hu.
  pose proof (trimStart_head (rev u)) as Ht.
  destruct (trimStart_suffix (rev u)) as [pre E].
  set (t := trimStart (rev u)) in *.
  rewrite rev_involutive. split; [|apply trimStart_fixed; exact Ht].
  apply trimStart_fixed.
  assert (U : u = rev t ++ rev pre).
  { rewrite <- rev_app_distr, <- E, rev_involutive. reflexivity. }
  destruct (rev t) as [|c r]; [exact I|].
  rewrite U in Hu. exact Hu.
Qed.

Lemma trim_idempotent s : trim (trim s) = trim s.
Proof.
  destruct (trim_shape s) as [A B].
  unfold trim at 1. unfold trimEnd. rewrite A, B. apply rev_involutive.
Qed.

Lemma collapse_Forall (Q : char16 -> Prop) p repl :
  Forall Q repl ->
  forall s b, Forall (fun c => p c = false -> Q c) s ->
              Forall Q (collapse p repl b s).
Proof.
  intros R. induction s as [|c r IH]; intros b H; cbn [collapse];
    [constructor|].
  inversion H as [|? ? Hc Hr]; subst. destruct (p c) eqn:P.
  - apply Forall_app. split; [destruct b; [constructor|exact R]|].
    apply IH. exact Hr.
  - constructor; [apply Hc; reflexivity|]. apply IH. exact Hr.
Qed.

Lemma collapse_noAdjacent p x :
  forall s,
    noAdjacent p (collapse p [x] false s)
    /\ noAdjacent p (collapse p [x] true s)
    /\ match collapse p [x] true s with
       | c :: _ => p c = false
       | [] => True
       end.
Proof.
  induction s as [|c r (IH1 & IH2 & IH3)]; cbn [collapse];
    [repeat split|].
  destruct (p c) eqn:P; cbn [app].
  - split; [|split; assumption]. cbn [noAdjacent]. split; [|exact IH2].
    destruct (collapse p [x] true r) as [|b l]; [exact I|].
    rewrite IH3. apply andb_false_r.
  - assert (N : noAdjacent p (c :: collapse p [x] false r)).
    { cbn [noAdjacent]. split; [|exact IH1].
      destruct (collapse p [x] false r); [exact I|]. rewrite P. reflexivity. }
    split; [exact N|]. split; [exact N|exact P].
Qed.

Lemma noAdjacent_firstn p n :
  forall s, noAdjacent p s -> noAdjacent p (firstn n s).
Proof.
  induction n as [|n IH]; intros [|a r]; cbn [firstn noAdjacent]; auto.
  intros [H1 H2]. split; [|apply IH; exact H2].
  destruct r as [|b l]; [destruct n; exact I|].
  destruct n; [exact I|exact H1].
Qed.

Lemma collapse_head p repl c r :
  p c = false -> collapse p repl false (c :: r) = c :: collapse p repl false r.
Proof. intros H. cbn [collapse]. rewrite H. reflexivity. Qed.

(** X17 (author and snippet).  The author of a finding has no white space
    around it.  Its snippet has at most 200 code units, does not start with
    white space, and holds no white space other than single spaces: line
    breaks, tabs and runs of blanks of the comment have become one space
    each. *)
Theorem author_and_snippet_are_normalized (el : Element) :
  trim (fst (getAuthorAndSnippet el)) = fst (getAuthorAndSnippet el)
  /\ List.length (snd (getAuthorAndSnippet el)) <= 200
  /\ trimStart (snd (getAuthorAndSnippet el)) = snd (getAuthorAndSnippet el)
  /\ Forall (fun c => isWhiteSpace c = true -> c = cSpace)
            (snd (getAuthorAndSnippet el))
  /\ noAdjacent isWhiteSpace (snd (getAuthorAndSnippet el)).
Proof.
  unfold getAuthorAndSnippet. cbn [fst snd].
  set (content := match contentEl el with
                  | Some t => t
                  | None => textContent el
                  end).
  unfold spaces, space. rewrite replaceAll_runs. unfold slice.
  rewrite Nat.sub_0_r. cbn [skipn].
  split; [destruct (authorEl el); [apply trim_idempotent|reflexivity]|].
  split; [apply firstn_le_length|].
  split.
  { apply trimStart_fixed. destruct (trim_shape content) as [A _].
    pose proof (trimStart_head (trim content)) as H. rewrite A in H.
    destruct (trim content) as [|c r]; [exact I|].
    rewrite collapse_head by exact H. exact H. }
  split.
  { apply Forall_firstn. apply collapse_Forall.
    - constructor; [reflexivity|constructor].
    - apply Forall_forall. intros c _ H1 H2. congruence. }
  apply noAdjacent_firstn. apply collapse_noAdjacent.
Qed.

(* ================================================================== *)
(** ** The textual thousands after a leading currency *)

Lemma lowerChar_not_b c :
  c <> 66%N -> c <> 98%N -> Forall (fun x => x <> 98%N) (lowerChar c).
Proof.
  unfold lowerChar, isUpperAscii, inRange. intros H1 H2.
  repeat match goal with
         | |- context [if ?b then _ else _] => destruct b eqn:?
         end;
    nbool; repeat constructor; try lia.
Qed.

Lemma separator_not_b c :
  isDigit c || isSeparator c = true -> c <> 66%N /\ c <> 98%N.
Proof.
  unfold isDigit, isSeparator, isWhiteSpace, inRange, cDot, cComma, cNBSP,
    cNNBSP.
  intros H. split; intros ->; vm_compute in H; discriminate.
Qed.

Lemma rmatch_Seq s a b i c k :
  rmatch s (Seq a b) i c k = rmatch s a i c (fun j c' => rmatch s b j c' k).
Proof. reflexivity. Qed.

Lemma rmatch_Alt s a b i c k :
  rmatch s (Alt a b) i c k
  = match rmatch s a i c k with
    | Some res => Some res
    | None => rmatch s b i c k
    end.
Proof. reflexivity. Qed.

Lemma rmatch_Grp s n a i c k :
  rmatch s (Grp n a) i c k
  = rmatch s a i c (fun j c' => k j ((n, (i, j)) :: c')).
Proof. reflexivity. Qed.

(** After a digit the first alternative of [NUM_PATTERN] always matches. *)
Lemma NUM_PATTERN_first text j c ch :
  nth_error text j = Some ch -> isDigit ch = true ->
  exists e,
    Sem text (Seq (Plus digit)
                  (Seq (Star (Seq (Opt (Chr isSeparator))
                                  (Seq digit (Seq digit digit))))
                       (Opt (Seq (Chr isDotOrComma) (Seq digit (Opt digit))))))
        j c e c.
Proof.
  intros N D. exists (S j).
  eapply SemSeq; [eapply SemSeq; [eapply SemChr; eassumption|apply SemStarStop]|].
  eapply SemSeq; [apply SemStarStop|]. apply SemAltR. apply SemEps.
Qed.

(** X20 (a leading currency stops before "bin").  When the currency comes
    first, the amount is read by the first alternative of the number
    pattern, which stops before "bin": the amount handed to [normNumber] is
    made of digits and separators only, and the multiplier of [normNumber]
    is 1. *)
Theorem leading_currency_never_takes_bin
        (text : jsstring) (i st en : nat) (m : caps) :
  exec text CURRENCY_RE i = Some (st, en, m) ->
  capture 1 m <> None ->
  Forall (fun c => isDigit c || isSeparator c = true)
         (trim (jsOr (group text 2 m) (group text 3 m)))
  /\ snd (cleaned (trim (jsOr (group text 2 m) (group text 3 m)))) = false.
Proof.
  intros E C1.
  assert (M : matchAt text CURRENCY_RE st = Some (en, m)).
  { unfold exec in E. destruct (i <=? List.length text); [|discriminate].
    apply search_first in E. tauto. }
  assert (G : Forall (fun c => isDigit c || isSeparator c = true)
                     (jsOr (group text 2 m) (group text 3 m))).
  { unfold matchAt, CURRENCY_RE in M. rewrite rmatch_Alt in M.
    match type of M with
    | match ?X with _ => _ end = _ => destruct X as [res|] eqn:EL
    end.
    - inversion M; subst res; clear M.
      rewrite rmatch_Seq in EL.
      apply rmatch_sound in EL. destruct EL as (j & c1 & S1 & EL).
      apply Sem_Grp_inv in S1. destruct S1 as (c0 & S1 & ->).
      apply Sem_currency in S1. destruct S1 as [-> _].
      rewrite rmatch_Seq in EL.
      apply rmatch_sound in EL. destruct EL as (j2 & c2 & S2 & EL).
      apply Sem_groupFree in S2; [|reflexivity]. subst c2.
      rewrite rmatch_Grp in EL. unfold NUM_PATTERN in EL.
      rewrite rmatch_Alt in EL.
      match type of EL with
      | match ?X with _ => _ end = _ => destruct X as [res|] eqn:E1
      end.
      + inversion EL; subst res; clear EL.
        apply rmatch_sound in E1. destruct E1 as (e & c3 & S3 & E1).
        inversion E1; subst; clear E1.
        pose proof (Sem_accepts S3) as A.
        apply Sem_groupFree in S3; [|reflexivity]. subst c3.
        unfold group. cbn [capture Nat.eqb].
        assert (F : Forall (fun c => isDigit c || isSeparator c = true)
                           (slice j2 en text)).
        { apply slice_Forall_nth. intros x Hx.
          destruct (A x Hx) as (ch & N & Ac). exists ch. split; [exact N|].
          revert Ac. unfold Plus, Opt, digit. cbn [accepts].
          unfold isSeparator, isDotOrComma.
          destruct (isDigit ch), (ch =? cDot)%N, (ch =? cComma)%N,
            (ch =? cNBSP)%N, (ch =? cNNBSP)%N, (isWhiteSpace ch);
            cbn; auto. }
        destruct (slice j2 en text); [constructor|exact F].
      + exfalso. apply rmatch_sound in EL.
        destruct EL as (e & c3 & S3 & _).
        apply Sem_Seq_inv in S3. destruct S3 as (j3 & c4 & S3 & _).
        unfold Plus in S3. apply Sem_Seq_inv in S3.
        destruct S3 as (j4 & c5 & S3 & _).
        apply Sem_Chr_inv in S3. destruct S3 as (ch & N & D & _).
        destruct (@NUM_PATTERN_first text j2 [(1, (st, j))] ch N D)
          as (e' & S').
        revert E1. eapply rmatch_exhaustive; [exact S'|discriminate].
    - exfalso. apply rmatch_sound in M. destruct M as (e & c & S & M).
      inversion M; subst; clear M.
      apply Sem_Seq_inv in S. destruct S as (j & c1 & S1 & S2).
      apply Sem_Grp_inv in S1. destruct S1 as (c0 & S1 & ->).
      apply Sem_groupFree in S1; [|reflexivity]. subst c0.
      apply Sem_Seq_inv in S2. destruct S2 as (j2 & c2 & S2 & S3).
      apply Sem_groupFree in S2; [|reflexivity]. subst c2.
      apply Sem_Grp_inv in S3. destruct S3 as (c3 & S3 & ->).
      apply Sem_Grp_inv in S3. destruct S3 as (c4 & S3 & ->).
      apply Sem_currency in S3. destruct S3 as [-> _].
      apply C1. reflexivity. }
  split; [apply trim_Forall; exact G|].
  unfold cleaned.
  set (s0 := replaceAll _ _ (trim (toLowerCase (trim _)))).
  assert (B : Forall (fun x => x <> 98%N) s0).
  { unfold s0. apply replaceAll_Forall; [repeat constructor; discriminate|].
    apply trim_Forall. unfold toLowerCase.
    apply Forall_flat_map.
    eapply Forall_impl; [|apply trim_Forall; exact G].
    intros c H. apply separator_not_b in H. destruct H.
    apply lowerChar_not_b; assumption. }
  unfold stripBin. destruct (test binHead s0) eqn:T; [|reflexivity].
  exfalso. apply binHead_needs_b in T.
  apply (proj1 (Forall_forall _ _) B 98%N T). reflexivity.
Qed.

Lemma leading_currency_never_takes_bin_witness :
  let text := js "super thanks ₺2 bin" in
  let m := [(2, (14, 15)); (1, (13, 14))] in
  exec text CURRENCY_RE 0 = Some (13, 15, m)
  /\ option_map amount (findingOfMatch (textBlock "") text m)
     = Some (decimal 2 0)
  /\ Forall (fun c => isDigit c || isSeparator c = true)
            (trim (jsOr (group text 2 m) (group text 3 m)))
  /\ snd (cleaned (trim (jsOr (group text 2 m) (group text 3 m)))) = false.
Proof.
  intros text m. split; [vm_compute; reflexivity|].
  split; [vm_compute; reflexivity|].
  apply (@leading_currency_never_takes_bin text 0 13 15 m).
  - vm_compute. reflexivity.
  - vm_compute. discriminate.
Defined.

(* ================================================================== *)
(** ** The command line *)

(** Induction for a loop that takes one or two arguments at a time. *)
Lemma argv_ind (A : Type) (P : list A -> Prop) :
  P [] ->
  (forall a rest, P rest ->
                  (forall v rest', rest = v :: rest' -> P rest') ->
                  P (a :: rest)) ->
  forall argv, P argv.
Proof.
  intros H0 H1 argv.
  assert (G : forall n l, List.length l <= n -> P l).
  { induction n as [|n IH]; intros [|a rest] L; cbn in L; try exact H0;
      try lia.
    apply H1; [apply IH; lia|]. intros v rest' ->. apply IH. cbn in L. lia. }
  apply (G (List.length argv)). lia.
Qed.

Lemma parseLoop_cons a rest o :
  parseLoop (a :: rest) o
  = if negb (startsWith (js "--") a) && isNull (url o) then
      parseLoop rest (withUrl a o)
    else if jsstring_eqb a (js "--seconds") then
      match rest with
      | v :: rest' => parseLoop rest' (withSeconds (toNumber v) o)
      | [] => o
      end
    else if jsstring_eqb a (js "--min") then
      match rest with
      | v :: rest' => parseLoop rest' (withMin (toNumber v) o)
      | [] => o
      end
    else if jsstring_eqb a (js "--out") then
      match rest with
      | v :: rest' => parseLoop rest' (withOut v o)
      | [] => o
      end
    else if jsstring_eqb a (js "--headful") then parseLoop rest (withHeadful o)
    else parseLoop rest o.
Proof. reflexivity. Qed.

Lemma parseLoop_positional a rest o :
  startsWith (js "--") a = false -> url o = None ->
  parseLoop (a :: rest) o = parseLoop rest (withUrl a o).
Proof. intros F U. rewrite parseLoop_cons, F, U. reflexivity. Qed.

Lemma flag_tests :
  startsWith (js "--") (js "--seconds") = true
  /\ startsWith (js "--") (js "--min") = true
  /\ startsWith (js "--") (js "--out") = true
  /\ startsWith (js "--") (js "--headful") = true
  /\ jsstring_eqb (js "--min") (js "--seconds") = false
  /\ jsstring_eqb (js "--out") (js "--seconds") = false
  /\ jsstring_eqb (js "--out") (js "--min") = false
  /\ jsstring_eqb (js "--headful") (js "--seconds") = false
  /\ jsstring_eqb (js "--headful") (js "--min") = false
  /\ jsstring_eqb (js "--headful") (js "--out") = false.
Proof. repeat split; vm_compute; reflexivity. Qed.

Lemma parseLoop_seconds v rest o :
  parseLoop (js "--seconds" :: v :: rest) o
  = parseLoop rest (withSeconds (toNumber v) o).
Proof.
  destruct flag_tests as (A & _). rewrite parseLoop_cons, A.
  cbn [negb andb]. rewrite jsstring_eqb_refl. reflexivity.
Qed.

Lemma parseLoop_min v rest o :
  parseLoop (js "--min" :: v :: rest) o
  = parseLoop rest (withMin (toNumber v) o).
Proof.
  destruct flag_tests as (_ & A & _ & _ & B & _).
  rewrite parseLoop_cons, A, B.
  cbn [negb andb]. rewrite jsstring_eqb_refl. reflexivity.
Qed.

Lemma parseLoop_out v rest o :
  parseLoop (js "--out" :: v :: rest) o = parseLoop rest (withOut v o).
Proof.
  destruct flag_tests as (_ & _ & A & _ & _ & B & C & _).
  rewrite parseLoop_cons, A, B, C.
  cbn [negb andb]. rewrite jsstring_eqb_refl. reflexivity.
Qed.

Lemma parseLoop_headful rest o :
  parseLoop (js "--headful" :: rest) o = parseLoop rest (withHeadful o).
Proof.
  destruct flag_tests as (_ & _ & _ & A & _ & _ & _ & B & C & D).
  rewrite parseLoop_cons, A, B, C, D.
  cbn [negb andb]. rewrite jsstring_eqb_refl. reflexivity.
Qed.

Lemma parseLoop_url_kept argv :
  forall o u, url o = Some u -> url (parseLoop argv o) = Some u.
Proof.
  induction argv as [|a rest IH1 IH2] using argv_ind; intros o u U;
    [exact U|].
  rewrite parseLoop_cons, U. cbn [isNull]. rewrite andb_false_r.
  destruct (jsstring_eqb a (js "--seconds"));
    [destruct rest as [|v rest']; [exact U|eapply IH2; eauto]|].
  destruct (jsstring_eqb a (js "--min"));
    [destruct rest as [|v rest']; [exact U|eapply IH2; eauto]|].
  destruct (jsstring_eqb a (js "--out"));
    [destruct rest as [|v rest']; [exact U|eapply IH2; eauto]|].
  destruct (jsstring_eqb a (js "--headful")); apply IH1; exact U.
Qed.

Lemma parseLoop_url_from argv :
  forall o u, url o = None -> url (parseLoop argv o) = Some u ->
              In u argv /\ startsWith (js "--") u = false.
Proof.
  induction argv as [|a rest IH1 IH2] using argv_ind; intros o u U;
    [cbn; congruence|].
  rewrite parseLoop_cons, U. cbn [isNull]. rewrite andb_true_r.
  destruct (startsWith (js "--") a) eqn:F; cbn [negb].
  - assert (R : url (parseLoop rest o) = Some u ->
                In u (a :: rest) /\ startsWith (js "--") u = false).
    { intros H. destruct (IH1 o u U H). split; [right|]; assumption. }
    assert (R' : forall v rest' o', rest = v :: rest' -> url o' = None ->
                   url (parseLoop rest' o') = Some u ->
                   In u (a :: rest) /\ startsWith (js "--") u = false).
    { intros v rest' o' E U' H. destruct (IH2 v rest' E o' u U' H).
      subst rest. split; [right; right|]; assumption. }
    destruct (jsstring_eqb a (js "--seconds"));
      [destruct rest as [|v rest']; [congruence|eapply R'; eauto]|].
    destruct (jsstring_eqb a (js "--min"));
      [destruct rest as [|v rest']; [congruence|eapply R'; eauto]|].
    destruct (jsstring_eqb a (js "--out"));
      [destruct rest as [|v rest']; [congruence|eapply R'; eauto]|].
    destruct (jsstring_eqb a (js "--headful")); [|exact R].
    intros H. destruct (IH1 (withHeadful o) u U H).
    split; [right|]; assumption.
  - rewrite (@parseLoop_url_kept rest (withUrl a o) a eq_refl).
    intros H. inversion H; subst. split; [left; reflexivity|exact F].
Qed.

Lemma parseLoop_flags_only argv :
  Forall (fun a => startsWith (js "--") a = true) argv ->
  forall o, url (parseLoop argv o) = url o.
Proof.
  induction argv as [|a rest IH1 IH2] using argv_ind; intros F o;
    [reflexivity|].
  inversion F as [|? ? Fa Fr]; subst.
  rewrite parseLoop_cons, Fa. cbn [negb andb].
  assert (R' : forall v rest' o', rest = v :: rest' -> url o' = url o ->
                                  url (parseLoop rest' o') = url o).
  { intros v rest' o' E U. rewrite (IH2 v rest' E); [exact U|].
    subst rest. inversion Fr. assumption. }
  destruct (jsstring_eqb a (js "--seconds"));
    [destruct rest as [|v rest']; [reflexivity|eapply R'; eauto]|].
  destruct (jsstring_eqb a (js "--min"));
    [destruct rest as [|v rest']; [reflexivity|eapply R'; eauto]|].
  destruct (jsstring_eqb a (js "--out"));
    [destruct rest as [|v rest']; [reflexivity|eapply R'; eauto]|].
  destruct (jsstring_eqb a (js "--headful")); rewrite IH1; auto.
Qed.

Lemma takesValue_dashes a :
  takesValue a = true -> startsWith (js "--") a = true.
Proof.
  unfold takesValue. intros H.
  apply orb_true_iff in H. destruct H as [H|H];
    [apply orb_true_iff in H; destruct H as [H|H]|];
    apply jsstring_eqb_eq in H; subst a; reflexivity.
Qed.

(** One step of the loop while there is no URL yet. *)
Lemma parseLoop_valued a v rest o :
  takesValue a = true ->
  exists o', parseLoop (a :: v :: rest) o = parseLoop rest o'
             /\ url o' = url o.
Proof.
  unfold takesValue. intros H.
  apply orb_true_iff in H. destruct H as [H|H];
    [apply orb_true_iff in H; destruct H as [H|H]|];
    apply jsstring_eqb_eq in H; subst a.
  - rewrite parseLoop_seconds. eexists. split; reflexivity.
  - rewrite parseLoop_min. eexists. split; reflexivity.
  - rewrite parseLoop_out. eexists. split; reflexivity.
Qed.

Lemma parseLoop_valued_last a o :
  takesValue a = true -> parseLoop [a] o = o.
Proof.
  intros H. pose proof (@takesValue_dashes _ H) as D.
  rewrite parseLoop_cons, D. cbn [negb andb]. unfold takesValue in H.
  destruct (jsstring_eqb a (js "--seconds")); [reflexivity|].
  destruct (jsstring_eqb a (js "--min")); [reflexivity|].
  destruct (jsstring_eqb a (js "--out")); [reflexivity|].
  discriminate H.
Qed.

Lemma parseLoop_other a rest o :
  startsWith (js "--") a = true -> takesValue a = false ->
  exists o', parseLoop (a :: rest) o = parseLoop rest o' /\ url o' = url o.
Proof.
  unfold takesValue. intros D H.
  apply orb_false_iff in H. destruct H as [H H3].
  apply orb_false_iff in H. destruct H as [H1 H2].
  rewrite parseLoop_cons, D, H1, H2, H3. cbn [negb andb].
  destruct (jsstring_eqb a (js "--headful")); eexists; split; reflexivity.
Qed.

Lemma parseLoop_flags pre :
  flagsWithValues pre ->
  forall rest o, exists o', parseLoop (pre ++ rest) o = parseLoop rest o'
                            /\ url o' = url o.
Proof.
  induction 1 as [|a v pre T F IH|a pre D T F IH]; intros rest o.
  - exists o. split; reflexivity.
  - destruct (@parseLoop_valued a v (pre ++ rest) o T) as (o1 & E1 & U1).
    destruct (IH rest o1) as (o2 & E2 & U2).
    exists o2. cbn [app]. rewrite E1, E2. split; congruence.
  - destruct (@parseLoop_other a (pre ++ rest) o D T) as (o1 & E1 & U1).
    destruct (IH rest o1) as (o2 & E2 & U2).
    exists o2. cbn [app]. rewrite E1, E2. split; congruence.
Qed.

(** What the loop has passed when it ends: a run of flags with their values,
    then the URL if there is one, or a last flag whose value is missing. *)
Lemma parseLoop_split argv :
  forall o, url o = None ->
    match url (parseLoop argv o) with
    | Some u => exists pre post, argv = pre ++ u :: post
                                 /\ flagsWithValues pre
                                 /\ startsWith (js "--") u = false
    | None => flagsWithValues argv
              \/ exists pre a, argv = pre ++ [a] /\ flagsWithValues pre
                               /\ takesValue a = true
    end.
Proof.
  induction argv as [|a rest IH1 IH2] using argv_ind; intros o U.
  - cbn [parseLoop]. rewrite U. left. constructor.
  - destruct (startsWith (js "--") a) eqn:D.
    + destruct (takesValue a) eqn:T.
      * destruct rest as [|v rest'].
        { rewrite (@parseLoop_valued_last _ _ T), U. right.
          exists [], a. repeat split; [constructor|exact T]. }
        destruct (@parseLoop_valued a v rest' o T) as (o1 & E1 & U1).
        rewrite E1. rewrite U in U1.
        specialize (IH2 v rest' eq_refl o1 U1).
        destruct (url (parseLoop rest' o1)) as [u|].
        { destruct IH2 as (pre & post & -> & F & N).
          exists (a :: v :: pre), post.
          repeat split; [constructor; assumption|exact N]. }
        destruct IH2 as [F|(pre & b & -> & F & Tb)].
        { left. constructor; assumption. }
        right. exists (a :: v :: pre), b.
        repeat split; [constructor; assumption|exact Tb].
      * destruct (@parseLoop_other a rest o D T) as (o1 & E1 & U1).
        rewrite E1. rewrite U in U1. specialize (IH1 o1 U1).
        destruct (url (parseLoop rest o1)) as [u|].
        { destruct IH1 as (pre & post & -> & F & N).
          exists (a :: pre), post.
          repeat split; [constructor; assumption|exact N]. }
        destruct IH1 as [F|(pre & b & -> & F & Tb)].
        { left. constructor; assumption. }
        right. exists (a :: pre), b.
        repeat split; [constructor; assumption|exact Tb].
    + rewrite parseLoop_positional by assumption.
      rewrite (@parseLoop_url_kept rest (withUrl a o) a eq_refl).
      exists [], rest. repeat split; [constructor|exact D].
Qed.

(** X1 (the URL of the command line).  The URL is the first argument that
    does not start with two dashes and is not the value of a flag.  An
    argument without the dashes that comes after a run of flags, each with
    its value when it is [--seconds], [--min] or [--out], is the URL,
    whatever follows it; a URL that [parseArgs] returns is such an argument;
    and there is no URL, and the usage message is printed, exactly when the
    command line is such a run of flags, the last of them possibly without
    its value.  So the argument after [--verbose] is the URL, and the one
    after [--out] is not. *)
Theorem parseArgs_url :
  (forall pre u post,
      flagsWithValues pre -> startsWith (js "--") u = false ->
      url (parseArgs (pre ++ u :: post)) = Some u)
  /\ (forall argv u,
         url (parseArgs argv) = Some u ->
         exists pre post, argv = pre ++ u :: post /\ flagsWithValues pre
                          /\ startsWith (js "--") u = false)
  /\ (forall argv,
         url (parseArgs argv) = None
         <-> flagsWithValues argv
             \/ exists pre a, argv = pre ++ [a] /\ flagsWithValues pre
                              /\ takesValue a = true)
  /\ (forall argv, url (parseArgs argv) = None ->
                   usageError (parseArgs argv) = true)
  /\ (forall argv, Forall (fun a => startsWith (js "--") a = true) argv ->
                   url (parseArgs argv) = None)
  /\ url (parseArgs [js "--verbose"; js "A"; js "B"]) = Some (js "A")
  /\ url (parseArgs [js "--out"; js "A"; js "B"]) = Some (js "B")
  /\ parseArgs [] = defaultArgs.
Proof.
  assert (P : forall pre u post,
             flagsWithValues pre -> startsWith (js "--") u = false ->
             url (parseArgs (pre ++ u :: post)) = Some u).
  { intros pre u post F N. unfold parseArgs.
    destruct (@parseLoop_flags _ F (u :: post) defaultArgs) as (o & E & U).
    rewrite E, parseLoop_positional by (exact N || exact U).
    apply parseLoop_url_kept. reflexivity. }
  split; [exact P|].
  split.
  { intros argv u H.
    pose proof (@parseLoop_split argv defaultArgs eq_refl) as S.
    unfold parseArgs in H. rewrite H in S. exact S. }
  split.
  { intros argv. split.
    - intros H.
      pose proof (@parseLoop_split argv defaultArgs eq_refl) as S.
      unfold parseArgs in H. rewrite H in S. exact S.
    - unfold parseArgs. intros [F|(pre & a & -> & F & T)].
      + destruct (@parseLoop_flags _ F [] defaultArgs) as (o & E & U).
        rewrite app_nil_r in E. rewrite E. exact U.
      + destruct (@parseLoop_flags _ F [a] defaultArgs) as (o & E & U).
        rewrite E, (@parseLoop_valued_last _ _ T). exact U. }
  split; [intros argv H; unfold usageError; rewrite H; reflexivity|].
  split.
  { intros argv F. unfold parseArgs. rewrite (parseLoop_flags_only F).
    reflexivity. }
  split; [vm_compute; reflexivity|].
  split; [vm_compute; reflexivity|reflexivity].
Qed.

Lemma span_digits_all d :
  Forall (fun c => isDigit c = true) d -> span isDigit d = (d, []).
Proof.
  induction 1 as [|c r Hc Hr IH]; [reflexivity|].
  cbn [span]. rewrite Hc, IH. reflexivity.
Qed.

Lemma digit_facts c :
  isDigit c = true ->
  isWhiteSpace c = false /\ (c =? cMinus)%N = false
  /\ (c =? cPlus)%N = false /\ (c =? 73)%N = false.
Proof.
  intros H. destruct (isDigit_plain _ H) as (A & B & C & D & _). auto.
Qed.

(** [Number] and [parseFloat] read a string of digits in decimal. *)
Lemma toNumber_digits d :
  d <> [] -> Forall (fun c => isDigit c = true) d ->
  toNumber d = decimal (digitsValue d) 0 /\ parseFloat d = toNumber d.
Proof.
  intros Hne Hd.
  assert (W : Forall (fun c => isWhiteSpace c = false) d).
  { eapply Forall_impl; [|exact Hd]. intros c H. apply digit_facts. exact H. }
  destruct d as [|c r]; [congruence|].
  inversion Hd as [|? ? Hc Hr]; subst.
  destruct (digit_facts c Hc) as (Wc & M & P & I).
  assert (PF : parseFloat (c :: r) = decimal (digitsValue (c :: r)) 0).
  { unfold parseFloat. cbn [trimStart]. rewrite Wc, M, P.
    replace (startsWith (js "Infinity") (c :: r)) with false.
    2:{ change (js "Infinity") with (73%N :: js "nfinity"). cbn [startsWith].
        rewrite (N.eqb_sym 73 c), I. reflexivity. }
    rewrite (span_digits_all Hd). rewrite app_nil_r. reflexivity. }
  unfold toNumber. rewrite (trim_id W).
  replace (isStrDecimalLiteral (c :: r)) with true; [split; [exact PF|auto]|].
  unfold isStrDecimalLiteral. rewrite M, P. cbn [orb].
  replace (jsstring_eqb (c :: r) (js "Infinity")) with false.
  2:{ symmetry. apply jsstring_eqb_neq. intros E. inversion E. subst c.
      discriminate Hc. }
  rewrite (span_digits_all Hd). rewrite app_nil_r. reflexivity.
Qed.

(** X2 (the command line of the runner).  The runner script calls the
    program with the URL first and then [--seconds S --min M --out O] and,
    on request, [--headful].  When the URL does not start with two dashes,
    [parseArgs] reads this command line as meant, whatever the three values
    are (a value is never taken for a flag), and values made of digits are
    read in decimal. *)
Theorem parseArgs_of_the_runner (u s m o : jsstring) (h : bool) :
  startsWith (js "--") u = false ->
  parseArgs (u :: js "--seconds" :: s :: js "--min" :: m :: js "--out" :: o
               :: (if h then [js "--headful"] else []))
  = {| url := Some u; seconds := toNumber s; min := toNumber m; out := o;
       headful := h |}
  /\ (s <> [] -> Forall (fun c => isDigit c = true) s ->
      toNumber s = decimal (digitsValue s) 0).
Proof.
  intros F. split; [|intros; apply toNumber_digits; assumption].
  unfold parseArgs.
  rewrite parseLoop_positional by (exact F || reflexivity).
  rewrite parseLoop_seconds, parseLoop_min, parseLoop_out.
  destruct h; [rewrite parseLoop_headful|]; reflexivity.
Qed.

Lemma parseArgs_of_the_runner_witness :
  parseArgs [js "https://youtu.be/abc"; js "--seconds"; js "40"; js "--min";
             js "0"; js "--out"; js "--headful"]
  = {| url := Some (js "https://youtu.be/abc"); seconds := decimal 40 0;
       min := Zero; out := js "--headful"; headful := false |}.
Proof.
  destruct (@parseArgs_of_the_runner (js "https://youtu.be/abc") (js "40")
              (js "0") (js "--headful") false) as [E D];
    [vm_compute; reflexivity|].
  cbn iota in E. rewrite E. f_equal; vm_compute; reflexivity.
Defined.

(* ================================================================== *)
(** ** The output file *)

Lemma endsWith_app ext p : endsWith ext (p ++ ext) = true.
Proof. unfold endsWith. rewrite rev_app_distr. apply startsWith_app. Qed.

Lemma endsWith_suffix (ext s : jsstring) :
  endsWith ext s = true -> exists r, s = r ++ ext.
Proof.
  unfold endsWith. intros H.
  destruct (startsWith_prefix _ _ H) as [r R].
  exists (rev r).
  rewrite <- (rev_involutive s), R, rev_app_distr, rev_involutive.
  reflexivity.
Qed.

(** No upper-case ASCII letter is left by [toLowerCase]. *)
Lemma lowerChar_no_upper (c d : char16) :
  In d (lowerChar c) -> isUpperAscii d = false.
Proof.
  unfold lowerChar.
  repeat lazymatch goal with
         | |- In _ (if ?b then _ else _) -> _ => destruct b eqn:?
         end;
    cbn [In]; intros I;
    repeat match goal with
           | H : _ \/ _ |- _ => destruct H
           | H : False |- _ => destruct H
           end;
    subst d; try assumption; try reflexivity;
    repeat match goal with
           | H : isUpperAscii _ = _ |- _ => unfold isUpperAscii in H
           | H : inRange _ _ _ = true |- _ =>
             unfold inRange in H; apply andb_true_iff in H;
             let A := fresh in let B := fresh in
             destruct H as [A B]; apply N.leb_le in A, B
           | H : (_ <? _)%N = false |- _ => apply N.ltb_ge in H
           end;
    unfold isUpperAscii, inRange; apply andb_false_iff;
    first [left; apply N.leb_gt; lia | right; apply N.leb_gt; lia].
Qed.

Lemma toLowerCase_no_upper (s : jsstring) (d : char16) :
  In d (toLowerCase s) -> isUpperAscii d = false.
Proof.
  unfold toLowerCase. intros I. apply in_flat_map in I.
  destruct I as [c [_ I]]. exact (lowerChar_no_upper c d I).
Qed.

Lemma toLowerCase_app a b :
  toLowerCase (a ++ b) = toLowerCase a ++ toLowerCase b.
Proof. apply flat_map_app. Qed.

(** X5 (the extension of the report).  [ensureExt] appends an extension
    written in lower case, with code units below U+0180, at most once: the
    result ends with it, whatever the case of the letters of the path, and a
    second call changes nothing.  (Above U+0180 lower-casing keeps the
    length and yields no code unit below U+0180 but the three of the table
    of [lowerChar], so that the test of such an extension is the same on
    every path.)  The path of the report, which is built with ".json" at
    its end, is therefore left as it is.  With an extension that holds an
    upper-case ASCII letter the test never succeeds and every call appends
    it again. *)
Theorem ensureExt_appends_once :
  (forall p ext,
      forallb inCaseTable ext = true -> toLowerCase ext = ext ->
      endsWith ext (toLowerCase (ensureExt p ext)) = true
      /\ ensureExt (ensureExt p ext) ext = ensureExt p ext)
  /\ (forall a videoId d,
         jsonPath a videoId d
         = jsOr (out a) (js "super-thanks") ++ js "-" ++ videoId ++ js "-"
                ++ timeStamp d ++ js ".json")
  /\ ensureExt (js "report.JSON") (js ".json") = js "report.JSON"
  /\ (forall p ext c,
         In c ext -> isUpperAscii c = true ->
         ensureExt p ext = p ++ ext
         /\ ensureExt (ensureExt p ext) ext = (p ++ ext) ++ ext).
Proof.
  assert (A : forall p ext,
             toLowerCase ext = ext ->
             endsWith ext (toLowerCase (ensureExt p ext)) = true).
  { intros p ext L. unfold ensureExt.
    destruct (endsWith ext (toLowerCase p)) eqn:E; [exact E|].
    rewrite toLowerCase_app, L. apply endsWith_app. }
  split.
  { intros p ext _ L. split; [apply A; exact L|].
    specialize (A p ext L). unfold ensureExt at 1. rewrite A. reflexivity. }
  split; [|split; [vm_compute; reflexivity|]].
  2:{ intros p ext c I U.
      assert (B : forall q, ensureExt q ext = q ++ ext).
      { intros q. unfold ensureExt.
        destruct (endsWith ext (toLowerCase q)) eqn:E; [|reflexivity].
        apply endsWith_suffix in E. destruct E as [r E].
        assert (J : In c (toLowerCase q)).
        { rewrite E. apply in_or_app. right. exact I. }
        apply toLowerCase_no_upper in J. congruence. }
      rewrite !B. split; reflexivity. }
  intros a videoId d. unfold jsonPath, ensureExt.
  rewrite !app_assoc. rewrite toLowerCase_app.
  change (toLowerCase (js ".json")) with (js ".json").
  rewrite endsWith_app. reflexivity.
Qed.

(* ================================================================== *)
(** ** The time stamp *)

Lemma two_digits_table :
  forallb (fun v => jsstring_eqb (padStart 2 (js "0") (numberToString (ofN v)))
                                 (twoDigits v))
          (countFrom 0 100) = true.
Proof. vm_compute. reflexivity. Qed.

Lemma month_table :
  forallb (fun v => jsstring_eqb
                      (padStart 2 (js "0")
                                (numberToString (add (ofN v) (ofZ 1))))
                      (twoDigits (v + 1)))
          (countFrom 0 12) = true.
Proof. vm_compute. reflexivity. Qed.

Lemma year_table :
  forallb (fun y => jsstring_eqb (numberToString (ofN y))
                                 (twoDigits (y / 100) ++ twoDigits (y mod 100)))
          (countFrom 1000 (90 * 100)) = true.
Proof. vm_compute. reflexivity. Qed.

Lemma two_digits_order :
  forallb (fun u =>
             forallb (fun v => comparison_eqb
                                 (compareCodeUnits (twoDigits u) (twoDigits v))
                                 (u ?= v)%N)
                     (countFrom 0 100))
          (countFrom 0 100) = true.
Proof. vm_compute. reflexivity. Qed.

Lemma two_digits v :
  (v < 100)%N ->
  padStart 2 (js "0") (numberToString (ofN v)) = twoDigits v.
Proof.
  intros H. apply jsstring_eqb_eq.
  apply (@table_lookup _ _ _ v two_digits_table). lia.
Qed.

Lemma month_digits v :
  (v < 12)%N ->
  padStart 2 (js "0") (numberToString (add (ofN v) (ofZ 1)))
  = twoDigits (v + 1).
Proof.
  intros H. apply jsstring_eqb_eq.
  apply (@table_lookup _ _ _ v month_table). lia.
Qed.

Lemma year_digits y :
  (1000 <= y <= 9999)%N ->
  numberToString (ofN y) = twoDigits (y / 100) ++ twoDigits (y mod 100).
Proof.
  intros H. apply jsstring_eqb_eq.
  apply (@table_lookup _ _ _ y year_table). cbn. lia.
Qed.

Lemma compare_twoDigits u v :
  (u < 100)%N -> (v < 100)%N ->
  compareCodeUnits (twoDigits u) (twoDigits v) = (u ?= v)%N.
Proof.
  intros Hu Hv.
  assert (T : forallb (fun v => comparison_eqb
                                  (compareCodeUnits (twoDigits u) (twoDigits v))
                                  (u ?= v)%N) (countFrom 0 100) = true).
  { apply (@table_lookup _ _ _ u two_digits_order). lia. }
  pose proof (@table_lookup _ _ _ v T) as X. cbv beta in X.
  destruct (compareCodeUnits (twoDigits u) (twoDigits v)), (u ?= v)%N;
    try reflexivity; discriminate X; lia.
Qed.

Lemma compare_app a b x y :
  List.length a = List.length b ->
  compareCodeUnits (a ++ x) (b ++ y)
  = thenCompare (compareCodeUnits a b) (compareCodeUnits x y).
Proof.
  unfold compareCodeUnits. revert b.
  induction a as [|c a IH]; intros [|d b] L; try discriminate L;
    [reflexivity|].
  cbn [app localeCompare]. destruct (c ?= d)%N; try reflexivity.
  apply IH. cbn in L. lia.
Qed.

Lemma compare_refl s : compareCodeUnits s s = Eq.
Proof.
  unfold compareCodeUnits. induction s as [|c r IH]; [reflexivity|].
  cbn [localeCompare]. rewrite N.compare_refl. exact IH.
Qed.

Lemma compare_year y y' r :
  thenCompare (y / 100 ?= y' / 100)%N
              (thenCompare (y mod 100 ?= y' mod 100)%N r)
  = thenCompare (y ?= y')%N r.
Proof.
  pose proof (N.div_mod y 100) as D. pose proof (N.div_mod y' 100) as D'.
  assert (B : (y mod 100 < 100)%N) by (apply N.mod_lt; discriminate).
  assert (B' : (y' mod 100 < 100)%N) by (apply N.mod_lt; discriminate).
  revert D D' B B'.
  generalize (y / 100)%N, (y mod 100)%N, (y' / 100)%N, (y' mod 100)%N.
  intros q m q' m' D D' B B'.
  specialize (D ltac:(discriminate)). specialize (D' ltac:(discriminate)).
  destruct (N.compare_spec q q'), (N.compare_spec m m'),
    (N.compare_spec y y'); cbn [thenCompare]; try reflexivity; lia.
Qed.

(** X6 (the time stamp).  For a date with a year of four digits the time
    stamp is [YYYYMMDD-HHMMSS], fifteen code units with the month counted
    from 1 and every field but the year padded to two digits; the order of
    two such stamps by code units is the order of the dates, so that
    different seconds give different stamps. *)
Theorem timeStamp_sorts_by_date (a b : Calendar) :
  fourDigitYear a -> fourDigitYear b ->
  timeStamp (dateOf a)
  = twoDigits (year a / 100) ++ twoDigits (year a mod 100)
      ++ twoDigits (monthIndex a + 1) ++ twoDigits (day a) ++ js "-"
      ++ twoDigits (hour a) ++ twoDigits (minute a) ++ twoDigits (second a)
  /\ List.length (timeStamp (dateOf a)) = 15
  /\ compareCodeUnits (timeStamp (dateOf a)) (timeStamp (dateOf b))
     = compareCalendar a b
  /\ (timeStamp (dateOf a) = timeStamp (dateOf b) -> a = b).
Proof.
  assert (F : forall c, fourDigitYear c ->
                timeStamp (dateOf c)
                = twoDigits (year c / 100) ++ twoDigits (year c mod 100)
                    ++ twoDigits (monthIndex c + 1) ++ twoDigits (day c)
                    ++ js "-" ++ twoDigits (hour c) ++ twoDigits (minute c)
                    ++ twoDigits (second c)).
  { intros c (Y & M & D & H & Mi & S). unfold timeStamp, dateOf.
    cbn [getFullYear getMonth getDate getHours getMinutes getSeconds].
    rewrite year_digits by exact Y.
    rewrite month_digits by lia.
    rewrite !two_digits by lia.
    rewrite <- app_assoc. reflexivity. }
  intros Va Vb. split; [apply F; exact Va|].
  split; [rewrite (F a Va); reflexivity|].
  assert (C : compareCodeUnits (timeStamp (dateOf a)) (timeStamp (dateOf b))
              = compareCalendar a b).
  { rewrite (F a Va), (F b Vb).
    destruct Va as (Ya & Ma & Da & Ha & Mia & Sa).
    destruct Vb as (Yb & Mb & Db & Hb & Mib & Sb).
    assert (Qa : (year a / 100 < 100)%N)
      by (apply N.Div0.div_lt_upper_bound; lia).
    assert (Qb : (year b / 100 < 100)%N)
      by (apply N.Div0.div_lt_upper_bound; lia).
    assert (Ra : (year a mod 100 < 100)%N) by (apply N.mod_lt; discriminate).
    assert (Rb : (year b mod 100 < 100)%N) by (apply N.mod_lt; discriminate).
    repeat (rewrite compare_app by reflexivity).
    rewrite !compare_twoDigits by lia.
    change (compareCodeUnits (js "-") (js "-")) with Eq.
    cbn [thenCompare]. rewrite compare_year.
    unfold compareCalendar.
    replace (monthIndex a + 1 ?= monthIndex b + 1)%N
      with (monthIndex a ?= monthIndex b)%N; [reflexivity|].
    destruct (N.compare_spec (monthIndex a) (monthIndex b)),
      (N.compare_spec (monthIndex a + 1) (monthIndex b + 1));
      try reflexivity; lia. }
  split; [exact C|].
  intros E. rewrite E in C.
  assert (R : compareCodeUnits (timeStamp (dateOf b)) (timeStamp (dateOf b))
              = Eq).
  { apply compare_refl. }
  rewrite R in C. symmetry in C. unfold compareCalendar in C.
  destruct a as [y1 m1 d1 h1 i1 s1], b as [y2 m2 d2 h2 i2 s2].
  cbn [year monthIndex day hour minute second] in C.
  destruct (N.compare_spec y1 y2); cbn [thenCompare] in C; try discriminate C.
  destruct (N.compare_spec m1 m2); cbn [thenCompare] in C; try discriminate C.
  destruct (N.compare_spec d1 d2); cbn [thenCompare] in C; try discriminate C.
  destruct (N.compare_spec h1 h2); cbn [thenCompare] in C; try discriminate C.
  destruct (N.compare_spec i1 i2); cbn [thenCompare] in C; try discriminate C.
  apply N.compare_eq in C. subst. reflexivity.
Qed.

Lemma timeStamp_sorts_by_date_witness :
  let a := {| year := 2025; monthIndex := 0; day := 9; hour := 8;
              minute := 7; second := 6 |}%N in
  let b := {| year := 2025; monthIndex := 11; day := 31; hour := 23;
              minute := 59; second := 59 |}%N in
  timeStamp (dateOf a) = js "20250109-080706"
  /\ timeStamp (dateOf b) = js "20251231-235959"
  /\ compareCodeUnits (timeStamp (dateOf a)) (timeStamp (dateOf b)) = Lt.
Proof.
  intros a b.
  assert (Va : fourDigitYear a) by (unfold fourDigitYear; cbn; lia).
  assert (Vb : fourDigitYear b) by (unfold fourDigitYear; cbn; lia).
  destruct (@timeStamp_sorts_by_date a b Va Vb) as (Fa & _ & C & _).
  destruct (@timeStamp_sorts_by_date b a Vb Va) as (Fb & _).
  split; [rewrite Fa; vm_compute; reflexivity|].
  split; [rewrite Fb; vm_compute; reflexivity|].
  rewrite C. vm_compute. reflexivity.
Defined.

(* ================================================================== *)
(** ** The console *)

Lemma join_cons (sep x : jsstring) (r : list jsstring) :
  exists rest, join sep (x :: r) = x ++ rest.
Proof.
  destruct r as [|y r]; cbn [join]; [exists []; symmetry; apply app_nil_r|].
  eexists. reflexivity.
Qed.

Lemma jsOr_join (sep x : jsstring) (r : list jsstring) (d : jsstring) :
  x <> [] -> jsOr (join sep (x :: r)) d = join sep (x :: r).
Proof.
  intros H. destruct (join_cons sep x r) as (rest & J). rewrite J.
  destruct x; [congruence|reflexivity].
Qed.

(** X9 (the line of live totals).  In a run, the line of live totals shows
    what the report will hold as totals: the same currencies in the same
    order with the same rounded values, joined by bars, and a dash exactly
    when there is no total. *)
Theorem live_totals_line_matches_report
        (pages : list (list Element)) (prefix : jsstring) :
  exists st,
    collectAll emptyState pages = Some st
    /\ printLiveTotals prefix (liveTotals st)
       = prefix ++ js ": "
           ++ match totals (report st) with
              | [] => js "—"
              | obj =>
                join (js " | ")
                     (List.map (fun e => fst e ++ js ": "
                                             ++ numberToString (snd e)) obj)
              end.
Proof.
  destruct (@collectAll_invariant pages emptyState invariant_empty)
    as (st & E & _ & _ & N).
  exists st. split; [exact E|].
  unfold printLiveTotals. cbn [report totals].
  rewrite mapToSortedObject_spec by exact N.
  do 2 f_equal.
  destruct (sortEntries (liveTotals st)) as [|[k v] r]; [reflexivity|].
  cbn [List.map fst snd]. rewrite map_map. cbn [fst snd].
  apply jsOr_join. destruct k; discriminate.
Qed.

(* ================================================================== *)
(** ** The video URL *)

Lemma percent_table :
  forallb (fun b => forallb urlSafe (percent b)) (countFrom 0 256) = true.
Proof. vm_compute. reflexivity. Qed.

Lemma percent_safe b :
  (b < 256)%N -> Forall (fun c => urlSafe c = true) (percent b).
Proof.
  intros H. apply Forall_forall. apply forallb_forall.
  apply (@table_lookup _ _ _ b percent_table). lia.
Qed.

Lemma utf8_octets cp :
  (cp < 1114112)%N -> Forall (fun b => (b < 256)%N) (utf8 cp).
Proof.
  intros H. unfold utf8.
  assert (M : forall a, (a mod 64 < 64)%N)
    by (intros; apply N.mod_lt; discriminate).
  destruct (cp <? 128)%N eqn:E1; nbool; [repeat constructor; lia|].
  destruct (cp <? 2048)%N eqn:E2; nbool.
  { assert (cp / 64 < 32)%N by (apply N.Div0.div_lt_upper_bound; lia).
    pose proof (M cp). repeat constructor; lia. }
  destruct (cp <? 65536)%N eqn:E3; nbool.
  { assert (cp / 4096 < 16)%N by (apply N.Div0.div_lt_upper_bound; lia).
    pose proof (M cp). pose proof (M (cp / 64)%N).
    repeat constructor; lia. }
  assert (cp / 262144 < 5)%N by (apply N.Div0.div_lt_upper_bound; lia).
  pose proof (M cp). pose proof (M (cp / 64)%N). pose proof (M (cp / 4096)%N).
  repeat constructor; lia.
Qed.

Lemma escape_safe cp :
  (cp < 1114112)%N ->
  Forall (fun c => urlSafe c = true) (flat_map percent (utf8 cp)).
Proof.
  intros H. apply Forall_flat_map.
  eapply Forall_impl; [|apply utf8_octets; exact H].
  intros b. apply percent_safe.
Qed.

Lemma encodeURIComponent_cons c r :
  encodeURIComponent (c :: r)
  = if unreserved c then option_map (cons c) (encodeURIComponent r)
    else if isHighSurrogate c then
      match r with
      | d :: r' =>
        if isLowSurrogate d then
          option_map (app (flat_map percent (utf8 (codePointOfPair c d))))
                     (encodeURIComponent r')
        else None
      | [] => None
      end
    else if isLowSurrogate c then None
    else option_map (app (flat_map percent (utf8 c))) (encodeURIComponent r).
Proof. reflexivity. Qed.

Lemma codePointOfPair_bound c d :
  isHighSurrogate c = true -> isLowSurrogate d = true ->
  (codePointOfPair c d < 1114112)%N.
Proof.
  unfold isHighSurrogate, isLowSurrogate, inRange, codePointOfPair.
  intros H1 H2. nbool. lia.
Qed.

Lemma encodeURIComponent_safe s :
  Forall codeUnit s ->
  forall e, encodeURIComponent s = Some e ->
            Forall (fun c => urlSafe c = true) e.
Proof.
  induction s as [|c r IH1 IH2] using argv_ind; intros V e.
  - cbn. intros H. inversion H. constructor.
  - inversion V as [|? ? Vc Vr]; subst. unfold codeUnit in Vc.
    rewrite encodeURIComponent_cons.
    destruct (unreserved c) eqn:U.
    { destruct (encodeURIComponent r) as [e'|]; [|discriminate].
      cbn [option_map]. intros H.
      assert (e = c :: e') by congruence. subst e. constructor.
      - unfold urlSafe. rewrite U. reflexivity.
      - apply IH1; [exact Vr|reflexivity]. }
    destruct (isHighSurrogate c) eqn:Hs.
    { destruct r as [|d r']; [discriminate|].
      destruct (isLowSurrogate d) eqn:Ls; [|discriminate].
      destruct (encodeURIComponent r') as [e'|] eqn:E'; [|discriminate].
      cbn [option_map]. intros H.
      assert (e = flat_map percent (utf8 (codePointOfPair c d)) ++ e')
        by congruence.
      subst e. apply Forall_app. split.
      - apply escape_safe. apply codePointOfPair_bound; assumption.
      - apply (IH2 d r' eq_refl); [inversion Vr; assumption|exact E']. }
    destruct (isLowSurrogate c); [discriminate|].
    destruct (encodeURIComponent r) as [e'|]; [|discriminate].
    cbn [option_map]. intros H.
    assert (e = flat_map percent (utf8 c) ++ e') by congruence.
    subst e. apply Forall_app. split.
    + apply escape_safe. lia.
    + apply IH1; [exact Vr|reflexivity].
Qed.

Lemma encodeURIComponent_unreserved s :
  forallb unreserved s = true -> encodeURIComponent s = Some s.
Proof.
  induction s as [|c r IH]; [reflexivity|].
  cbn [forallb]. rewrite encodeURIComponent_cons.
  intros H. apply andb_true_iff in H. destruct H as [Hc Hr].
  rewrite Hc, (IH Hr). reflexivity.
Qed.

(** X4 (the canonical URL).  When [canonicalWatchUrl] returns, the video id
    is not empty and the URL is the watch address followed by the id with
    everything but letters, digits and [-_.!~*'()] escaped: no ampersand, no
    quote and no blank reaches the URL.  An id made of unreserved
    characters, as the ids of YouTube are, is copied as it is. *)
Theorem canonical_url_is_escaped
        (parsed : option URL) (videoId canonical : jsstring) :
  canonicalWatchUrl parsed = Some (videoId, canonical) ->
  Forall codeUnit videoId ->
  extractVideoId parsed = Some videoId
  /\ videoId <> []
  /\ (exists e, canonical = js "https://www.youtube.com/watch?v=" ++ e
                /\ encodeURIComponent videoId = Some e
                /\ Forall (fun c => urlSafe c = true) e)
  /\ ~ In 38%N canonical /\ ~ In 32%N canonical /\ ~ In 34%N canonical
  /\ (forallb unreserved videoId = true ->
      canonical = js "https://www.youtube.com/watch?v=" ++ videoId).
Proof.
  unfold canonicalWatchUrl. intros H V.
  destruct (extractVideoId parsed) as [[|c id]|]; try discriminate.
  destruct (encodeURIComponent (c :: id)) as [e|] eqn:E; [|discriminate].
  inversion H; subst; clear H.
  pose proof (encodeURIComponent_safe V E) as S.
  split; [reflexivity|]. split; [discriminate|].
  split; [exists e; auto|].
  assert (N : forall x, urlSafe x = false ->
                        ~ In x (js "https://www.youtube.com/watch?v=") ->
                        ~ In x (js "https://www.youtube.com/watch?v=" ++ e)).
  { intros x Hx Hp I. apply in_app_or in I. destruct I as [I|I]; [auto|].
    apply (proj1 (Forall_forall _ _) S) in I. congruence. }
  split; [apply N; [reflexivity|vm_compute; intuition discriminate]|].
  split; [apply N; [reflexivity|vm_compute; intuition discriminate]|].
  split; [apply N; [reflexivity|vm_compute; intuition discriminate]|].
  intros U. rewrite (encodeURIComponent_unreserved _ U) in E.
  inversion E. reflexivity.
Qed.


Lemma slice_app_shift (pre w : jsstring) a b :
  slice (List.length pre + a) (List.length pre + b) (pre ++ w) = slice a b w.
Proof.
  unfold slice. rewrite skipn_app.
  rewrite skipn_all2 by lia. cbn [app].
  replace (List.length pre + a - List.length pre) with a by lia.
  replace (List.length pre + b - (List.length pre + a)) with (b - a) by lia.
  reflexivity.
Qed.

(** A host name that ends with what the pattern spells is accepted. *)
Lemma host_suffix_accepted (a b pre : jsstring) :
  plain (litI a) = true -> plain (litI b) = true ->
  starFree (litI a) = true -> starFree (litI b) = true ->
  matchAt (a ++ cDot :: b) (litI a) 0 = Some (List.length a, []) ->
  matchAt (a ++ cDot :: b) (litI b) (S (List.length a))
  = Some (List.length (a ++ cDot :: b), []) ->
  test (Seq (litI a) (Seq (chr cDot) (Seq (litI b) Eol)))
       (pre ++ a ++ cDot :: b) = true.
Proof.
  intros Pa Pb Fa Fb Ma Mb.
  set (w := a ++ cDot :: b) in *.
  apply matchAt_sound in Ma. apply matchAt_sound in Mb.
  assert (Md : Sem w (chr cDot) (List.length a) [] (S (List.length a)) []).
  { apply SemChr with (ch := cDot); [|apply N.eqb_refl].
    unfold w. rewrite nth_error_app2 by lia. rewrite Nat.sub_diag.
    reflexivity. }
  pose proof (@Sem_embed pre [] w _ _ _ _ _ Ma Pa []) as S1.
  pose proof (@Sem_embed pre [] w _ _ _ _ _ Md eq_refl []) as S2.
  pose proof (@Sem_embed pre [] w _ _ _ _ _ Mb Pb []) as S3.
  rewrite app_nil_r in S1, S2, S3.
  apply test_complete
    with (i := List.length pre + 0) (j := List.length (pre ++ w)) (c' := []).
  - cbn [starFree]. rewrite Fa, Fb. reflexivity.
  - eapply SemSeq; [exact S1|]. eapply SemSeq; [exact S2|].
    eapply SemSeq; [exact S3|].
    rewrite <- length_app. apply SemEol.
  - rewrite length_app. lia.
Qed.

Lemma youtubeHost_accepts pre : test youtubeHost (pre ++ js "youtube.com") = true.
Proof.
  apply (@host_suffix_accepted (js "youtube") (js "com") pre);
    vm_compute; reflexivity.
Qed.

Lemma youtuBeHost_accepts pre : test youtuBeHost (pre ++ js "youtu.be") = true.
Proof.
  apply (@host_suffix_accepted (js "youtu") (js "be") pre);
    vm_compute; reflexivity.
Qed.

Lemma youtuBeHost_rejects pre :
  test youtuBeHost (pre ++ js "youtube.com") = false.
Proof.
  destruct (test youtuBeHost (pre ++ js "youtube.com")) eqn:T; [|reflexivity].
  exfalso. apply test_sound in T. destruct T as (i & j & c' & S).
  unfold youtuBeHost in S.
  apply Sem_Seq_inv in S. destruct S as (j1 & c1 & _ & S).
  apply Sem_Seq_inv in S. destruct S as (j2 & c2 & _ & S).
  apply Sem_Seq_inv in S. destruct S as (j3 & c3 & S & E).
  apply Sem_Eol_inv in E. destruct E as (E & _ & _).
  apply Sem_litI_inv in S. destruct S as (_ & J & F).
  rewrite length_app in E. change (List.length (js "be")) with 2 in J.
  change (List.length (js "youtube.com")) with 11 in E.
  replace j2 with (List.length pre + 9) in F by lia.
  replace j3 with (List.length pre + 11) in F by lia.
  rewrite slice_app_shift in F. vm_compute in F.
  inversion F as [|? ? ? ? X _]; subst. discriminate X.
Qed.

Lemma search_anchored s r fuel :
  forall i, search s (Seq Bol r) fuel (S i) = None.
Proof.
  induction fuel as [|f IH]; intros i; cbn [search];
    unfold matchAt; rewrite rmatch_Seq; cbn [rmatch Nat.eqb]; auto.
Qed.

Lemma exec_anchored s r :
  exec s (Seq Bol r) 0
  = match matchAt s (Seq Bol r) 0 with
    | Some (j, c) => Some (0, j, c)
    | None => None
    end.
Proof.
  unfold exec. cbn [Nat.leb].
  destruct (List.length s - 0) as [|f]; cbn [search];
    destruct (matchAt s (Seq Bol r) 0) as [[j c]|]; try reflexivity.
  apply search_anchored.
Qed.

Lemma rmatch_Bol s c k : rmatch s Bol 0 c k = k 0 c.
Proof. reflexivity. Qed.

Lemma rmatch_Chr s p i c k :
  rmatch s (Chr p) i c k
  = match nth_error s i with
    | Some ch => if p ch then k (S i) c else None
    | None => None
    end.
Proof. reflexivity. Qed.

Lemma rmatch_Star s a i c k :
  rmatch s (Star a) i c k = starLoop (rmatch s a) k (List.length s - i) i c.
Proof. reflexivity. Qed.

(** A literal is matched by the text it spells. *)
Lemma rmatch_lit (pre w post : jsstring) c k :
  rmatch (pre ++ w ++ post) (lit w) (List.length pre) c k
  = k (List.length pre + List.length w) c.
Proof.
  revert pre. induction w as [|x w IH]; intros pre.
  - cbn [lit rmatch List.length]. rewrite Nat.add_0_r. reflexivity.
  - assert (C : forall k', rmatch (pre ++ (x :: w) ++ post) (chr x)
                                  (List.length pre) c k'
                           = k' (S (List.length pre)) c).
    { intros k'. unfold chr. cbn [rmatch]. unfold charAt.
      rewrite nth_error_app2 by lia. rewrite Nat.sub_diag. cbn [app nth_error].
      rewrite N.eqb_refl. reflexivity. }
    destruct w as [|y w].
    + cbn [lit List.length]. rewrite C. f_equal. lia.
    + change (lit (x :: y :: w)) with (Seq (chr x) (lit (y :: w))).
      rewrite rmatch_Seq, C. cbn [app].
      specialize (IH (pre ++ [x])).
      rewrite <- !app_assoc in IH. cbn [app] in IH.
      rewrite length_app in IH. cbn [List.length] in IH.
      replace (List.length pre + 1) with (S (List.length pre)) in IH by lia.
      rewrite IH. f_equal. cbn [List.length]. lia.
Qed.

Lemma runLength_segment p (id rest : jsstring) :
  forallb p id = true ->
  match rest with c :: _ => p c = false | [] => True end ->
  runLength p (id ++ rest) = List.length id.
Proof.
  intros H R. induction id as [|c id IH].
  - destruct rest as [|d rest]; [reflexivity|]. cbn. rewrite R. reflexivity.
  - cbn [forallb] in H. apply andb_true_iff in H. destruct H as [Hc Hi].
    cbn [app runLength List.length]. rewrite Hc, (IH Hi). reflexivity.
Qed.

Lemma skipn_app_exact (A : Type) (a b : list A) :
  skipn (List.length a) (a ++ b) = b.
Proof. induction a; [reflexivity|assumption]. Qed.

(** The two path patterns on a path that starts with what they spell. *)
Lemma path_pattern_matches (w id rest : jsstring) :
  id <> [] -> forallb notDelimiter id = true -> endsSegment rest ->
  exec (w ++ id ++ rest)
       (Seq Bol (Seq (lit w) (Grp 1 (Plus (Chr notDelimiter))))) 0
  = Some (0, List.length w + List.length id,
          [(1, (List.length w, List.length w + List.length id))]).
Proof.
  intros Hne Hid Hrest. rewrite exec_anchored. unfold matchAt.
  rewrite rmatch_Seq, rmatch_Bol.
  rewrite rmatch_Seq.
  pose proof (@rmatch_lit [] w (id ++ rest)) as L. cbn [app List.length] in L.
  rewrite L. cbn [Nat.add]. rewrite rmatch_Grp. unfold Plus.
  rewrite rmatch_Seq.
  destruct id as [|x id]; [congruence|].
  cbn [forallb] in Hid. apply andb_true_iff in Hid. destruct Hid as [Hx Hid].
  rewrite rmatch_Chr.
  rewrite nth_error_app2 by lia. rewrite Nat.sub_diag. cbn [app nth_error].
  rewrite Hx. rewrite rmatch_Star.
  assert (R : runLength notDelimiter
                        (skipn (S (List.length w)) (w ++ (x :: id) ++ rest))
              = List.length id).
  { change (w ++ (x :: id) ++ rest) with (w ++ x :: (id ++ rest)).
    replace (w ++ x :: (id ++ rest)) with ((w ++ [x]) ++ id ++ rest)
      by (rewrite <- app_assoc; reflexivity).
    replace (S (List.length w)) with (List.length (w ++ [x]))
      by (rewrite length_app; cbn; lia).
    rewrite skipn_app_exact. apply runLength_segment; assumption. }
  cbn [app] in R |- *.
  match goal with
  | |- match starLoop (rmatch ?s _) ?k ?fuel ?i ?c with _ => _ end = _ =>
    rewrite (@starLoop_run s notDelimiter k c fuel i)
  end.
  - rewrite R. cbn [List.length].
    replace (S (List.length w) + List.length id)
      with (List.length w + S (List.length id)) by lia.
    reflexivity.
  - lia.
  - rewrite R. discriminate.
Qed.

Lemma livePath_rejects_shorts (tail : jsstring) :
  exec (js "/shorts/" ++ tail) livePath 0 = None.
Proof.
  unfold livePath. rewrite exec_anchored. vm_compute. reflexivity.
Qed.

Lemma split_segment sep (id r : jsstring) :
  ~ In sep id ->
  split sep id = [id] /\ split sep (id ++ sep :: r) = id :: split sep r.
Proof.
  induction id as [|c id IH]; intros N.
  - cbn [app split]. rewrite N.eqb_refl. auto.
  - assert (Hc : (c =? sep)%N = false).
    { apply N.eqb_neq. intros ->. apply N. left. reflexivity. }
    destruct IH as [I1 I2]; [intros I; apply N; right; exact I|].
    cbn [app split]. rewrite Hc, I1, I2. auto.
Qed.

Lemma first_segment k (id rest : jsstring) :
  id <> [] -> ~ In 47%N id ->
  (forall c r, rest = c :: r -> c = 47%N) ->
  exists more,
    filter nonEmpty (split 47%N (repeat 47%N k ++ id ++ rest)) = id :: more.
Proof.
  intros Hne N R. induction k as [|k IH].
  - cbn [repeat app]. destruct rest as [|c r].
    + rewrite app_nil_r. rewrite (proj1 (@split_segment 47%N id [] N)).
      cbn [filter]. destruct id; [congruence|]. cbn. eauto.
    + rewrite (R c r eq_refl). rewrite (proj2 (@split_segment 47%N id r N)).
      cbn [filter]. destruct id; [congruence|]. cbn [nonEmpty]. eauto.
  - cbn [repeat app split]. rewrite N.eqb_refl. cbn [filter nonEmpty].
    exact IH.
Qed.

(** X3 (the addresses of a video).  A URL that does not parse gives [null].
    On a host that ends with "youtube.com", the path "/watch" gives the
    first [v] parameter, and a path that starts with "/live/" or "/shorts/"
    gives what follows up to the next slash, question mark or hash.  On a
    host that ends with "youtu.be" the id is the first segment of the path
    that is not empty.  The host is tested at its end only. *)
Theorem extractVideoId_reads_the_usual_addresses :
  extractVideoId None = None
  /\ (forall pre ps,
         extractVideoId (Some {| hostname := pre ++ js "youtube.com";
                                 pathname := js "/watch";
                                 searchParams := ps |})
         = searchParamsGet (js "v") ps)
  /\ (forall pre kind id rest ps,
         kind = js "/live/" \/ kind = js "/shorts/" ->
         id <> [] -> forallb notDelimiter id = true -> endsSegment rest ->
         extractVideoId (Some {| hostname := pre ++ js "youtube.com";
                                 pathname := kind ++ id ++ rest;
                                 searchParams := ps |})
         = Some id)
  /\ (forall pre k id rest ps,
         id <> [] -> ~ In 47%N id -> (forall c r, rest = c :: r -> c = 47%N) ->
         extractVideoId (Some {| hostname := pre ++ js "youtu.be";
                                 pathname := repeat 47%N k ++ id ++ rest;
                                 searchParams := ps |})
         = Some id)
  /\ (forall pre k ps,
         extractVideoId (Some {| hostname := pre ++ js "youtu.be";
                                 pathname := repeat 47%N k;
                                 searchParams := ps |})
         = None).
Proof.
  split; [reflexivity|].
  split.
  { intros pre ps. unfold extractVideoId. cbn [hostname pathname searchParams].
    rewrite youtuBeHost_rejects, youtubeHost_accepts.
    rewrite jsstring_eqb_refl. reflexivity. }
  split.
  { intros pre kind id rest ps K Hne Hid Hrest. unfold extractVideoId.
    cbn [hostname pathname searchParams].
    rewrite youtuBeHost_rejects, youtubeHost_accepts.
    assert (W : jsstring_eqb (kind ++ id ++ rest) (js "/watch") = false).
    { apply jsstring_eqb_neq. intros E.
      destruct K as [-> | ->]; vm_compute in E; discriminate E. }
    rewrite W.
    assert (G : forall w : jsstring,
               group (w ++ id ++ rest) 1
                     [(1, (List.length w, List.length w + List.length id))]
               = id).
    { intros w. unfold group. cbn [capture Nat.eqb].
      pose proof (@slice_app_shift w (id ++ rest) 0 (List.length id)) as S.
      rewrite Nat.add_0_r in S. rewrite S. unfold slice.
      rewrite Nat.sub_0_r. cbn [skipn]. rewrite firstn_app, Nat.sub_diag.
      rewrite firstn_all, firstn_O. apply app_nil_r. }
    destruct K as [-> | ->].
    - unfold livePath. rewrite path_pattern_matches by assumption.
      rewrite G. reflexivity.
    - rewrite livePath_rejects_shorts.
      unfold shortsPath. rewrite path_pattern_matches by assumption.
      rewrite G. reflexivity. }
  split.
  { intros pre k id rest ps Hne N R. unfold extractVideoId.
    cbn [hostname pathname searchParams]. rewrite youtuBeHost_accepts.
    destruct (@first_segment k id rest Hne N R) as (more & F).
    unfold jsstring, char16 in *. rewrite F. reflexivity. }
  intros pre k ps. unfold extractVideoId.
  cbn [hostname pathname searchParams]. rewrite youtuBeHost_accepts.
  replace (filter nonEmpty (split 47%N (repeat 47%N k))) with (@nil jsstring);
    [reflexivity|].
  induction k as [|k IH]; [reflexivity|].
  cbn [repeat split]. rewrite N.eqb_refl. cbn [filter nonEmpty]. exact IH.
Qed.

Lemma canonical_url_is_escaped_witness :
  let parsed := Some {| hostname := js "www.youtube.com";
                        pathname := js "/watch";
                        searchParams := [(js "v", js "a b&c");
                                         (js "ab_channel", js "x")] |} in
  canonicalWatchUrl parsed
  = Some (js "a b&c", js "https://www.youtube.com/watch?v=a%20b%26c")
  /\ ~ In 38%N (js "https://www.youtube.com/watch?v=a%20b%26c").
Proof.
  intros parsed.
  assert (E : canonicalWatchUrl parsed
              = Some (js "a b&c",
                      js "https://www.youtube.com/watch?v=a%20b%26c"))
    by (vm_compute; reflexivity).
  split; [exact E|].
  apply (@canonical_url_is_escaped parsed (js "a b&c") _ E).
  repeat (apply Forall_cons; [reflexivity|]). apply Forall_nil.
Defined.

(* ================================================================== *)
(** ** Scrolling the comments *)

Lemma jumpsWithin_step s :
  s < 12 ->
  jumpsWithin (S s) = (if S s mod 4 =? 0 then 1 else 0) + jumpsWithin s.
Proof.
  intros H. do 12 (destruct s as [|s]; [reflexivity|]). lia.
Qed.

Lemma jumpsWithin_cycle m : jumpsWithin (13 + m) = 3 + jumpsWithin m.
Proof.
  unfold jumpsWithin.
  replace (13 + m) with (m + 1 * 13) by lia.
  rewrite Nat.div_add, Nat.Div0.mod_add by lia.
  generalize (m / 13), (m mod 13 / 4). intros a b. lia.
Qed.

Lemma countEvents_app p a b :
  countEvents p (a ++ b) = countEvents p a + countEvents p b.
Proof. unfold countEvents. rewrite filter_app, length_app. reflexivity. Qed.

Lemma stagnant_run deadline minBlocks trace :
  truthy minBlocks = false ->
  forall lastCount s,
    s <= 12 -> stagnant deadline lastCount trace ->
    let events := scrollLoop deadline minBlocks trace lastCount s in
    countEvents isTick events = List.length trace
    /\ countEvents isMount events = (s + List.length trace) / 13
    /\ countEvents isJump events + jumpsWithin s
       = jumpsWithin (s + List.length trace).
Proof.
  intros M. induction trace as [|[now count] rest IH]; intros lastCount s S12 St.
  - cbn [scrollLoop List.length]. rewrite Nat.add_0_r.
    rewrite Nat.div_small by lia. cbn. auto.
  - destruct St as (L & C & St). cbn [scrollLoop]. rewrite L, M.
    cbn [andb]. replace (count <=? lastCount) with true
      by (symmetry; apply Nat.leb_le; exact C).
    cbv zeta. cbn [List.length].
    destruct (Nat.eq_dec s 12) as [->|Ns].
    + change (13 mod 4 =? 0) with false. change (12 <? 13) with true.
      cbn [app].
      destruct (IH count 0 ltac:(lia) St) as (T & Mo & J).
      cbn [Nat.add] in Mo, J.
      unfold countEvents in *. cbn [filter isTick isMount isJump List.length].
      rewrite T, Mo. split; [reflexivity|]. split.
      * replace (12 + S (List.length rest))
          with (List.length rest + 1 * 13) by lia.
        rewrite Nat.div_add by lia.
        generalize (List.length rest / 13). intros a. lia.
      * replace (12 + S (List.length rest)) with (13 + List.length rest)
          by lia.
        rewrite jumpsWithin_cycle. change (jumpsWithin 12) with 3.
        change (jumpsWithin 0) with 0 in J. lia.
    + replace (12 <? S s) with false by (symmetry; apply Nat.ltb_ge; lia).
      destruct (IH count (S s) ltac:(lia) St) as (T & Mo & J).
      replace (s + S (List.length rest)) with (S s + List.length rest) by lia.
      rewrite <- J, <- Mo. rewrite jumpsWithin_step by lia.
      set (R := scrollLoop deadline minBlocks rest count (S s)) in *.
      match goal with
      | |- context [Scroll :: Tick :: ?j ++ R] =>
        change (Scroll :: Tick :: j ++ R) with ([Scroll; Tick] ++ j ++ R)
      end.
      rewrite !countEvents_app, T.
      destruct (S s mod 4 =? 0); cbn; lia.
Qed.

(** X7 (scrolling without progress).  While the count of comment blocks does
    not grow, the loop counts the ticks: every 4th, 8th and 12th of them
    jumps to the bottom of the page, and the 13th mounts the comments again
    and starts the count anew.  From a reset counter, [n] such ticks before
    the deadline call [onTick] [n] times, mount the comments [n / 13] times
    and jump [3 * (n / 13) + (n mod 13) / 4] times, when [minBlocks] is 0
    (or NaN). *)
Theorem stagnant_scrolling
        (deadline minBlocks : number) (lastCount : nat)
        (trace : list (number * nat)) :
  truthy minBlocks = false ->
  stagnant deadline lastCount trace ->
  let events := scrollLoop deadline minBlocks trace lastCount 0 in
  let n := List.length trace in
  countEvents isTick events = n
  /\ countEvents isMount events = n / 13
  /\ countEvents isJump events = 3 * (n / 13) + (n mod 13) / 4.
Proof.
  intros M St.
  destruct (@stagnant_run deadline minBlocks trace M lastCount 0
                          ltac:(lia) St) as (T & Mo & J).
  cbn [Nat.add] in Mo, J. change (jumpsWithin 0) with 0 in J.
  rewrite Nat.add_0_r in J. cbv zeta. auto.
Qed.

Lemma stagnant_scrolling_witness :
  let trace := List.map (fun k => (ofZ (Z.of_nat k), 7)) (seq 1 30) in
  let events := scrollLoop (ofZ 1000) Zero trace 7 0 in
  countEvents isTick events = 30
  /\ countEvents isMount events = 2
  /\ countEvents isJump events = 7.
Proof.
  intros trace events.
  apply (@stagnant_scrolling (ofZ 1000) Zero 7 trace).
  - reflexivity.
  - vm_compute. repeat split; lia.
Defined.

Lemma never_stops_early deadline minBlocks trace :
  truthy minBlocks = false ->
  Forall (fun e => SFltb (fst e) deadline = true) trace ->
  forall lastCount s,
    countEvents isTick (scrollLoop deadline minBlocks trace lastCount s)
    = List.length trace.
Proof.
  intros M. induction 1 as [|[now count] rest L F IH]; intros lastCount s;
    [reflexivity|].
  cbn [fst] in L. cbn [scrollLoop]. rewrite L, M. cbn [andb]. cbv zeta.
  match goal with
  | |- countEvents _ (Scroll :: Tick :: ?X) = _ =>
    change (Scroll :: Tick :: X) with ([Scroll; Tick] ++ X)
  end.
  rewrite countEvents_app. cbn [List.length].
  change (countEvents isTick [Scroll; Tick]) with 1.
  destruct (count <=? lastCount); [|rewrite IH; reflexivity].
  rewrite countEvents_app.
  destruct (12 <? S s).
  - change (EnsureMounted :: ?X) with ([EnsureMounted] ++ X).
    rewrite countEvents_app, IH. destruct (S s mod 4 =? 0); reflexivity.
  - rewrite IH. destruct (S s mod 4 =? 0); reflexivity.
Qed.

(** X8 (the deadline and the early stop).  With [seconds] NaN (a [--seconds]
    that is not a number) the deadline is NaN and the loop does not run
    once: the comments are mounted and [onTick] is never called.  With
    [minBlocks] 0 or NaN the loop never stops early: it calls [onTick] at
    every iteration the clock allows.  With a negative [minBlocks] it stops
    after its first iteration, whatever the count. *)
Theorem scrolling_deadline_and_early_stop :
  (forall minBlocks start trace,
      autoScrollComments NaN minBlocks start trace = [EnsureMounted])
  /\ (forall seconds minBlocks start trace,
         truthy minBlocks = false ->
         Forall (fun e => SFltb (fst e)
                                (add start (mul seconds (ofZ 1000))) = true)
                trace ->
         countEvents isTick (autoScrollComments seconds minBlocks start trace)
         = List.length trace)
  /\ (forall deadline m e now count rest lastCount s,
         SFltb now deadline = true ->
         scrollLoop deadline (S754_finite true m e) ((now, count) :: rest)
                    lastCount s
         = [Scroll; Tick]).
Proof.
  split.
  { intros minBlocks start trace. unfold autoScrollComments.
    assert (D : add start (mul NaN (ofZ 1000)) = NaN)
      by (destruct start as [[]|[]| |[] m e]; reflexivity).
    rewrite D. destruct trace as [|[now count] rest]; [reflexivity|].
    cbn [scrollLoop].
    replace (SFltb now NaN) with false
      by (destruct now as [[]|[]| |[] m e]; reflexivity).
    reflexivity. }
  split.
  { intros seconds minBlocks start trace M F. unfold autoScrollComments.
    cbv zeta.
    change (EnsureMounted :: ?X) with ([EnsureMounted] ++ X).
    rewrite countEvents_app. rewrite never_stops_early by assumption.
    reflexivity. }
  intros deadline m e now count rest lastCount s L.
  cbn [scrollLoop]. rewrite L. cbn [truthy andb].
  replace (SFleb (S754_finite true m e) (ofZ (Z.of_nat count))) with true;
    [reflexivity|].
  symmetry. unfold SFleb.
  pose proof (Nat2Z.is_nonneg count) as P.
  destruct (Z.of_nat count) as [|p|p] eqn:Zc; [reflexivity| |lia].
  pose proof (@ofZ_sign (Z.pos p) ltac:(lia)) as Sg.
  destruct (ofZ (Z.pos p)) as [[]|[]| |[] m' e']; cbn in Sg;
    try discriminate Sg; try contradiction; reflexivity.
Qed.

(* ================================================================== *)
(** ** The textual thousands *)

Lemma lowerChar_whiteSpace c : isWhiteSpace c = true -> lowerChar c = [c].
Proof.
  unfold isWhiteSpace, inRange. intros H.
  repeat (apply orb_true_iff in H; destruct H as [H|H]);
    try (apply N.eqb_eq in H; subst c; reflexivity);
    unfold lowerChar, isUpperAscii, inRange;
    apply andb_true_iff in H; destruct H as [H1 H2];
    apply N.leb_le in H1, H2;
    repeat match goal with
           | |- context [if ?b then _ else _] => destruct b eqn:?
           end;
    nbool; try reflexivity; lia.
Qed.

Lemma trim_fixed s :
  trimStart s = s -> trimStart (rev s) = rev s -> trim s = s.
Proof.
  intros A B. unfold trim, trimEnd. rewrite A, B. apply rev_involutive.
Qed.

Lemma star_class_stuck s p i c k ch :
  nth_error s i = Some ch -> p ch = false ->
  rmatch s (Star (Chr p)) i c k = k i c.
Proof.
  intros E P. rewrite rmatch_Star.
  destruct (List.length s - i) as [|f]; [reflexivity|].
  cbn [starLoop]. rewrite rmatch_Chr, E, P. reflexivity.
Qed.

Lemma search_finds s r st en m :
  matchAt s r st = Some (en, m) ->
  forall fuel i,
    i <= st <= i + fuel ->
    (forall x, i <= x < st -> matchAt s r x = None) ->
    search s r fuel i = Some (st, en, m).
Proof.
  intros M. induction fuel as [|f IH]; intros i B N.
  - assert (i = st) by lia. subst i. cbn [search]. rewrite M. reflexivity.
  - cbn [search]. destruct (Nat.eq_dec i st) as [->|Ne].
    + rewrite M. reflexivity.
    + rewrite (N i) by lia. apply IH; [lia|]. intros x Hx. apply N. lia.
Qed.

Section Thousands.
Variables d w : jsstring.
Hypothesis d_nonempty : d <> [].
Hypothesis d_digits : digits d.
Hypothesis w_space : Forall (fun c => isWhiteSpace c = true) w.

Let s := d ++ w ++ js "bin".

Lemma nth_in_digits x : x < List.length d ->
  exists ch, nth_error s x = Some ch /\ isDigit ch = true.
Proof.
  intros H. destruct (nth_error d x) as [ch|] eqn:E.
  - exists ch. split.
    + unfold s. rewrite nth_error_app1 by exact H. exact E.
    + apply nth_error_In in E.
      exact (proj1 (Forall_forall _ _) d_digits ch E).
  - apply nth_error_None in E. lia.
Qed.

Lemma run_of_digits :
  runLength isDigit (skipn 1 s) = List.length d - 1.
Proof.
  unfold s. destruct d as [|c r]; [congruence|].
  replace (List.length (c :: r) - 1) with (List.length r) by (cbn; lia).
  cbn [app skipn].
  apply runLength_segment.
  - inversion d_digits as [|? ? _ Hr]; subst.
    apply forallb_forall. intros x I.
    exact (proj1 (Forall_forall _ _) Hr x I).
  - destruct w as [|x w']; [reflexivity|].
    inversion w_space as [|? ? Hx _]; subst. cbn [app].
    destruct (isDigit x) eqn:D; [|reflexivity].
    destruct (isDigit_plain x D) as (W & _). congruence.
Qed.

Lemma run_of_spaces :
  runLength isWhiteSpace (skipn (List.length d) s) = List.length w.
Proof.
  unfold s. rewrite skipn_app_exact. apply runLength_segment.
  - apply forallb_forall. intros x I.
    exact (proj1 (Forall_forall _ _) w_space x I).
  - reflexivity.
Qed.

Lemma word_ends : wordBoundary s (List.length s) = true.
Proof.
  unfold wordBoundary, isWordAt, charAt.
  assert (L : List.length s = S (List.length (d ++ w) + 2)).
  { unfold s. rewrite app_assoc, length_app. cbn. lia. }
  rewrite L.
  replace (nth_error s (S (List.length (d ++ w) + 2))) with (@None char16)
    by (symmetry; apply nth_error_None; lia).
  unfold s. rewrite app_assoc. rewrite nth_error_app2 by lia.
  replace (List.length (d ++ w) + 2 - List.length (d ++ w)) with 2 by lia.
  reflexivity.
Qed.

(** What follows the digits in both patterns: [\s*bin\b] from the end of
    the digits on. *)
Lemma suffix_matches c :
  rmatch s binSuffix (List.length d) c (fun j c' => Some (j, c'))
  = Some (List.length s, c).
Proof.
  unfold binSuffix, space. rewrite rmatch_Seq, rmatch_Star.
  assert (E : List.length d + List.length w + 3 = List.length s).
  { unfold s. rewrite !length_app. cbn. lia. }
  assert (K : rmatch s (Seq (lit (js "bin")) WordB)
                     (List.length d + List.length w) c
                     (fun j c' => Some (j, c'))
              = Some (List.length s, c)).
  { rewrite rmatch_Seq.
    pose proof (@rmatch_lit (d ++ w) (js "bin") [] c) as L.
    rewrite app_nil_r, <- app_assoc, length_app in L. fold s in L.
    rewrite L. change (List.length (js "bin")) with 3. rewrite E.
    cbn [rmatch]. rewrite word_ends. reflexivity. }
  rewrite starLoop_run.
  - rewrite run_of_spaces. exact K.
  - lia.
  - rewrite run_of_spaces, K. discriminate.
Qed.

Lemma binHead_matches : test binHead s = true.
Proof.
  unfold test, binHead. rewrite exec_anchored. unfold matchAt.
  change (Seq (Star space) (Seq (lit (js "bin")) WordB)) with binSuffix.
  rewrite rmatch_Seq, rmatch_Bol, rmatch_Seq, rmatch_Grp.
  unfold Plus, digit. rewrite rmatch_Seq, rmatch_Chr.
  destruct (@nth_in_digits 0) as (ch & E & D).
  { destruct d; [congruence|cbn; lia]. }
  rewrite E, D. rewrite rmatch_Star.
  assert (R : 1 + runLength isDigit (skipn 1 s) = List.length d).
  { rewrite run_of_digits. destruct d; [congruence|cbn; lia]. }
  pose proof (suffix_matches [(1, (0, List.length d))]) as X.
  rewrite starLoop_run.
  - rewrite R, X. reflexivity.
  - lia.
  - rewrite R, X. discriminate.
Qed.

Lemma binSuffix_removed : replace binSuffix [] s = d.
Proof.
  unfold replace, exec. cbn [Nat.leb].
  rewrite (@search_finds s binSuffix (List.length d) (List.length s) []).
  - cbn [app]. rewrite skipn_all, app_nil_r. unfold s.
    rewrite firstn_app, Nat.sub_diag, firstn_all, firstn_O.
    apply app_nil_r.
  - apply suffix_matches.
  - unfold s. rewrite length_app. lia.
  - intros x Hx. destruct (@nth_in_digits x) as (ch & E & D); [lia|].
    destruct (isDigit_plain ch D) as (W & _ & _ & _ & _).
    unfold matchAt, binSuffix, space. rewrite rmatch_Seq.
    rewrite (@star_class_stuck s isWhiteSpace x [] _ ch E W).
    cbv beta. rewrite rmatch_Seq, lit_bin, rmatch_Seq. unfold chr.
    rewrite rmatch_Chr, E.
    replace (98 =? ch)%N with false; [reflexivity|].
    symmetry. apply N.eqb_neq. intros <-. discriminate D.
Qed.
End Thousands.

Lemma digits_fixed d :
  digits d ->
  toLowerCase d = d /\ trim d = d
  /\ Forall (fun c => isWhiteSpace c = false) d.
Proof.
  intros H. pose proof (digits_numeral H) as Nm.
  assert (W : Forall (fun c => isWhiteSpace c = false) d).
  { eapply Forall_impl; [|exact Nm]. intros c Hc.
    apply numeralChar_facts. exact Hc. }
  split; [|split; [apply trim_id; exact W|exact W]].
  apply flat_map_singleton. eapply Forall_impl; [|exact Nm].
  intros c Hc. apply numeralChar_facts. exact Hc.
Qed.

(** X21 (the textual thousands).  A run of digits, white space or none, and
    "bin" in any case of its letters: [normNumber] takes the digits for the
    number and multiplies it by 1000. *)
Theorem thousands_word (d w b : jsstring) :
  d <> [] -> digits d ->
  Forall (fun c => isWhiteSpace c = true) w ->
  toLowerCase b = js "bin" ->
  cleaned (d ++ w ++ b) = (d, true)
  /\ normNumber (d ++ w ++ b)
     = if isFinite (decimal (digitsValue d) 0)
       then mul (decimal (digitsValue d) 0) (ofZ 1000)
       else NaN.
Proof.
  intros Hne Hd Hw Hb.
  destruct (digits_fixed Hd) as (Ld & Td & Wd).
  assert (C : cleaned (d ++ w ++ b) = (d, true)).
  { unfold cleaned. rewrite !toLowerCase_app, Ld, Hb.
    assert (Lw : toLowerCase w = w).
    { apply flat_map_singleton. eapply Forall_impl; [|exact Hw].
      intros c. apply lowerChar_whiteSpace. }
    rewrite Lw.
    assert (T : trim (d ++ w ++ js "bin") = d ++ w ++ js "bin").
    { apply trim_fixed.
      - destruct d as [|c r]; [congruence|]. inversion Wd; subst.
        apply trimStart_fixed. assumption.
      - rewrite !rev_app_distr. reflexivity. }
    rewrite T.
    set (cls := fun c => (cNBSP =? c)%N || (cNNBSP =? c)%N).
    set (w' := flat_map (replaceClass cls [cSpace]) w).
    assert (R : replaceAll (Alt (chr cNBSP) (chr cNNBSP)) [cSpace]
                           (d ++ w ++ js "bin")
                = d ++ w' ++ js "bin").
    { rewrite (@replaceAll_ext (d ++ w ++ js "bin") _ _ [cSpace]
                 (matchAt_two_chars (d ++ w ++ js "bin") cNBSP cNNBSP)).
      rewrite replaceAll_class, !flat_map_app. f_equal.
      apply flat_map_singleton. eapply Forall_impl; [|exact (digits_numeral Hd)].
      intros c Hc. unfold replaceClass.
      destruct (numeralChar_facts c Hc) as (_ & _ & -> & -> & _).
      reflexivity. }
    rewrite R.
    assert (W' : Forall (fun c => isWhiteSpace c = true) w').
    { unfold w'. apply Forall_flat_map. eapply Forall_impl; [|exact Hw].
      intros c Hc. unfold replaceClass. destruct (cls c);
        repeat constructor. exact Hc. }
    unfold stripBin.
    rewrite (@binHead_matches d w') by assumption.
    rewrite (@binSuffix_removed d w') by assumption.
    rewrite Td.
    destruct (digits_no_separator Hd) as [ND NC].
    unfold inferDecimalSep.
    rewrite (lastIndexOf_absent _ _ ND), (lastIndexOf_absent _ _ NC).
    rewrite resolveSeparators_chars by (left; reflexivity).
    rewrite resolve_digits by (auto || exact Hd). reflexivity. }
  split; [exact C|].
  rewrite normNumber_cleaned by (destruct d; [congruence|discriminate]).
  rewrite C.
  destruct (@toNumber_digits d Hne Hd) as [E1 E2]. rewrite E2, E1.
  reflexivity.
Qed.

Lemma thousands_word_witness :
  cleaned (js "10 Bin") = (js "10", true)
  /\ normNumber (js "10 Bin") = decimal 10000 0.
Proof.
  change (js "10 Bin") with (js "10" ++ js " " ++ js "Bin").
  destruct (@thousands_word (js "10") (js " ") (js "Bin")) as [C N].
  - discriminate.
  - repeat constructor.
  - repeat constructor.
  - vm_compute. reflexivity.
  - split; [exact C|]. rewrite N. vm_compute. reflexivity.
Defined.

(* ================================================================== *)
(** ** The keyword trigger *)

Lemma includes_infix (k a b : jsstring) : includes k (a ++ k ++ b) = true.
Proof.
  induction a as [|c a IH].
  - cbn [app]. destruct (k ++ b) eqn:E; cbn [includes];
      rewrite <- E, startsWith_app; reflexivity.
  - cbn [app includes]. rewrite IH. apply orb_true_r.
Qed.

(** X18 (keywords in any case).  The keyword trigger does not look at the
    case of the letters: a block whose text holds a keyword of the list in
    any spelling that lower-cases to it is detected, with or without a badge
    or a currency. *)
Theorem keyword_in_any_case
        (el : Element) (pre w post k : jsstring) :
  In k THANKS_KEYWORDS -> toLowerCase w = k ->
  keywordTrigger (pre ++ w ++ post) = true
  /\ isSuperThanksBlock el (pre ++ w ++ post) = true.
Proof.
  intros I L.
  assert (K : keywordTrigger (pre ++ w ++ post) = true).
  { unfold keywordTrigger. apply existsb_exists. exists k.
    split; [exact I|]. rewrite !toLowerCase_app, L. apply includes_infix. }
  split; [exact K|]. unfold isSuperThanksBlock. rewrite K. reflexivity.
Qed.

Lemma keyword_in_any_case_witness :
  isSuperThanksBlock (textBlock "") (js "Ali: " ++ js "SÜPER TEŞEKKÜR" ++ js "!")
  = true.
Proof.
  apply (@keyword_in_any_case (textBlock "") (js "Ali: ") (js "SÜPER TEŞEKKÜR")
           (js "!") (js "süper teşekkür")).
  - in_list.
  - vm_compute. reflexivity.
Defined.

(* ================================================================== *)
(** ** What a run keeps *)

Lemma setHas_true_iff h l : setHas h l = true <-> In h l.
Proof.
  destruct (setHas h l) eqn:E.
  - split; [intros _|reflexivity].
    destruct (in_dec (list_eq_dec N.eq_dec) h l) as [I|N]; [exact I|].
    apply setHas_false_iff in N. congruence.
  - apply setHas_false_iff in E. split; [discriminate|contradiction].
Qed.

Lemma collectAll_keeps pages :
  forall st,
    lockstep st ->
    exists st',
      collectAll st pages = Some st'
      /\ lockstep st'
      /\ (forall f, In f (findings st') ->
                    In f (findings st)
                    \/ exists page fs, In page pages
                                       /\ extractFindingsInPage page = Some fs
                                       /\ In f fs)
      /\ (forall h, In h (seen st) -> In h (seen st'))
      /\ (forall page fs f,
             In page pages -> extractFindingsInPage page = Some fs ->
             In f fs -> In (hashFinding f) (seen st')).
Proof.
  induction pages as [|page rest IH]; intros st L.
  - exists st. split; [reflexivity|]. split; [exact L|].
    split; [auto|]. split; [auto|]. intros page fs f [].
  - cbn [collectAll]. unfold collectAndReport.
    destruct (extractFindingsInPage_spec page) as (fs & E & _). rewrite E.
    pose proof (collectLoop_lockstep fs [] L) as L1.
    destruct (collectLoop_streamed fs st []) as (more & _ & F1 & F2 & _).
    pose proof (@collectLoop_seen_all fs st []) as A1.
    pose proof (@collectLoop_seen_mono fs st []) as M1.
    destruct (collectLoop fs st []) as [st1 new]. cbn [fst] in *.
    destruct (IH st1 L1) as (st' & C & L' & K1 & K2 & K3).
    exists st'. split; [exact C|]. split; [exact L'|]. split; [|split].
    + intros f I. destruct (K1 f I) as [I1|(p & fs' & Ip & Ep & If)].
      * rewrite F1 in I1. apply in_app_or in I1. destruct I1 as [I1|I1];
          [left; exact I1|].
        right. exists page, fs. split; [left; reflexivity|].
        split; [exact E|]. apply F2. exact I1.
      * right. exists p, fs'. split; [right; exact Ip|]. auto.
    + intros h I. apply K2. apply setHas_true_iff. apply M1.
      apply setHas_true_iff. exact I.
    + intros p fs' f [Ip|Ip] Ep If.
      * subst p. rewrite E in Ep. inversion Ep; subst fs'.
        apply K2. apply setHas_true_iff. apply A1. exact If.
      * eapply K3; eauto.
Qed.

(** X22 (what a run keeps).  A run keeps what the ticks extract, up to the
    fingerprint: every finding of the log was returned by the payload at
    some tick, and every finding that the payload returned at some tick has
    a finding with the same fingerprint in the log.  Nothing but a duplicate
    is dropped and nothing is made up. *)
Theorem log_is_what_was_extracted (pages : list (list Element)) :
  exists st,
    collectAll emptyState pages = Some st
    /\ (forall f, In f (findings st) ->
                  exists page fs, In page pages
                                  /\ extractFindingsInPage page = Some fs
                                  /\ In f fs)
    /\ (forall page fs f,
           In page pages -> extractFindingsInPage page = Some fs ->
           In f fs ->
           exists g, In g (findings st) /\ hashFinding g = hashFinding f).
Proof.
  destruct (@collectAll_keeps pages emptyState) as (st & C & L & K1 & _ & K3).
  { split; [reflexivity|constructor]. }
  exists st. split; [exact C|]. split.
  - intros f I. destruct (K1 f I) as [[]|H]. exact H.
  - intros page fs f Ip E If. pose proof (K3 page fs f Ip E If) as H.
    destruct L as [L _]. rewrite L in H. apply in_map_iff in H.
    destruct H as (g & Hg & Ig). exists g. auto.
Qed.
